(** * libcanberra OSS backend (src/oss.c): playback requests, workers,
      cancellation and shutdown.

    A shallow embedding of [oss.c].  The sequential functions
    ([translate_error], [outstanding_free], [open_oss], [driver_play],
    [driver_cancel], the marking loop of [driver_destroy], the body of the
    streaming loop of [thread_func]) are Rocq functions that take the answers
    of the operating system and of the external collaborators as arguments
    and return, next to their result, the list of effects they performed.
    The threads of one driver instance are then put together in a labelled
    step relation whose atomic steps are the critical sections and the
    blocking calls of the source. *)

From Stdlib Require Import ZArith QArith Qabs String List Bool Lia.
From stdpp Require Import base option list gmap.

Local Open Scope Z_scope.

(** ** Status codes and OS error codes *)

(** The status enumeration of canberra.h (which is not among the sources at
    hand).  [CA_SUCCESS] is 0 and every [CA_ERROR_*] is negative, so the
    source's tests [ret < 0] and [ret != CA_SUCCESS] both read [is_error]. *)
Inductive ca_status : Type :=
| CA_SUCCESS
| CA_ERROR_NOTSUPPORTED
| CA_ERROR_INVALID
| CA_ERROR_STATE
| CA_ERROR_OOM
| CA_ERROR_NODRIVER
| CA_ERROR_SYSTEM
| CA_ERROR_NOTFOUND
| CA_ERROR_DESTROYED
| CA_ERROR_CANCELED
| CA_ERROR_NOTAVAILABLE
| CA_ERROR_ACCESS
| CA_ERROR_IO.

Definition is_error (r : ca_status) : bool :=
  match r with CA_SUCCESS => false | _ => true end.

#[global] Instance ca_status_eq_dec : EqDecision ca_status.
Proof. solve_decision. Defined.

(** The values of [errno] that [translate_error] tells apart; [EOTHER]
    stands for every other code. *)
Inductive errno_t : Type :=
| ENODEV | ENOENT | EACCES | EPERM | ENOMEM | EBUSY | EINVAL | ENOSYS
| EOTHER (n : Z).

Definition translate_error (error : errno_t) : ca_status :=
  match error with
  | ENODEV | ENOENT => CA_ERROR_NOTFOUND
  | EACCES | EPERM => CA_ERROR_ACCESS
  | ENOMEM => CA_ERROR_OOM
  | EBUSY => CA_ERROR_NOTAVAILABLE
  | EINVAL => CA_ERROR_INVALID
  | ENOSYS => CA_ERROR_NOTSUPPORTED
  | EOTHER _ => CA_ERROR_IO
  end.

(** ** Machine integers *)

(** [int] is 32 bits wide; a conversion to [int] and [int] arithmetic wrap. *)
Definition int_wrap (z : Z) : Z := (z + 2 ^ 31) mod 2 ^ 32 - 2 ^ 31.

(** [size_t] is unsigned, 64 bits wide. *)
Definition size_wrap (z : Z) : Z := z mod 2 ^ 64.

(** ** The data model *)

Inductive ca_sample_type : Type :=
| CA_SAMPLE_S16NE | CA_SAMPLE_S16RE | CA_SAMPLE_U8.

(** What the sample source (read-sound-file.h, external) reports about an
    open sound file: the getters [ca_sound_file_get_nchannels],
    [ca_sound_file_get_rate], [ca_sound_file_get_sample_type] and
    [ca_sound_file_frame_size] read these fields. *)
Record ca_sound_file : Type := {
  sf_handle : nat;
  sf_nchannels : Z;
  sf_rate : Z;
  sf_sample_type : ca_sample_type;
  sf_frame_size : Z
}.

(** [struct outstanding].  [o_addr] names the structure: it stands for the
    address of the block the allocator returned, and is the identity of the
    request; callbacks and user data are opaque pointers, [None] being NULL.
    A descriptor is negative when it is not open. *)
Record outstanding : Type := {
  o_addr : nat;
  o_dead : bool;
  o_id : Z;
  o_callback : option nat;
  o_userdata : option nat;
  o_file : option ca_sound_file;
  o_pcm : Z;
  o_pipe_fd0 : Z;
  o_pipe_fd1 : Z
}.

(** [struct private].  The list is the intrusive list [p->outstanding]
    (head first); the mutex pointer is either allocated or NULL. *)
Record private : Type := {
  p_theme : option nat;
  p_outstanding_mutex : bool;
  p_signal_semaphore : bool;
  p_semaphore : nat;
  p_semaphore_allocated : bool;
  p_outstanding : list outstanding
}.

(** The fields of [ca_context] that oss.c reads or writes. *)
Record ca_context : Type := {
  c_driver : option string;
  c_device : option string;
  c_props : nat;
  c_private : option private
}.

Definition set_private (c : ca_context) (p : option private) : ca_context :=
  {| c_driver := c_driver c; c_device := c_device c; c_props := c_props c;
     c_private := p |}.

Definition set_outstanding (p : private) (l : list outstanding) : private :=
  {| p_theme := p_theme p; p_outstanding_mutex := p_outstanding_mutex p;
     p_signal_semaphore := p_signal_semaphore p; p_semaphore := p_semaphore p;
     p_semaphore_allocated := p_semaphore_allocated p; p_outstanding := l |}.

(** Which call site of the source invoked a completion callback. *)
Inductive call_site : Type :=
| ByWorker      (* thread_func, at finish *)
| ByCancel      (* driver_cancel *)
| ByDestroy.    (* driver_destroy *)

(** The three negotiation requests [open_oss] sends to the device. *)
Inductive ioctl_req : Type :=
| SNDCTL_DSP_SETFMT | SNDCTL_DSP_CHANNELS | SNDCTL_DSP_SPEED.

(** The effects a function has on the world outside the driver state. *)
Inductive event : Type :=
| EvPipe (r w : Z)                        (* pipe() returned two descriptors *)
| EvSoundOpen (f : ca_sound_file)         (* ca_lookup_sound opened a source *)
| EvSoundClose (f : ca_sound_file)        (* ca_sound_file_close *)
| EvOpen (path : string) (fd : Z)         (* open() returned a descriptor *)
| EvClose (fd : Z)                        (* close() *)
| EvIoctl (fd : Z) (req : ioctl_req) (proposed : Z)
                                          (* ioctl() with the proposed value *)
| EvRead (f : option ca_sound_file) (asked got : Z)
                                          (* ca_sound_file_read_arbitrary *)
| EvReadFail (f : option ca_sound_file) (ret : ca_status)
| EvWrite (fd : Z) (n : Z)                (* write() accepted n bytes *)
| EvWriteFail (fd : Z)
| EvCallback (site : call_site) (req : nat) (cb : nat) (id : Z)
             (status : ca_status) (userdata : option nat)
| EvFree (req : nat)                      (* ca_free of the request *)
| EvSpawn (req : nat)                     (* pthread_create succeeded *)
| EvSemPost.                              (* sem_post *)

(** ** outstanding_free *)

Definition close_if_open (fd : Z) : list event :=
  if 0 <=? fd then [EvClose fd] else [].

Definition close_file (f : option ca_sound_file) : list event :=
  match f with Some f => [EvSoundClose f] | None => [] end.

(** What [outstanding_free] does once its assertion has passed. *)
Definition outstanding_free_body (o : outstanding) : list event :=
  close_if_open (o_pipe_fd1 o) ++ close_if_open (o_pipe_fd0 o) ++
  close_file (o_file o) ++ close_if_open (o_pcm o) ++ [EvFree (o_addr o)].

(** [None] is the failure of [ca_assert(o)]. *)
Definition outstanding_free (o : option outstanding) : option (list event) :=
  match o with
  | None => None
  | Some o => Some (outstanding_free_body o)
  end.

(** ** open_oss: device negotiation *)

(** The answer of a system call: its return value and, when that is
    negative, the [errno] it left. *)
Record sys_res : Type := { rv : Z; err : errno_t }.

(** The answer of an [ioctl] that negotiates a value: [io_val] is what the
    device stored back into the argument. *)
Record ioctl_res : Type := { io_rv : Z; io_err : errno_t; io_val : Z }.

(** What the operating system answers to the calls of [open_oss], in the
    order of the source, and the byte order the file was compiled for. *)
Record oss_env : Type := {
  oe_little_endian : bool;
  oe_open : sys_res;
  oe_getfl : sys_res;
  oe_setfl : sys_res;
  oe_setfmt : ioctl_res;
  oe_channels : ioctl_res;
  oe_speed : ioctl_res
}.

(** Sample formats of soundcard.h. *)
Definition AFMT_U8 : Z := 8.
Definition AFMT_S16_LE : Z := 16.
Definition AFMT_S16_BE : Z := 32.
Definition AFMT_S16_NE (little_endian : bool) : Z :=
  if little_endian then AFMT_S16_LE else AFMT_S16_BE.

Definition afmt_of (little_endian : bool) (t : ca_sample_type) : Z :=
  match t with
  | CA_SAMPLE_U8 => AFMT_U8
  | CA_SAMPLE_S16NE => AFMT_S16_NE little_endian
  | CA_SAMPLE_S16RE => if little_endian then AFMT_S16_BE else AFMT_S16_LE
  end.

Definition set_pcm (o : outstanding) (fd : Z) : outstanding :=
  {| o_addr := o_addr o; o_dead := o_dead o; o_id := o_id o;
     o_callback := o_callback o; o_userdata := o_userdata o;
     o_file := o_file o; o_pcm := fd;
     o_pipe_fd0 := o_pipe_fd0 o; o_pipe_fd1 := o_pipe_fd1 o |}.

(** [fabs((double) (val - test)) > test * 0.05].  The difference is an [int];
    both sides are compared as reals, [test * 0.05] being [test / 20]. *)
Definition rate_too_far (val test : Z) : bool :=
  test <? 20 * Z.abs (int_wrap (val - test)).

Definition device_path (c : ca_context) : string :=
  match c_device c with Some d => d | None => "/dev/dsp"%string end.

(** The result is the return value, the descriptor stored into [out->pcm]
    (the only field of the request that [open_oss] writes; [None] when the
    open was not reached) and the effects.  A result of [None] is a getter of
    the sample source called on a NULL file. *)
Definition open_oss (c : option ca_context) (out : option outstanding)
    (e : oss_env) : option (ca_status * option Z * list event) :=
  match c with
  | None => Some (CA_ERROR_INVALID, None, [])
  | Some ctx =>
  match c_private ctx with
  | None => Some (CA_ERROR_STATE, None, [])
  | Some _ =>
  match out with
  | None => Some (CA_ERROR_INVALID, None, [])
  | Some o =>
  match o_file o with
  | None => None
  | Some f =>
    if negb (sf_nchannels f <=? 2) then Some (CA_ERROR_NOTSUPPORTED, None, [])
    else
      let fd := rv (oe_open e) in
      if fd <? 0 then
        Some (translate_error (err (oe_open e)), Some fd, [])
      else
        let evs := [EvOpen (device_path ctx) fd] in
        if rv (oe_getfl e) <? 0 then
          Some (translate_error (err (oe_getfl e)), Some fd, evs)
        else if rv (oe_setfl e) <? 0 then
          Some (translate_error (err (oe_setfl e)), Some fd, evs)
        else
          let test := afmt_of (oe_little_endian e) (sf_sample_type f) in
          let evs := evs ++ [EvIoctl fd SNDCTL_DSP_SETFMT test] in
          if io_rv (oe_setfmt e) <? 0 then
            Some (translate_error (io_err (oe_setfmt e)), Some fd, evs)
          else if negb (io_val (oe_setfmt e) =? test) then
            Some (CA_ERROR_NOTSUPPORTED, Some fd, evs)
          else
            let test := int_wrap (sf_nchannels f) in
            let evs := evs ++ [EvIoctl fd SNDCTL_DSP_CHANNELS test] in
            if io_rv (oe_channels e) <? 0 then
              Some (translate_error (io_err (oe_channels e)), Some fd, evs)
            else if negb (io_val (oe_channels e) =? test) then
              Some (CA_ERROR_NOTSUPPORTED, Some fd, evs)
            else
              let test := int_wrap (sf_rate f) in
              let evs := evs ++ [EvIoctl fd SNDCTL_DSP_SPEED test] in
              if io_rv (oe_speed e) <? 0 then
                Some (translate_error (io_err (oe_speed e)), Some fd, evs)
              else if rate_too_far (io_val (oe_speed e)) test then
                Some (CA_ERROR_NOTSUPPORTED, Some fd, evs)
              else
                Some (CA_SUCCESS, Some fd, evs)
  end end end end.

(** ** The registry: the intrusive list of llist.h *)

(** [CA_LLIST_PREPEND] is [cons]; [CA_LLIST_REMOVE] unlinks the element with
    the given address. *)
Definition llist_remove (a : nat) (l : list outstanding) : list outstanding :=
  filter (λ o, o_addr o ≠ a) l.

(** ** driver_play *)

(** What the collaborators of [driver_play] answer: the allocator (the
    address of the new request, or NULL), [pipe] (the two descriptors, which
    are not negative, or failure), [ca_lookup_sound] (its status, what it stored in [out->file]
    and what it left in [p->theme]), the device, and the return value of
    [pthread_create]. *)
Record play_env : Type := {
  pe_new : option nat;
  pe_pipe : option (nat * nat);
  pe_lookup : ca_status;
  pe_lookup_file : option ca_sound_file;
  pe_lookup_theme : option nat;
  pe_oss : oss_env;
  pe_thread : Z
}.

(** A play call either returns (a status, the context as it leaves it, its
    effects, and the request handed to a new thread when one was started) or
    dies in a failed assertion after some effects. *)
Inductive play_result : Type :=
| PlayReturn (ret : ca_status) (c : option ca_context) (evs : list event)
             (thread : option nat)
| PlayAbort (evs : list event).

Definition new_outstanding (a : nat) (id : Z) (cb userdata : option nat)
  : outstanding :=
  {| o_addr := a; o_dead := false; o_id := id; o_callback := cb;
     o_userdata := userdata; o_file := None; o_pcm := -1;
     o_pipe_fd0 := -1; o_pipe_fd1 := -1 |}.

Definition set_pipe (o : outstanding) (r w : Z) : outstanding :=
  {| o_addr := o_addr o; o_dead := o_dead o; o_id := o_id o;
     o_callback := o_callback o; o_userdata := o_userdata o;
     o_file := o_file o; o_pcm := o_pcm o;
     o_pipe_fd0 := r; o_pipe_fd1 := w |}.

Definition set_file (o : outstanding) (f : option ca_sound_file)
  : outstanding :=
  {| o_addr := o_addr o; o_dead := o_dead o; o_id := o_id o;
     o_callback := o_callback o; o_userdata := o_userdata o;
     o_file := f; o_pcm := o_pcm o;
     o_pipe_fd0 := o_pipe_fd0 o; o_pipe_fd1 := o_pipe_fd1 o |}.

Definition set_theme (p : private) (t : option nat) : private :=
  {| p_theme := t; p_outstanding_mutex := p_outstanding_mutex p;
     p_signal_semaphore := p_signal_semaphore p; p_semaphore := p_semaphore p;
     p_semaphore_allocated := p_semaphore_allocated p;
     p_outstanding := p_outstanding p |}.

Definition is_null {A} (x : option A) : bool :=
  match x with None => true | Some _ => false end.

(** The label [finish] of [driver_play]:
    [if (ret != CA_SUCCESS) outstanding_free(out); return ret;] *)
Definition play_finish (ret : ca_status) (out : option outstanding)
    (c : option ca_context) (evs : list event) (thread : option nat)
  : play_result :=
  if is_error ret then
    match outstanding_free out with
    | None => PlayAbort evs
    | Some fevs => PlayReturn ret c (evs ++ fevs) thread
    end
  else PlayReturn ret c evs thread.

Definition driver_play (c : option ca_context) (id : Z)
    (proplist : option nat) (cb userdata : option nat) (e : play_env)
  : play_result :=
  match c with
  | None => PlayReturn CA_ERROR_INVALID c [] None
  | Some ctx =>
  if is_null proplist then PlayReturn CA_ERROR_INVALID c [] None
  else if negb (is_null userdata || negb (is_null cb)) then
    PlayReturn CA_ERROR_INVALID c [] None
  else
  match c_private ctx with
  | None => PlayReturn CA_ERROR_STATE c [] None
  | Some p =>
  match pe_new e with
  | None => play_finish CA_ERROR_OOM None c [] None
  | Some a =>
    let out := new_outstanding a id cb userdata in
    match pe_pipe e with
    | None => play_finish CA_ERROR_SYSTEM (Some out) c [] None
    | Some (r, w) =>
      let out := set_pipe out (Z.of_nat r) (Z.of_nat w) in
      let evs := [EvPipe (Z.of_nat r) (Z.of_nat w)] in
      let out := set_file out (pe_lookup_file e) in
      let p := set_theme p (pe_lookup_theme e) in
      let ctx := set_private ctx (Some p) in
      let evs :=
        evs ++ match pe_lookup_file e with
               | Some f => [EvSoundOpen f] | None => [] end in
      if is_error (pe_lookup e) then
        play_finish (pe_lookup e) (Some out) (Some ctx) evs None
      else
        match open_oss (Some ctx) (Some out) (pe_oss e) with
        | None => PlayAbort evs
        | Some (ret, fd, oevs) =>
          let out := match fd with Some fd => set_pcm out fd | None => out end in
          let evs := evs ++ oevs in
          if is_error ret then play_finish ret (Some out) (Some ctx) evs None
          else
            let p := set_outstanding p (out :: p_outstanding p) in
            if pe_thread e <? 0 then
              let p := set_outstanding p (llist_remove a (p_outstanding p)) in
              play_finish CA_ERROR_OOM (Some out)
                          (Some (set_private ctx (Some p))) evs None
            else if pe_thread e =? 0 then
              play_finish CA_SUCCESS (Some out)
                          (Some (set_private ctx (Some p)))
                          (evs ++ [EvSpawn a]) (Some a)
            else
              play_finish CA_SUCCESS (Some out)
                          (Some (set_private ctx (Some p))) evs None
        end
    end
  end end end.

(** ** driver_cancel and the marking loop of driver_destroy *)

Definition set_dead_closed (o : outstanding) : outstanding :=
  {| o_addr := o_addr o; o_dead := true; o_id := o_id o;
     o_callback := o_callback o; o_userdata := o_userdata o;
     o_file := o_file o; o_pcm := o_pcm o;
     o_pipe_fd0 := o_pipe_fd0 o;
     o_pipe_fd1 := if 0 <=? o_pipe_fd1 o then -1 else o_pipe_fd1 o |}.

Definition call_back (site : call_site) (status : ca_status) (o : outstanding)
  : list event :=
  match o_callback o with
  | Some cb => [EvCallback site (o_addr o) cb (o_id o) status (o_userdata o)]
  | None => []
  end.

(** What both loops do to a request that is not dead yet: set [dead], call
    back with the given status, close the write end of the pipe. *)
Definition terminate (site : call_site) (status : ca_status) (o : outstanding)
  : outstanding * list event :=
  (set_dead_closed o, call_back site status o ++ close_if_open (o_pipe_fd1 o)).

Fixpoint cancel_loop (id : Z) (l : list outstanding)
  : list outstanding * list event :=
  match l with
  | [] => ([], [])
  | out :: next =>
      let '(out', evs) :=
        if negb (o_id out =? id) then (out, [])
        else if o_dead out then (out, [])
        else terminate ByCancel CA_ERROR_CANCELED out in
      let '(next', evs') := cancel_loop id next in
      (out' :: next', evs ++ evs')
  end.

Definition driver_cancel (c : option ca_context) (id : Z)
  : ca_status * option ca_context * list event :=
  match c with
  | None => (CA_ERROR_INVALID, c, [])
  | Some ctx =>
  match c_private ctx with
  | None => (CA_ERROR_STATE, c, [])
  | Some p =>
      let '(l, evs) := cancel_loop id (p_outstanding p) in
      (CA_SUCCESS, Some (set_private ctx (Some (set_outstanding p l))), evs)
  end end.

Fixpoint destroy_loop (l : list outstanding)
  : list outstanding * list event :=
  match l with
  | [] => ([], [])
  | out :: next =>
      let '(out', evs) :=
        if o_dead out then (out, [])
        else terminate ByDestroy CA_ERROR_DESTROYED out in
      let '(next', evs') := destroy_loop next in
      (out' :: next', evs ++ evs')
  end.

Definition set_signal_semaphore (p : private) (b : bool) : private :=
  {| p_theme := p_theme p; p_outstanding_mutex := p_outstanding_mutex p;
     p_signal_semaphore := b; p_semaphore := p_semaphore p;
     p_semaphore_allocated := p_semaphore_allocated p;
     p_outstanding := p_outstanding p |}.

Definition set_semaphore (p : private) (n : nat) : private :=
  {| p_theme := p_theme p; p_outstanding_mutex := p_outstanding_mutex p;
     p_signal_semaphore := p_signal_semaphore p; p_semaphore := n;
     p_semaphore_allocated := p_semaphore_allocated p;
     p_outstanding := p_outstanding p |}.

(** [driver_destroy] either returns or is blocked in [sem_wait], the mutex
    released. *)
Inductive destroy_result : Type :=
| DestroyReturn (ret : ca_status) (c : option ca_context) (evs : list event)
| DestroyWait (c : ca_context) (evs : list event).

(** The test of [while (p->outstanding)], made with the mutex held: leave
    the loop, release everything and set [c->private] to NULL, or unlock and
    wait. *)
Definition destroy_wait_loop (ctx : ca_context) (p : private)
    (evs : list event) : destroy_result :=
  match p_outstanding p with
  | [] => DestroyReturn CA_SUCCESS (Some (set_private ctx None)) evs
  | _ :: _ => DestroyWait (set_private ctx (Some p)) evs
  end.

(** [driver_destroy] from its entry to its first [sem_wait] or its return. *)
Definition driver_destroy (c : option ca_context) : destroy_result :=
  match c with
  | None => DestroyReturn CA_ERROR_INVALID c []
  | Some ctx =>
  match c_private ctx with
  | None => DestroyReturn CA_ERROR_STATE c []
  | Some p =>
      if p_outstanding_mutex p then
        let '(l, evs) := destroy_loop (p_outstanding p) in
        let p := set_outstanding p l in
        if p_semaphore_allocated p then
          destroy_wait_loop ctx (set_signal_semaphore p true) evs
        else DestroyReturn CA_SUCCESS (Some (set_private ctx None)) evs
      else DestroyReturn CA_SUCCESS (Some (set_private ctx None)) []
  end end.

(** ** thread_func: the streaming worker *)

Definition BUFSIZE : Z := 4 * 1024.

(** [POLLOUT] of poll.h. *)
Definition POLLOUT : Z := 4.

(** [data_size = (BUFSIZE/fs)*fs] in [size_t]; the source divides by the
    frame size without a test, and a frame size of 0 has no defined result
    there (here the quotient is 0). *)
Definition data_size (fs : Z) : Z := size_wrap (BUFSIZE / fs * fs).

(** The answers the worker gets in one turn of its loop: from [poll] (return
    value, [pfd[0].revents] of the pipe, [pfd[1].revents] of the device),
    from [ca_sound_file_read_arbitrary] (status and the byte count it stored
    in [nbytes]) and from [write] (return value and [errno]). *)
Record poll_res : Type := { poll_rv : Z; revents0 : Z; revents1 : Z }.
Record read_res : Type := { rd_ret : ca_status; rd_nbytes : Z }.
Record write_res : Type := { wr_rv : Z; wr_errno : errno_t }.
Record iter_env : Type := {
  ie_poll : poll_res;
  ie_read : read_res;
  ie_write : write_res
}.

(** How one turn of the loop ends: at the next turn, with the bytes left in
    the buffer and the cursor [d] (an offset into [data]); at a [break]; or
    at a [goto finish] with [ret] set. *)
Inductive iter_out : Type :=
| Continue (nbytes d : Z) (evs : list event)
| Break (evs : list event)
| Finish (ret : ca_status) (evs : list event).

(** The loop body from the call of [poll] on (the test of [out->dead] at the
    top of the loop is made by the caller). *)
Definition loop_body (out : outstanding) (data_size nbytes d : Z)
    (e : iter_env) : iter_out :=
  if poll_rv (ie_poll e) <? 0 then Finish CA_ERROR_SYSTEM []
  else if negb (revents0 (ie_poll e) =? 0) then Break []
  else if negb (revents1 (ie_poll e) =? POLLOUT) then Finish CA_ERROR_IO []
  else
    let refill := nbytes <=? 0 in
    if refill && is_error (rd_ret (ie_read e)) then
      Finish (rd_ret (ie_read e))
             [EvReadFail (o_file out) (rd_ret (ie_read e))]
    else
      let nbytes := if refill then rd_nbytes (ie_read e) else nbytes in
      let d := if refill then 0 else d in
      let evs :=
        if refill then [EvRead (o_file out) data_size nbytes] else [] in
      if nbytes <=? 0 then Break evs
      else
        let bytes_written := wr_rv (ie_write e) in
        if bytes_written <=? 0 then
          Finish (translate_error (wr_errno (ie_write e)))
                 (evs ++ [EvWriteFail (o_pcm out)])
        else
          Continue (size_wrap (nbytes - size_wrap bytes_written))
                   (d + size_wrap bytes_written)
                   (evs ++ [EvWrite (o_pcm out) bytes_written]).

(** The loop run against a finite schedule: for each turn the value read
    from [out->dead] at its top and the answers of the turn.  It has either
    left the loop with [ret] set, or is still in it when the schedule ends. *)
Inductive loop_result : Type :=
| LoopExit (ret : ca_status) (evs : list event)
| LoopRunning (nbytes d : Z) (evs : list event).

Definition loop_after (evs : list event) (r : loop_result) : loop_result :=
  match r with
  | LoopExit ret evs' => LoopExit ret (evs ++ evs')
  | LoopRunning nbytes d evs' => LoopRunning nbytes d (evs ++ evs')
  end.

Fixpoint thread_loop (out : outstanding) (data_size nbytes d : Z)
    (sched : list (bool * iter_env)) : loop_result :=
  match sched with
  | [] => LoopRunning nbytes d []
  | (dead, e) :: rest =>
      if dead then LoopExit CA_SUCCESS []
      else
        match loop_body out data_size nbytes d e with
        | Finish ret evs => LoopExit ret evs
        | Break evs => LoopExit CA_SUCCESS evs
        | Continue nbytes d evs =>
            loop_after evs (thread_loop out data_size nbytes d rest)
        end
  end.

(** After the loop, at [finish]: the worker's own callback, made without the
    mutex, as a worker makes it that no other thread interrupts between its
    test of [out->dead] and the call. *)
Definition thread_finish_callback (out : outstanding) (ret : ca_status)
  : list event :=
  if o_dead out then [] else call_back ByWorker ret out.

(** Then, with the mutex held: unlink the request, post the semaphore if the
    list is now empty and a drain is pending, free the request. *)
Definition thread_unregister (p : private) (out : outstanding)
  : private * list event :=
  let l := llist_remove (o_addr out) (p_outstanding p) in
  let p := set_outstanding p l in
  match l with
  | [] =>
      if p_signal_semaphore p then
        (set_semaphore p (S (p_semaphore p)),
         EvSemPost :: outstanding_free_body out)
      else (p, outstanding_free_body out)
  | _ :: _ => (p, outstanding_free_body out)
  end.

(** ** driver_open *)

(** The answers to [driver_open]: whether [ca_new0] and [ca_mutex_new]
    succeeded, and the return value of [sem_init]. *)
Record open_env : Type := {
  op_new : bool;
  op_mutex : bool;
  op_sem_init : Z
}.

Definition new_private : private :=
  {| p_theme := None; p_outstanding_mutex := false;
     p_signal_semaphore := false; p_semaphore := 0%nat;
     p_semaphore_allocated := false; p_outstanding := [] |}.

Definition set_mutex (p : private) (b : bool) : private :=
  {| p_theme := p_theme p; p_outstanding_mutex := b;
     p_signal_semaphore := p_signal_semaphore p; p_semaphore := p_semaphore p;
     p_semaphore_allocated := p_semaphore_allocated p;
     p_outstanding := p_outstanding p |}.

Definition set_semaphore_allocated (p : private) (b : bool) : private :=
  {| p_theme := p_theme p; p_outstanding_mutex := p_outstanding_mutex p;
     p_signal_semaphore := p_signal_semaphore p; p_semaphore := p_semaphore p;
     p_semaphore_allocated := b; p_outstanding := p_outstanding p |}.

(** The context [driver_destroy] leaves behind; on the paths of
    [driver_open] the list is empty and it returns at once. *)
Definition destroyed (r : destroy_result) : option ca_context :=
  match r with
  | DestroyReturn _ c _ => c
  | DestroyWait c _ => Some c
  end.

Definition driver_open (c : option ca_context) (e : open_env)
  : ca_status * option ca_context :=
  match c with
  | None => (CA_ERROR_INVALID, c)
  | Some ctx =>
    if negb (match c_driver ctx with
             | None => true
             | Some d => bool_decide (d = "oss"%string)
             end)
    then (CA_ERROR_NODRIVER, c)
    else if negb (is_null (c_private ctx)) then (CA_ERROR_STATE, c)
    else if negb (op_new e) then (CA_ERROR_OOM, c)
    else
      let p := new_private in
      if negb (op_mutex e) then
        (CA_ERROR_OOM, destroyed (driver_destroy (Some (set_private ctx (Some p)))))
      else
        let p := set_mutex p true in
        if op_sem_init e <? 0 then
          (CA_ERROR_OOM,
           destroyed (driver_destroy (Some (set_private ctx (Some p)))))
        else
          (CA_SUCCESS,
           Some (set_private ctx (Some (set_semaphore_allocated p true))))
  end.

(** ** The threads of one driver instance *)

(** Where a worker is in [thread_func]: before [ca_malloc]; at the top of
    the loop, about to read [out->dead]; blocked in [poll]; back from
    [poll] with its answer, before it has looked at it; at [finish] with
    [ret] set, about to read [out->dead]; past that test, which found the
    request not dead, about to look at [out->callback] and call it; past
    its callback, about to take the mutex.  The worker reads [out->dead]
    without the mutex, so that another thread can run between each of these
    positions and the next.  The loop positions carry the thread's locals
    [data_size], [nbytes] and [d]. *)
Inductive wpc : Type :=
| WStart
| WLoop (data_size nbytes d : Z)
| WPoll (data_size nbytes d : Z)
| WPolled (data_size nbytes d : Z) (pr : poll_res)
| WFinish (ret : ca_status)
| WCall (ret : ca_status)
| WUnregister.

(** Where the caller of [driver_destroy] is: not in it; blocked in
    [sem_wait]; woken, about to take the mutex again; returned. *)
Inductive dpc : Type :=
| DIdle | DWait | DWoken | DDone.

(** The state of the whole: the context (with the registry in its private
    part), the running workers by the name of their request, the
    destroying caller, and three pieces of history: every effect so far, the
    requests their workers have freed, and the number of allocations so far.
    In a running system the name [o_addr] of a request is the serial number
    of its allocation, not the address itself: [calloc] may hand out the
    address of a freed request again, and the later request is then another
    request, with another number.  Requests that are alive at the same time
    have different addresses, hence different numbers, and the code only
    ever compares, links and frees requests that are alive, so that the two
    cannot be told apart by it. *)
Record system : Type := {
  sys_ctx : ca_context;
  sys_threads : gmap nat wpc;
  sys_destroy : dpc;
  sys_trace : list event;
  sys_retired : list outstanding;
  sys_next : nat
}.

Definition registry (s : system) : list outstanding :=
  match c_private (sys_ctx s) with
  | Some p => p_outstanding p
  | None => []
  end.

Inductive label : Type :=
| LOpen (ret : ca_status)
| LPlay (id : Z) (cb : option nat) (ret : ca_status)
| LCancel (id : Z)
| LDestroy
| LWorker (a : nat).

(** The allocator answers NULL or a block, which gets the next serial
    number as its name. *)
Definition play_env_ok (s : system) (e : play_env) : Prop :=
  pe_new e = None ∨ pe_new e = Some (sys_next s).

(** [poll] reports the read end of the pipe exactly when its write end has
    been closed by the time it returns: nothing is ever written to the
    pipe. *)
Definition poll_ok (o : outstanding) (e : iter_env) : Prop :=
  revents0 (ie_poll e) ≠ 0 ↔ o_pipe_fd1 o < 0.

Definition with_ctx (s : system) (c : ca_context) (evs : list event)
  : system :=
  {| sys_ctx := c; sys_threads := sys_threads s;
     sys_destroy := sys_destroy s; sys_trace := sys_trace s ++ evs;
     sys_retired := sys_retired s; sys_next := sys_next s |}.

Definition with_thread (s : system) (a : nat) (pc : wpc) (evs : list event)
  : system :=
  {| sys_ctx := sys_ctx s; sys_threads := <[a := pc]> (sys_threads s);
     sys_destroy := sys_destroy s; sys_trace := sys_trace s ++ evs;
     sys_retired := sys_retired s; sys_next := sys_next s |}.

Definition with_destroy (s : system) (c : ca_context) (d : dpc)
    (evs : list event) : system :=
  {| sys_ctx := c; sys_threads := sys_threads s;
     sys_destroy := d; sys_trace := sys_trace s ++ evs;
     sys_retired := sys_retired s; sys_next := sys_next s |}.

Definition after_body (r : iter_out) (data_size : Z) : wpc * list event :=
  match r with
  | Continue nbytes d evs => (WLoop data_size nbytes d, evs)
  | Break evs => (WFinish CA_SUCCESS, evs)
  | Finish ret evs => (WFinish ret, evs)
  end.

(** One atomic step of one thread.  A critical section is one step;
    [driver_play] does not block and is one step; a worker takes a step of
    its own for each read of [out->dead], for [poll], and for what follows
    each of them up to the next.  [driver_open] can be called in any state
    (it succeeds on a context that is closed, and opens it again);
    [driver_destroy] can be called again once it has returned. *)
Inductive step : system → label → system → Prop :=
| step_open s e ret c' :
    driver_open (Some (sys_ctx s)) e = (ret, Some c') →
    step s (LOpen ret)
      (with_destroy s c' (if is_error ret then sys_destroy s else DIdle) [])
| step_play s id proplist cb userdata e ret c' evs thread :
    play_env_ok s e →
    driver_play (Some (sys_ctx s)) id proplist cb userdata e
      = PlayReturn ret (Some c') evs thread →
    step s (LPlay id cb ret)
      {| sys_ctx := c';
         sys_threads :=
           match thread with
           | Some a => <[a := WStart]> (sys_threads s)
           | None => sys_threads s
           end;
         sys_destroy := sys_destroy s; sys_trace := sys_trace s ++ evs;
         sys_retired := sys_retired s; sys_next := S (sys_next s) |}
| step_cancel s id ret c' evs :
    driver_cancel (Some (sys_ctx s)) id = (ret, Some c', evs) →
    step s (LCancel id) (with_ctx s c' evs)
| step_destroy_return s ret c' evs :
    sys_destroy s = DIdle →
    is_null (c_private (sys_ctx s)) = false →
    driver_destroy (Some (sys_ctx s)) = DestroyReturn ret (Some c') evs →
    step s LDestroy (with_destroy s c' DDone evs)
| step_destroy_wait s c' evs :
    sys_destroy s = DIdle →
    driver_destroy (Some (sys_ctx s)) = DestroyWait c' evs →
    step s LDestroy (with_destroy s c' DWait evs)
| step_destroy_closed s ret c' evs :
    sys_destroy s = DDone →
    driver_destroy (Some (sys_ctx s)) = DestroyReturn ret (Some c') evs →
    step s LDestroy (with_destroy s c' DDone evs)
| step_destroy_wake s p n :
    sys_destroy s = DWait →
    c_private (sys_ctx s) = Some p →
    p_semaphore p = S n →
    step s LDestroy
      (with_destroy s (set_private (sys_ctx s) (Some (set_semaphore p n)))
                    DWoken [])
| step_destroy_recheck_return s p ret c' evs :
    sys_destroy s = DWoken →
    c_private (sys_ctx s) = Some p →
    destroy_wait_loop (sys_ctx s) p [] = DestroyReturn ret (Some c') evs →
    step s LDestroy (with_destroy s c' DDone evs)
| step_destroy_recheck_wait s p c' evs :
    sys_destroy s = DWoken →
    c_private (sys_ctx s) = Some p →
    destroy_wait_loop (sys_ctx s) p [] = DestroyWait c' evs →
    step s LDestroy (with_destroy s c' DWait evs)
| step_worker_start s a o f (malloc_ok : bool) :
    sys_threads s !! a = Some WStart →
    o ∈ registry s → o_addr o = a →
    o_file o = Some f →
    step s (LWorker a)
      (with_thread s a
         (if malloc_ok then WLoop (data_size (sf_frame_size f)) 0 0
          else WFinish CA_ERROR_OOM) [])
| step_worker_test s a o ds nbytes d :
    sys_threads s !! a = Some (WLoop ds nbytes d) →
    o ∈ registry s → o_addr o = a →
    step s (LWorker a)
      (with_thread s a
         (if o_dead o then WFinish CA_SUCCESS else WPoll ds nbytes d) [])
| step_worker_poll s a o ds nbytes d e :
    sys_threads s !! a = Some (WPoll ds nbytes d) →
    o ∈ registry s → o_addr o = a →
    poll_ok o e →
    step s (LWorker a)
      (with_thread s a (WPolled ds nbytes d (ie_poll e)) [])
| step_worker_body s a o ds nbytes d e :
    sys_threads s !! a = Some (WPolled ds nbytes d (ie_poll e)) →
    o ∈ registry s → o_addr o = a →
    step s (LWorker a)
      (with_thread s a (after_body (loop_body o ds nbytes d e) ds).1
                       (after_body (loop_body o ds nbytes d e) ds).2)
| step_worker_finish s a o ret :
    sys_threads s !! a = Some (WFinish ret) →
    o ∈ registry s → o_addr o = a →
    step s (LWorker a)
      (with_thread s a (if o_dead o then WUnregister else WCall ret) [])
| step_worker_callback s a o ret :
    sys_threads s !! a = Some (WCall ret) →
    o ∈ registry s → o_addr o = a →
    step s (LWorker a)
      (with_thread s a WUnregister (call_back ByWorker ret o))
| step_worker_unregister s a o p :
    sys_threads s !! a = Some WUnregister →
    c_private (sys_ctx s) = Some p →
    o ∈ p_outstanding p → o_addr o = a →
    step s (LWorker a)
      {| sys_ctx := set_private (sys_ctx s) (Some (thread_unregister p o).1);
         sys_threads := delete a (sys_threads s);
         sys_destroy := sys_destroy s;
         sys_trace := sys_trace s ++ (thread_unregister p o).2;
         sys_retired := sys_retired s ++ [o];
         sys_next := sys_next s |}.

Definition init_system (c : ca_context) : system :=
  {| sys_ctx := c; sys_threads := ∅; sys_destroy := DIdle;
     sys_trace := []; sys_retired := []; sys_next := 0%nat |}.

(** The states a driver instance can be in: it starts in the context a
    successful [driver_open] leaves, with no thread and no history. *)
Inductive reachable : system → Prop :=
| reach_open c0 e c :
    driver_open (Some c0) e = (CA_SUCCESS, Some c) →
    reachable (init_system c)
| reach_step s l s' :
    reachable s → step s l s' → reachable s'.

(** * Properties of the sequential functions *)

(** ** Concrete inputs used by the examples *)

Definition ctx_closed : ca_context :=
  {| c_driver := None; c_device := None; c_props := 0%nat;
     c_private := None |}.

Definition open_env_ok : open_env :=
  {| op_new := true; op_mutex := true; op_sem_init := 0 |}.

(** The context a successful [driver_open] leaves. *)
Definition ctx_open : ca_context :=
  Eval cbv in
    match (driver_open (Some ctx_closed) open_env_ok).2 with
    | Some c => c
    | None => ctx_closed
    end.

Definition priv_open : private :=
  {| p_theme := None; p_outstanding_mutex := true;
     p_signal_semaphore := false; p_semaphore := 0%nat;
     p_semaphore_allocated := true; p_outstanding := [] |}.

Definition ok : sys_res := {| rv := 0; err := EOTHER 0 |}.
Definition okv (v : Z) : sys_res := {| rv := v; err := EOTHER 0 |}.
Definition accept (v : Z) : ioctl_res :=
  {| io_rv := 0; io_err := EOTHER 0; io_val := v |}.

(** A mono, 16 bit, 44100 Hz source and a device that takes it as it is. *)
Definition mono_44100 : ca_sound_file :=
  {| sf_handle := 1%nat; sf_nchannels := 1; sf_rate := 44100;
     sf_sample_type := CA_SAMPLE_S16NE; sf_frame_size := 2 |}.

Definition oss_accepts (rate : Z) : oss_env :=
  {| oe_little_endian := true; oe_open := okv 5; oe_getfl := ok;
     oe_setfl := ok; oe_setfmt := accept AFMT_S16_LE;
     oe_channels := accept 1; oe_speed := accept rate |}.

Definition play_env_good (a : nat) : play_env :=
  {| pe_new := Some a; pe_pipe := Some (3%nat, 4%nat);
     pe_lookup := CA_SUCCESS; pe_lookup_file := Some mono_44100;
     pe_lookup_theme := Some 0%nat; pe_oss := oss_accepts 44100;
     pe_thread := 0 |}.

Example driver_open_ok :
  driver_open (Some ctx_closed) open_env_ok = (CA_SUCCESS, Some ctx_open) ∧
  c_private ctx_open = Some priv_open.
Proof. split; reflexivity. Qed.

Example driver_play_accepts :
  driver_play (Some ctx_open) 7 (Some 0%nat) (Some 1%nat) None
              (play_env_good 0)
  = PlayReturn CA_SUCCESS
      (Some (set_private ctx_open
         (Some {| p_theme := Some 0%nat; p_outstanding_mutex := true;
                  p_signal_semaphore := false; p_semaphore := 0%nat;
                  p_semaphore_allocated := true;
                  p_outstanding :=
                    [ {| o_addr := 0%nat; o_dead := false; o_id := 7;
                         o_callback := Some 1%nat; o_userdata := None;
                         o_file := Some mono_44100; o_pcm := 5;
                         o_pipe_fd0 := 3; o_pipe_fd1 := 4 |} ] |})))
      [EvPipe 3 4; EvSoundOpen mono_44100; EvOpen "/dev/dsp" 5;
       EvIoctl 5 SNDCTL_DSP_SETFMT 16; EvIoctl 5 SNDCTL_DSP_CHANNELS 1;
       EvIoctl 5 SNDCTL_DSP_SPEED 44100; EvSpawn 0%nat]
      (Some 0%nat).
Proof. reflexivity. Qed.

(** ** Tactics *)

(** Replace the integer tests of the goal by their meaning, case by case. *)
Ltac ztest :=
  match goal with
  | |- context [?a <? ?b] => destruct (Z.ltb_spec a b)
  | |- context [?a <=? ?b] => destruct (Z.leb_spec a b)
  | |- context [?a =? ?b] => destruct (Z.eqb_spec a b)
  end.

Ltac ztests := repeat (ztest; simpl; try lia).

(** ** Machine integers in range *)

Lemma int_wrap_id z : - 2 ^ 31 <= z < 2 ^ 31 → int_wrap z = z.
Proof.
  intros H. unfold int_wrap.
  rewrite Z.mod_small by lia. lia.
Qed.

Lemma size_wrap_id z : 0 <= z < 2 ^ 64 → size_wrap z = z.
Proof. intros H. unfold size_wrap. now rewrite Z.mod_small. Qed.

(** The rate test is the 5% band, as long as the difference of the two rates
    is an [int]. *)
Lemma rate_too_far_band val test :
  - 2 ^ 31 <= val - test < 2 ^ 31 →
  rate_too_far val test = false ↔
  (Qabs (inject_Z val - inject_Z test) <= (5 # 100) * inject_Z test)%Q.
Proof.
  intros Hr. unfold rate_too_far. rewrite int_wrap_id by exact Hr.
  rewrite Z.ltb_ge, Qabs_Qle_condition.
  unfold Qle, Qminus, Qplus, Qopp, Qmult, inject_Z; simpl.
  lia.
Qed.

Lemma translate_error_is_error e : is_error (translate_error e) = true.
Proof. now destruct e. Qed.

Lemma translate_error_is_error_ne e : translate_error e ≠ CA_SUCCESS.
Proof. now destruct e. Qed.

(** ** Guards of driver_play *)

(** C9.  A play call with user data but without a callback returns
    [CA_ERROR_INVALID] at once, whatever the other arguments are and whatever
    the collaborators would answer: the context is returned as it was given
    (no request is registered), there is no effect at all (nothing is
    allocated, no device is opened) and no thread is started. *)
Theorem driver_play_userdata_without_callback
    (c : option ca_context) (id : Z) (proplist : option nat) (u : nat)
    (e : play_env) :
  driver_play c id proplist None (Some u) e
  = PlayReturn CA_ERROR_INVALID c [] None.
Proof.
  unfold driver_play.
  destruct c as [ctx|]; [|reflexivity].
  destruct proplist; reflexivity.
Qed.

(** ** Failure of the allocation in driver_play *)

(** When [ca_new0] returns NULL, [driver_play] goes to [finish] with
    [ret = CA_ERROR_OOM] and [out = NULL], and there calls
    [outstanding_free(NULL)]: the assertion of [outstanding_free] fails. *)
Lemma driver_play_alloc_failure ctx p id pl cb userdata e :
  c_private ctx = Some p →
  is_null userdata || negb (is_null cb) = true →
  pe_new e = None →
  driver_play (Some ctx) id (Some pl) cb userdata e = PlayAbort [].
Proof.
  intros Hp Hcb Hnew. unfold driver_play. simpl.
  rewrite Hcb, Hp, Hnew. reflexivity.
Qed.

Definition play_env_oom : play_env :=
  {| pe_new := None; pe_pipe := Some (3%nat, 4%nat);
     pe_lookup := CA_SUCCESS; pe_lookup_file := Some mono_44100;
     pe_lookup_theme := Some 0%nat; pe_oss := oss_accepts 44100;
     pe_thread := 0 |}.

(** C10.  On an open driver, a play call whose allocation of the request
    fails does not return [CA_ERROR_OOM]: its cleanup calls
    [outstanding_free] on the NULL request, whose assertion fails.  (Nothing
    else has happened by then: the effects are empty.) *)
Theorem driver_play_oom_fails_assertion :
  outstanding_free None = None ∧
  driver_play (Some ctx_open) 7 (Some 0%nat) (Some 1%nat) None play_env_oom
  = PlayAbort [].
Proof. split; reflexivity. Qed.

(** ** Device negotiation *)

Definition opens_device (ev : event) : bool :=
  match ev with EvOpen _ _ => true | _ => false end.

Definition writes_device (ev : event) : bool :=
  match ev with EvWrite _ _ | EvWriteFail _ => true | _ => false end.

(** C3.  For a request whose source reports more than two channels,
    [open_oss] returns [CA_ERROR_NOTSUPPORTED] before it opens the device:
    [out->pcm] is not written and there is no effect.  The play call of such
    a request returns the same status, has neither opened nor written to a
    device, has started no worker and leaves the registry as it was. *)
Theorem open_oss_rejects_multichannel ctx p o f e :
  c_private ctx = Some p →
  o_file o = Some f →
  2 < sf_nchannels f →
  open_oss (Some ctx) (Some o) e = Some (CA_ERROR_NOTSUPPORTED, None, []) ∧
  ∀ id pl cb userdata pe a r w,
    is_null userdata || negb (is_null cb) = true →
    pe_new pe = Some a → pe_pipe pe = Some (r, w) →
    pe_lookup pe = CA_SUCCESS → pe_lookup_file pe = Some f →
    ∃ c' evs,
      driver_play (Some ctx) id (Some pl) cb userdata pe
      = PlayReturn CA_ERROR_NOTSUPPORTED (Some c') evs None ∧
      forallb (λ ev, negb (opens_device ev || writes_device ev)) evs = true ∧
      (∃ p', c_private c' = Some p' ∧ p_outstanding p' = p_outstanding p).
Proof.
  intros Hp Hf Hn.
  assert (Hoss : ∀ ctx' p' o', c_private ctx' = Some p' → o_file o' = Some f →
            open_oss (Some ctx') (Some o') e
            = Some (CA_ERROR_NOTSUPPORTED, None, [])).
  { intros ctx' p' o' Hp' Hf'. unfold open_oss. rewrite Hp', Hf'.
    destruct (Z.leb_spec (sf_nchannels f) 2); [lia | reflexivity]. }
  split; [now apply (Hoss ctx p o) |].
  intros id pl cb userdata pe a r w Hcb Hnew Hpipe Hlk Hlf.
  unfold driver_play. simpl. rewrite Hcb, Hp, Hnew, Hpipe, Hlk, Hlf. simpl.
  unfold open_oss. simpl.
  destruct (Z.leb_spec (sf_nchannels f) 2); [lia |]. simpl.
  eexists _, _. split; [reflexivity |].
  split.
  - unfold outstanding_free_body, close_if_open; simpl.
    repeat (ztest; simpl); reflexivity.
  - eexists. split; reflexivity.
Qed.

Definition surround_51 : ca_sound_file :=
  {| sf_handle := 2%nat; sf_nchannels := 6; sf_rate := 48000;
     sf_sample_type := CA_SAMPLE_S16NE; sf_frame_size := 12 |}.

Definition request_of (a : nat) (f : ca_sound_file) : outstanding :=
  set_file (set_pipe (new_outstanding a 7 (Some 1%nat) None) 3 4) (Some f).

(** The same request once its device is open on descriptor 5. *)
Definition request_playing (a : nat) (f : ca_sound_file) : outstanding :=
  set_pcm (request_of a f) 5.

Lemma open_oss_rejects_multichannel_witness :
  open_oss (Some ctx_open) (Some (request_of 0 surround_51))
           (oss_accepts 48000)
  = Some (CA_ERROR_NOTSUPPORTED, None, []).
Proof.
  refine (proj1 (open_oss_rejects_multichannel ctx_open priv_open
                   (request_of 0 surround_51) surround_51 (oss_accepts 48000)
                   eq_refl eq_refl _)).
  simpl. lia.
Defined.

(** The effects of a negotiation that got as far as the given requests. *)
Definition negotiated (ctx : ca_context) (fd : Z)
    (proposals : list (ioctl_req * Z)) : list event :=
  EvOpen (device_path ctx) fd
  :: map (λ rq, EvIoctl fd rq.1 rq.2) proposals.

(** The accepted rate is within 5% of the requested one. *)
Definition within_5_percent (accepted requested : Z) : Prop :=
  (Qabs (inject_Z accepted - inject_Z requested)
   <= (5 # 100) * inject_Z requested)%Q.

(** C4.  Once the device is open and in blocking mode, [open_oss] proposes
    the encoding, the channel count and the sample rate of the source, in
    this order, and reads back what the device accepted.  An accepted
    encoding or channel count that differs from the proposed one gives
    [CA_ERROR_NOTSUPPORTED]; for the rate the call succeeds when the accepted
    rate is within 5% of the requested rate and gives
    [CA_ERROR_NOTSUPPORTED] when it is not.  (Rates are those an [int]
    holds.) *)
Theorem open_oss_negotiation ctx p o f e :
  c_private ctx = Some p →
  o_file o = Some f →
  0 <= sf_nchannels f <= 2 →
  0 <= rv (oe_open e) → 0 <= rv (oe_getfl e) → 0 <= rv (oe_setfl e) →
  0 <= io_rv (oe_setfmt e) →
  let fd := rv (oe_open e) in
  let fmt := afmt_of (oe_little_endian e) (sf_sample_type f) in
  let nch := sf_nchannels f in
  let rate := sf_rate f in
  (io_val (oe_setfmt e) ≠ fmt →
   open_oss (Some ctx) (Some o) e
   = Some (CA_ERROR_NOTSUPPORTED, Some fd,
           negotiated ctx fd [(SNDCTL_DSP_SETFMT, fmt)])) ∧
  (io_val (oe_setfmt e) = fmt → 0 <= io_rv (oe_channels e) →
   (io_val (oe_channels e) ≠ nch →
    open_oss (Some ctx) (Some o) e
    = Some (CA_ERROR_NOTSUPPORTED, Some fd,
            negotiated ctx fd [(SNDCTL_DSP_SETFMT, fmt);
                               (SNDCTL_DSP_CHANNELS, nch)])) ∧
   (io_val (oe_channels e) = nch → 0 <= io_rv (oe_speed e) →
    0 <= rate < 2 ^ 31 → 0 <= io_val (oe_speed e) < 2 ^ 31 →
    (within_5_percent (io_val (oe_speed e)) rate →
     open_oss (Some ctx) (Some o) e
     = Some (CA_SUCCESS, Some fd,
             negotiated ctx fd [(SNDCTL_DSP_SETFMT, fmt);
                                (SNDCTL_DSP_CHANNELS, nch);
                                (SNDCTL_DSP_SPEED, rate)])) ∧
    (¬ within_5_percent (io_val (oe_speed e)) rate →
     open_oss (Some ctx) (Some o) e
     = Some (CA_ERROR_NOTSUPPORTED, Some fd,
             negotiated ctx fd [(SNDCTL_DSP_SETFMT, fmt);
                                (SNDCTL_DSP_CHANNELS, nch);
                                (SNDCTL_DSP_SPEED, rate)])))).
Proof.
  intros Hp Hf Hch Hopen Hget Hset Hfmt fd fmt nch rate.
  assert (Hnch : int_wrap (sf_nchannels f) = sf_nchannels f)
    by (apply int_wrap_id; lia).
  assert (Hhead : ∀ k,
    (if Z.eqb (io_val (oe_setfmt e)) fmt then k
     else Some (CA_ERROR_NOTSUPPORTED, Some fd,
                negotiated ctx fd [(SNDCTL_DSP_SETFMT, fmt)]))
    = open_oss (Some ctx) (Some o) e →
    True) by trivial.
  clear Hhead.
  unfold open_oss. rewrite Hp, Hf, Hnch. fold fd fmt nch rate.
  destruct (Z.leb_spec nch 2) as [_|]; [simpl | unfold nch in *; lia].
  destruct (Z.ltb_spec fd 0) as [|_]; [lia |].
  destruct (Z.ltb_spec (rv (oe_getfl e)) 0) as [|_]; [lia |].
  destruct (Z.ltb_spec (rv (oe_setfl e)) 0) as [|_]; [lia |].
  destruct (Z.ltb_spec (io_rv (oe_setfmt e)) 0) as [|_]; [lia |].
  split.
  { intros Hne. destruct (Z.eqb_spec (io_val (oe_setfmt e)) fmt); [lia |].
    reflexivity. }
  intros Heq Hc.
  destruct (Z.eqb_spec (io_val (oe_setfmt e)) fmt) as [_|]; [simpl | lia].
  destruct (Z.ltb_spec (io_rv (oe_channels e)) 0) as [|_]; [lia |].
  split.
  { intros Hne. destruct (Z.eqb_spec (io_val (oe_channels e)) nch); [lia |].
    reflexivity. }
  intros Heqc Hs Hrate Hacc.
  destruct (Z.eqb_spec (io_val (oe_channels e)) nch) as [_|]; [simpl | lia].
  destruct (Z.ltb_spec (io_rv (oe_speed e)) 0) as [|_]; [lia |].
  rewrite (int_wrap_id rate) by lia.
  pose proof (rate_too_far_band (io_val (oe_speed e)) rate) as Hband.
  unfold within_5_percent.
  destruct (rate_too_far (io_val (oe_speed e)) rate).
  - split; [| reflexivity].
    intros Hw. apply Hband in Hw; [discriminate | lia].
  - split; [reflexivity |].
    intros Hw. exfalso. apply Hw, Hband; [lia | reflexivity].
Qed.

(** A device that answers 46000 Hz to a request for 44100 Hz is accepted
    (the difference, 1900, is within the 2205 of the band); one that answers
    48000 Hz is not. *)
Lemma open_oss_negotiation_witness :
  open_oss (Some ctx_open) (Some (request_of 0 mono_44100))
           (oss_accepts 46000)
  = Some (CA_SUCCESS, Some 5,
          negotiated ctx_open 5 [(SNDCTL_DSP_SETFMT, 16);
                                 (SNDCTL_DSP_CHANNELS, 1);
                                 (SNDCTL_DSP_SPEED, 44100)]).
Proof.
  pose proof (open_oss_negotiation ctx_open priv_open (request_of 0 mono_44100)
                mono_44100 (oss_accepts 46000) eq_refl eq_refl) as H.
  simpl in H.
  specialize (H ltac:(lia) ltac:(lia) ltac:(lia) ltac:(lia) ltac:(lia)).
  destruct H as [_ H].
  specialize (H eq_refl ltac:(lia)). destruct H as [_ H].
  specialize (H eq_refl ltac:(lia) ltac:(lia) ltac:(lia)).
  destruct H as [H _].
  apply H. unfold within_5_percent. vm_compute. discriminate.
Defined.

Example open_oss_rate_out_of_band :
  open_oss (Some ctx_open) (Some (request_of 0 mono_44100))
           (oss_accepts 48000)
  = Some (CA_ERROR_NOTSUPPORTED, Some 5,
          negotiated ctx_open 5 [(SNDCTL_DSP_SETFMT, 16);
                                 (SNDCTL_DSP_CHANNELS, 1);
                                 (SNDCTL_DSP_SPEED, 44100)]).
Proof. reflexivity. Qed.

(** The edges of the band at 44100 Hz: 2205 away is accepted, 2206 is not. *)
Example open_oss_rate_band_edge :
  fst <$> open_oss (Some ctx_open) (Some (request_of 0 mono_44100))
                   (oss_accepts (44100 + 2205))
  = Some (CA_SUCCESS, Some 5) ∧
  fst <$> open_oss (Some ctx_open) (Some (request_of 0 mono_44100))
                   (oss_accepts (44100 - 2206))
  = Some (CA_ERROR_NOTSUPPORTED, Some 5).
Proof. split; reflexivity. Qed.

(** ** Resources held across a play call *)

(** What a call holds of the operating system and of the sample source. *)
Inductive resource : Type :=
| RFd (fd : Z)
| RSound (f : ca_sound_file).

#[global] Instance ca_sample_type_eq_dec : EqDecision ca_sample_type.
Proof. solve_decision. Defined.
#[global] Instance ca_sound_file_eq_dec : EqDecision ca_sound_file.
Proof. solve_decision. Defined.
#[global] Instance resource_eq_dec : EqDecision resource.
Proof. solve_decision. Defined.

Fixpoint release (r : resource) (held : list resource) : list resource :=
  match held with
  | [] => []
  | h :: t => if decide (h = r) then t else h :: release r t
  end.

Definition account (held : list resource) (ev : event) : list resource :=
  match ev with
  | EvPipe r w => RFd w :: RFd r :: held
  | EvSoundOpen f => RSound f :: held
  | EvOpen _ fd => RFd fd :: held
  | EvClose fd => release (RFd fd) held
  | EvSoundClose f => release (RSound f) held
  | _ => held
  end.



Lemma open_oss_error_or_success c out e ret fdo oevs :
  open_oss c out e = Some (ret, fdo, oevs) →
  is_error ret = false → ∃ fd, fdo = Some fd ∧ 0 <= fd.
Proof.
  unfold open_oss. intros H.
  repeat match type of H with
         | match ?x with _ => _ end = _ => destruct x eqn:?; simpl in H
         | (if ?b then _ else _) = _ => destruct b eqn:?; simpl in H
         end;
    try discriminate; inversion H; subst; clear H;
    rewrite ?translate_error_is_error; try discriminate; intros _;
    eexists; (split; [reflexivity | lia]).
Qed.

Lemma release_head r held : release r (r :: held) = held.
Proof. simpl. now rewrite decide_True. Qed.




(** ** Which status a failure gets *)

(** The request and the context of a play call as they are when [open_oss]
    is called. *)
Definition play_request (e : play_env) (a : nat) (id : Z)
    (cb userdata : option nat) (r w : nat) : outstanding :=
  set_file (set_pipe (new_outstanding a id cb userdata)
                     (Z.of_nat r) (Z.of_nat w))
           (pe_lookup_file e).

Definition play_context (ctx : ca_context) (p : private) (e : play_env)
  : ca_context :=
  set_private ctx (Some (set_theme p (pe_lookup_theme e))).

(** A play call on an open driver that gets through device negotiation and
    is then refused its thread: [pthread_create] answers [EAGAIN] (11). *)
Definition play_env_eagain : play_env :=
  {| pe_new := Some 0%nat; pe_pipe := Some (3%nat, 4%nat);
     pe_lookup := CA_SUCCESS; pe_lookup_file := Some mono_44100;
     pe_lookup_theme := Some 0%nat; pe_oss := oss_accepts 44100;
     pe_thread := 11 |}.

(** The request of a play call as it is after [open_oss]. *)
Definition play_request_opened (e : play_env) (a : nat) (id : Z)
    (cb userdata : option nat) (r w : nat) (fdo : option Z) : outstanding :=
  match fdo with
  | Some fd => set_pcm (play_request e a id cb userdata r w) fd
  | None => play_request e a id cb userdata r w
  end.

(** C6.  A failure of [poll] ends the worker's loop with
    [CA_ERROR_SYSTEM], and a play call whose [pipe] fails returns
    [CA_ERROR_SYSTEM], as claimed.  A failure to create the worker thread is
    not reported at all: [pthread_create] reports a failure by a positive
    error number, the code tests [pthread_create(...) < 0], and so a play
    call that has got through device negotiation returns [CA_SUCCESS] for
    every return value of [pthread_create] that is not negative; for a
    positive one no worker has been started, and the request is left in the
    registry.  (Were the return value negative, the call would return
    [CA_ERROR_OOM] and take the request off the registry again.) *)
Theorem thread_failure_taken_for_success :
  (∀ out ds nbytes d e rest,
     poll_rv (ie_poll e) < 0 →
     loop_body out ds nbytes d e = Finish CA_ERROR_SYSTEM [] ∧
     thread_loop out ds nbytes d ((false, e) :: rest)
     = LoopExit CA_ERROR_SYSTEM []) ∧
  (∀ ctx p id pl cb userdata e a,
     c_private ctx = Some p →
     is_null userdata || negb (is_null cb) = true →
     pe_new e = Some a → pe_pipe e = None →
     driver_play (Some ctx) id (Some pl) cb userdata e
     = PlayReturn CA_ERROR_SYSTEM (Some ctx) [EvFree a] None) ∧
  (∀ ctx p id pl cb userdata e a r w fdo oevs,
     c_private ctx = Some p →
     is_null userdata || negb (is_null cb) = true →
     pe_new e = Some a → pe_pipe e = Some (r, w) →
     is_error (pe_lookup e) = false →
     open_oss (Some (play_context ctx p e))
              (Some (play_request e a id cb userdata r w)) (pe_oss e)
     = Some (CA_SUCCESS, fdo, oevs) →
     (0 < pe_thread e →
      ∃ c' p' evs,
        driver_play (Some ctx) id (Some pl) cb userdata e
        = PlayReturn CA_SUCCESS (Some c') evs None ∧
        c_private c' = Some p' ∧
        p_outstanding p'
        = play_request_opened e a id cb userdata r w fdo :: p_outstanding p) ∧
     (pe_thread e = 0 →
      ∃ c' evs,
        driver_play (Some ctx) id (Some pl) cb userdata e
        = PlayReturn CA_SUCCESS (Some c') evs (Some a)) ∧
     (pe_thread e < 0 →
      ∃ c' p' evs,
        driver_play (Some ctx) id (Some pl) cb userdata e
        = PlayReturn CA_ERROR_OOM (Some c') evs None ∧
        c_private c' = Some p' ∧
        p_outstanding p'
        = llist_remove a
            (play_request_opened e a id cb userdata r w fdo
             :: p_outstanding p))).
Proof.
  split; [| split].
  - intros out ds nbytes d e rest Hpoll.
    assert (Hb : loop_body out ds nbytes d e = Finish CA_ERROR_SYSTEM []).
    { unfold loop_body. destruct (Z.ltb_spec (poll_rv (ie_poll e)) 0);
        [reflexivity | lia]. }
    split; [exact Hb |]. simpl. now rewrite Hb.
  - intros ctx p id pl cb userdata e a Hp Hcb Hnew Hpipe.
    unfold driver_play. simpl. rewrite Hcb, Hp, Hnew, Hpipe. reflexivity.
  - intros ctx p id pl cb userdata e a r w fdo oevs
           Hp Hcb Hnew Hpipe Hlk Hoss.
    unfold driver_play. cbv zeta. cbn [is_null].
    rewrite Hcb, Hp, Hnew, Hpipe. cbn [negb].
    rewrite Hlk.
    unfold play_context, play_request in Hoss. rewrite Hoss.
    cbn [is_error].
    split; [| split]; intros Hth.
    + destruct (Z.ltb_spec (pe_thread e) 0); [lia |].
      destruct (Z.eqb_spec (pe_thread e) 0); [lia |].
      eexists _, _, _. split; [reflexivity |]. split; reflexivity.
    + destruct (Z.ltb_spec (pe_thread e) 0); [lia |].
      destruct (Z.eqb_spec (pe_thread e) 0); [| lia].
      eexists _, _. reflexivity.
    + destruct (Z.ltb_spec (pe_thread e) 0); [| lia].
      eexists _, _, _. split; [reflexivity |]. split; reflexivity.
Qed.

Definition poll_fails : iter_env :=
  {| ie_poll := {| poll_rv := -1; revents0 := 0; revents1 := 0 |};
     ie_read := {| rd_ret := CA_SUCCESS; rd_nbytes := 0 |};
     ie_write := {| wr_rv := 0; wr_errno := EOTHER 0 |} |}.

Definition play_env_no_pipe : play_env :=
  {| pe_new := Some 0%nat; pe_pipe := None;
     pe_lookup := CA_SUCCESS; pe_lookup_file := Some mono_44100;
     pe_lookup_theme := Some 0%nat; pe_oss := oss_accepts 44100;
     pe_thread := 0 |}.

Lemma thread_failure_taken_for_success_witness :
  thread_loop (request_of 0 mono_44100) 4096 0 0 [(false, poll_fails)]
  = LoopExit CA_ERROR_SYSTEM [] ∧
  driver_play (Some ctx_open) 7 (Some 0%nat) (Some 1%nat) None
              play_env_no_pipe
  = PlayReturn CA_ERROR_SYSTEM (Some ctx_open) [EvFree 0%nat] None ∧
  ∃ c' p' evs o,
    driver_play (Some ctx_open) 7 (Some 0%nat) (Some 1%nat) None
                play_env_eagain
    = PlayReturn CA_SUCCESS (Some c') evs None ∧
    c_private c' = Some p' ∧ p_outstanding p' = [o].
Proof.
  destruct thread_failure_taken_for_success as (Hpoll & Hpipe & Hthread).
  split; [| split].
  - apply (Hpoll (request_of 0 mono_44100) 4096 0 0 poll_fails []).
    simpl. lia.
  - apply (Hpipe ctx_open priv_open 7 0%nat (Some 1%nat) None
                 play_env_no_pipe 0%nat); reflexivity.
  - edestruct (Hthread ctx_open priv_open 7 0%nat (Some 1%nat) None
                       play_env_eagain 0%nat 3%nat 4%nat)
      as [Hpos _]; try reflexivity.
    destruct Hpos as (c' & p' & evs & Hplay & Hp' & Hreg);
      [simpl; lia |].
    exists c', p', evs. eexists. split; [exact Hplay |].
    split; [exact Hp' | exact Hreg].
Defined.

(** ** What the marking loops compute *)

(** The two loops, in the words of their description: every request that is
    selected is marked dead and has the write end of its pipe closed; the
    effects are, for every selected request in list order, its callback with
    the given status (if it has one) and the close of the pipe end. *)
Definition marked (sel : outstanding → bool) (l : list outstanding)
  : list outstanding :=
  (λ o, if sel o then set_dead_closed o else o) <$> l.

Definition mark_effects (sel : outstanding → bool) (site : call_site)
    (status : ca_status) (l : list outstanding) : list event :=
  l ≫= (λ o, if sel o
             then call_back site status o ++ close_if_open (o_pipe_fd1 o)
             else []).

(** A request that is not dead and carries the given id. *)
Definition live_match (id : Z) (o : outstanding) : bool :=
  (o_id o =? id) && negb (o_dead o).

Definition live (o : outstanding) : bool := negb (o_dead o).

Lemma cancel_loop_spec id l :
  cancel_loop id l
  = (marked (live_match id) l,
     mark_effects (live_match id) ByCancel CA_ERROR_CANCELED l).
Proof.
  unfold marked, mark_effects.
  induction l as [|o l IH]; [reflexivity |].
  simpl. rewrite IH. unfold live_match, terminate.
  destruct (o_id o =? id), (o_dead o); reflexivity.
Qed.

Lemma destroy_loop_spec l :
  destroy_loop l
  = (marked live l, mark_effects live ByDestroy CA_ERROR_DESTROYED l).
Proof.
  unfold marked, mark_effects.
  induction l as [|o l IH]; [reflexivity |].
  simpl. rewrite IH. unfold live, terminate.
  destruct (o_dead o); reflexivity.
Qed.

Lemma marked_none sel l :
  Forall (λ o, sel o = false) l → marked sel l = l.
Proof.
  unfold marked. induction 1 as [|o l Ho _ IH]; [reflexivity |].
  simpl. rewrite Ho. f_equal. exact IH.
Qed.

Lemma mark_effects_none sel site st l :
  Forall (λ o, sel o = false) l → mark_effects sel site st l = [].
Proof.
  unfold mark_effects. induction 1 as [|o l Ho _ IH]; [reflexivity |].
  rewrite bind_cons, Ho, IH. reflexivity.
Qed.




(** ** driver_cancel *)


(** A registry of three requests: two carry the id 9, of which the second is
    dead already; the third carries the id 7. *)
Definition request_9 : outstanding :=
  {| o_addr := 2%nat; o_dead := false; o_id := 9; o_callback := Some 1%nat;
     o_userdata := Some 8%nat; o_file := Some mono_44100; o_pcm := 5;
     o_pipe_fd0 := 3; o_pipe_fd1 := 4 |}.

Definition request_9_dead : outstanding :=
  {| o_addr := 1%nat; o_dead := true; o_id := 9; o_callback := Some 1%nat;
     o_userdata := None; o_file := Some mono_44100; o_pcm := 8;
     o_pipe_fd0 := 6; o_pipe_fd1 := -1 |}.

Definition request_7 : outstanding :=
  {| o_addr := 0%nat; o_dead := false; o_id := 7; o_callback := Some 1%nat;
     o_userdata := None; o_file := Some mono_44100; o_pcm := 11;
     o_pipe_fd0 := 9; o_pipe_fd1 := 10 |}.

Definition priv_three : private :=
  set_outstanding priv_open [request_9; request_9_dead; request_7].

Definition ctx_three : ca_context := set_private ctx_open (Some priv_three).


(** Cancelling an id that no live request carries changes nothing. *)
Example driver_cancel_no_match :
  driver_cancel (Some ctx_three) 5 = (CA_SUCCESS, Some ctx_three, []).
Proof. reflexivity. Qed.

(** ** The streaming loop *)




(** The request is left alone: every test of [out->dead] reads false and
    [poll] never reports the pipe. *)
Definition undisturbed (sched : list (bool * iter_env)) : Prop :=
  Forall (λ t, t.1 = false ∧ revents0 (ie_poll t.2) = 0) sched.


Lemma data_size_frames fs :
  0 < fs →
  data_size fs = BUFSIZE / fs * fs ∧
  data_size fs mod fs = 0 ∧
  data_size fs <= BUFSIZE < data_size fs + fs.
Proof.
  intros Hfs. unfold data_size, BUFSIZE.
  pose proof (Z.div_mod (4 * 1024) fs ltac:(lia)) as Hdm.
  pose proof (Z.mod_pos_bound (4 * 1024) fs Hfs) as Hm.
  assert (Hq : 0 <= 4 * 1024 / fs) by (apply Z.div_pos; lia).
  assert (Hle : 4 * 1024 / fs * fs <= 4 * 1024) by lia.
  rewrite size_wrap_id by (split; [nia | lia]).
  split; [reflexivity |]. split; [apply Z.mod_mul; lia | lia].
Qed.






(** A run on a source of 6000 bytes in frames of 2 bytes: the device takes
    1000 of the first 4096 bytes, then the rest, then the last 1904; the
    fourth read returns no byte. *)
Definition turn (got written : Z) : bool * iter_env :=
  (false,
   {| ie_poll := {| poll_rv := 1; revents0 := 0; revents1 := POLLOUT |};
      ie_read := {| rd_ret := CA_SUCCESS; rd_nbytes := got |};
      ie_write := {| wr_rv := written; wr_errno := EOTHER 0 |} |}).

Definition run_6000 : list (bool * iter_env) :=
  [turn 4096 1000; turn 0 3096; turn 1904 1904; turn 0 0].

Example thread_loop_run_6000 :
  thread_loop (request_playing 0 mono_44100) (data_size 2) 0 0 run_6000
  = LoopExit CA_SUCCESS
      [EvRead (Some mono_44100) 4096 4096; EvWrite 5 1000;
       EvWrite 5 3096;
       EvRead (Some mono_44100) 4096 1904; EvWrite 5 1904;
       EvRead (Some mono_44100) 4096 0].
Proof. reflexivity. Qed.


(** A read that fails ends the loop with the status of the read. *)
Example thread_loop_read_fails :
  thread_loop (request_playing 0 mono_44100) (data_size 2) 0 0
    [turn 4096 4096;
     (false,
      {| ie_poll := {| poll_rv := 1; revents0 := 0; revents1 := POLLOUT |};
         ie_read := {| rd_ret := CA_ERROR_IO; rd_nbytes := 0 |};
         ie_write := {| wr_rv := 0; wr_errno := EOTHER 0 |} |})]
  = LoopExit CA_ERROR_IO
      [EvRead (Some mono_44100) 4096 4096; EvWrite 5 4096;
       EvReadFail (Some mono_44100) CA_ERROR_IO].
Proof. reflexivity. Qed.

(** * Properties of the running system *)

(** ** Counting callbacks *)

(** A callback made for the request named [a] from one of the given
    call sites. *)
Definition callback_from (sites : call_site → bool) (a : nat) (ev : event)
  : bool :=
  match ev with
  | EvCallback site req _ _ _ _ => sites site && (req =? a)%nat
  | _ => false
  end.

Fixpoint count_callbacks (sites : call_site → bool) (a : nat)
    (evs : list event) : nat :=
  match evs with
  | [] => 0%nat
  | ev :: evs =>
      ((if callback_from sites a ev then 1 else 0)
       + count_callbacks sites a evs)%nat
  end.

Definition from_worker (site : call_site) : bool :=
  match site with ByWorker => true | _ => false end.

Definition from_outside (site : call_site) : bool :=
  match site with ByWorker => false | _ => true end.

(** The callbacks a request has received: all of them, those of its own
    worker, those of [driver_cancel] and [driver_destroy]. *)
Definition callbacks : nat → list event → nat :=
  count_callbacks (λ _, true).
Definition worker_callbacks : nat → list event → nat :=
  count_callbacks from_worker.
Definition outside_callbacks : nat → list event → nat :=
  count_callbacks from_outside.

Definition is_callback (ev : event) : bool :=
  match ev with EvCallback _ _ _ _ _ _ => true | _ => false end.

Definition has_callback (o : outstanding) : bool :=
  negb (is_null (o_callback o)).

Lemma count_callbacks_app sites a evs evs' :
  count_callbacks sites a (evs ++ evs')
  = (count_callbacks sites a evs + count_callbacks sites a evs')%nat.
Proof. induction evs as [|ev evs IH]; simpl; [reflexivity | lia]. Qed.

Lemma count_callbacks_none sites a evs :
  Forall (λ ev, is_callback ev = false) evs →
  count_callbacks sites a evs = 0%nat.
Proof.
  induction 1 as [|ev evs Hev _ IH]; [reflexivity |].
  simpl. rewrite IH. destruct ev; try reflexivity. discriminate.
Qed.

Lemma callbacks_split a evs :
  callbacks a evs = (worker_callbacks a evs + outside_callbacks a evs)%nat.
Proof.
  unfold callbacks, worker_callbacks, outside_callbacks.
  induction evs as [|ev evs IH]; [reflexivity |].
  simpl. rewrite IH. destruct ev; simpl; try lia.
  destruct site; simpl; destruct (req =? a)%nat; lia.
Qed.

Lemma close_if_open_no_callback fd :
  Forall (λ ev, is_callback ev = false) (close_if_open fd).
Proof. unfold close_if_open. destruct (0 <=? fd); repeat constructor. Qed.

Lemma outstanding_free_body_no_callback o :
  Forall (λ ev, is_callback ev = false) (outstanding_free_body o).
Proof.
  unfold outstanding_free_body, close_file.
  repeat (apply Forall_app; split);
    try apply close_if_open_no_callback.
  - destruct (o_file o); repeat constructor.
  - repeat constructor.
Qed.

Lemma open_oss_no_callback c out e ret fdo oevs :
  open_oss c out e = Some (ret, fdo, oevs) →
  Forall (λ ev, is_callback ev = false) oevs.
Proof.
  unfold open_oss. intros H.
  repeat match type of H with
         | match ?x with _ => _ end = _ => destruct x eqn:?; simpl in H
         | (if ?b then _ else _) = _ => destruct b eqn:?; simpl in H
         end;
    try discriminate; inversion H; subst; clear H; repeat constructor.
Qed.

Lemma loop_body_no_callback out ds nbytes d e :
  Forall (λ ev, is_callback ev = false)
         (after_body (loop_body out ds nbytes d e) ds).2.
Proof.
  unfold loop_body.
  repeat match goal with
         | |- context [if ?b then _ else _] => destruct b; simpl
         end;
    repeat constructor.
Qed.

Ltac no_callback :=
  repeat first
    [ assumption
    | apply outstanding_free_body_no_callback
    | apply close_if_open_no_callback
    | apply Forall_app; split
    | constructor; [reflexivity |]
    | constructor ].

(** ** What one call does to the driver state *)

Definition same_flags (p p' : private) : Prop :=
  p_outstanding_mutex p' = p_outstanding_mutex p ∧
  p_signal_semaphore p' = p_signal_semaphore p ∧
  p_semaphore p' = p_semaphore p ∧
  p_semaphore_allocated p' = p_semaphore_allocated p.

Lemma llist_remove_fresh a l :
  (∀ o, o ∈ l → o_addr o ≠ a) → llist_remove a l = l.
Proof.
  unfold llist_remove. induction l as [|o l IH]; intros Hfresh;
    [reflexivity |].
  rewrite filter_cons_True by (apply Hfresh; left).
  f_equal. apply IH. intros o' Ho'. apply Hfresh. now right.
Qed.

Lemma llist_remove_head o l :
  llist_remove (o_addr o) (o :: l) = llist_remove (o_addr o) l.
Proof. unfold llist_remove. now rewrite filter_cons_False by auto. Qed.

Lemma driver_play_closed ctx id pl cb userdata e ret c' evs thread :
  c_private ctx = None →
  driver_play (Some ctx) id pl cb userdata e
  = PlayReturn ret (Some c') evs thread →
  c' = ctx ∧ evs = [] ∧ thread = None.
Proof.
  intros Hp. unfold driver_play. rewrite Hp.
  destruct (is_null pl); [intros H; inversion H; done |].
  destruct (negb _); intros H; inversion H; done.
Qed.

(** A play call on an open driver keeps the driver state but for the theme
    and, when it returns [CA_SUCCESS], one new request at the head of the
    list: not dead, its pipe open, at the address the allocator gave. *)
Lemma driver_play_open ctx p id pl cb userdata e ret c' evs thread :
  c_private ctx = Some p →
  (∀ a o, pe_new e = Some a → o ∈ p_outstanding p → o_addr o ≠ a) →
  driver_play (Some ctx) id pl cb userdata e
  = PlayReturn ret (Some c') evs thread →
  Forall (λ ev, is_callback ev = false) evs ∧
  ∃ p', c_private c' = Some p' ∧ same_flags p p' ∧
    ((p_outstanding p' = p_outstanding p ∧ thread = None ∧
      ret ≠ CA_SUCCESS) ∨
     (∃ o, p_outstanding p' = o :: p_outstanding p ∧
           pe_new e = Some (o_addr o) ∧ o_dead o = false ∧
           0 <= o_pipe_fd1 o ∧ o_callback o = cb ∧ o_id o = id ∧
           is_null (o_file o) = false ∧
           ret = CA_SUCCESS ∧
           (thread = None ∨ thread = Some (o_addr o)))).
Proof.
  intros Hp Hfresh. unfold driver_play, play_finish. cbv zeta.
  destruct (is_null pl).
  { intros H; inversion H; subst. split; [constructor |].
    exists p. repeat split; try done. left. done. }
  destruct (negb _).
  { intros H; inversion H; subst. split; [constructor |].
    exists p. repeat split; try done. left. done. }
  rewrite Hp.
  destruct (pe_new e) as [a|] eqn:Hnew; [| simpl; discriminate].
  destruct (pe_pipe e) as [[r w]|].
  2:{ simpl. intros H; inversion H; subst.
      split; [apply outstanding_free_body_no_callback |].
      exists p. repeat split; try done. left. done. }
  remember ([EvPipe (Z.of_nat r) (Z.of_nat w)] ++
            match pe_lookup_file e with
            | Some f => [EvSoundOpen f] | None => [] end) as pre eqn:Epre.
  assert (Hpre : Forall (λ ev, is_callback ev = false) pre).
  { subst pre. destruct (pe_lookup_file e); repeat constructor. }
  remember (set_file (set_pipe (new_outstanding a id cb userdata)
                               (Z.of_nat r) (Z.of_nat w))
                     (pe_lookup_file e)) as o eqn:Eo.
  destruct (is_error (pe_lookup e)) eqn:Hlk.
  { unfold outstanding_free. intros H; inversion H; subst ret c' evs thread.
    split.
    - no_callback.
    - eexists. split; [reflexivity |].
      split; [repeat split |]. left. repeat split.
      intros Heq. rewrite Heq in Hlk. discriminate. }
  destruct (open_oss _ _ (pe_oss e)) as [[[oret fdo] oevs]|] eqn:Hoss;
    [| discriminate].
  pose proof (open_oss_no_callback _ _ _ _ _ _ Hoss) as Hoevs.
  destruct (is_error oret) eqn:Horet.
  { unfold outstanding_free. intros H; inversion H; subst ret c' evs thread.
    split.
    - no_callback.
    - eexists. split; [reflexivity |].
      split; [repeat split |]. left. repeat split.
      intros Heq. rewrite Heq in Horet. discriminate. }
  destruct (open_oss_error_or_success _ _ _ _ _ _ Hoss Horet)
    as (fd & -> & Hfd).
  assert (Hofile : is_null (o_file (set_pcm o fd)) = false).
  { revert Hoss. unfold open_oss. simpl.
    destruct (o_file o) eqn:Hf; [reflexivity | discriminate]. }
  assert (Hoflds : o_addr (set_pcm o fd) = a ∧ o_dead (set_pcm o fd) = false ∧
                   0 <= o_pipe_fd1 (set_pcm o fd) ∧
                   o_callback (set_pcm o fd) = cb ∧
                   o_id (set_pcm o fd) = id).
  { subst o. simpl. repeat split. lia. }
  destruct Hoflds as (Ha & Hd & Hfd1 & Hcb & Hid).
  destruct (pe_thread e <? 0).
  { unfold outstanding_free. simpl is_error. cbv iota.
    intros H; inversion H; subst ret c' evs thread.
    split.
    - no_callback.
    - eexists. split; [reflexivity |].
      split; [repeat split |]. left. repeat split; try done.
      simpl. rewrite <- Ha at 1. rewrite llist_remove_head, Ha.
      apply llist_remove_fresh. intros o' Ho'. now apply Hfresh. }
  destruct (pe_thread e =? 0); simpl is_error; cbv iota;
    intros H; inversion H; subst ret c' evs thread.
  - split.
    + no_callback.
    + eexists. split; [reflexivity |].
      split; [repeat split |]. right.
      exists (set_pcm o fd). rewrite Ha. repeat split; try done.
      now right.
  - split.
    + no_callback.
    + eexists. split; [reflexivity |].
      split; [repeat split |]. right.
      exists (set_pcm o fd). rewrite Ha. repeat split; try done.
      now left.
Qed.

Lemma marked_addr sel l : o_addr <$> marked sel l = o_addr <$> l.
Proof.
  unfold marked. rewrite <- list_fmap_compose.
  apply list_fmap_ext. intros _ o _. simpl. now destruct (sel o).
Qed.

Lemma marked_nil sel l : marked sel l = [] ↔ l = [].
Proof.
  unfold marked. split; [apply fmap_nil_inv | intros ->; reflexivity].
Qed.

Lemma elem_of_marked sel l o' :
  o' ∈ marked sel l ↔
  ∃ o, o ∈ l ∧ o' = if sel o then set_dead_closed o else o.
Proof.
  unfold marked. rewrite list_elem_of_fmap. split.
  - intros (o & -> & Hin). now exists o.
  - intros (o & Hin & ->). now exists o.
Qed.

Lemma driver_cancel_open ctx p id :
  c_private ctx = Some p →
  driver_cancel (Some ctx) id
  = (CA_SUCCESS,
     Some (set_private ctx
             (Some (set_outstanding p
                      (marked (live_match id) (p_outstanding p))))),
     mark_effects (live_match id) ByCancel CA_ERROR_CANCELED
                  (p_outstanding p)).
Proof.
  intros Hp. unfold driver_cancel. rewrite Hp, cancel_loop_spec. reflexivity.
Qed.

Lemma driver_cancel_closed ctx id :
  c_private ctx = None →
  driver_cancel (Some ctx) id = (CA_ERROR_STATE, Some ctx, []).
Proof. intros Hp. unfold driver_cancel. now rewrite Hp. Qed.

Lemma driver_destroy_open ctx p :
  c_private ctx = Some p →
  p_outstanding_mutex p = true →
  p_semaphore_allocated p = true →
  driver_destroy (Some ctx)
  = destroy_wait_loop ctx
      (set_signal_semaphore
         (set_outstanding p (marked live (p_outstanding p))) true)
      (mark_effects live ByDestroy CA_ERROR_DESTROYED (p_outstanding p)).
Proof.
  intros Hp Hm Ha. unfold driver_destroy.
  rewrite Hp, Hm, destroy_loop_spec. simpl. rewrite Ha. reflexivity.
Qed.

Lemma registry_open s p :
  c_private (sys_ctx s) = Some p → registry s = p_outstanding p.
Proof. unfold registry. now intros ->. Qed.

(** ** The driver state of a reachable system *)

(** The mutex and the semaphore exist as long as the driver does; while the
    destroying caller waits, [signal_semaphore] is set; when it is blocked
    in [sem_wait] and the registry is empty, the semaphore has been posted;
    the driver state is gone exactly when [driver_destroy] has returned; the
    requests of the registry carry names handed out so far. *)
Record basic_inv (s : system) : Prop := {
  bi_flags : ∀ p, c_private (sys_ctx s) = Some p →
               p_outstanding_mutex p = true ∧
               p_semaphore_allocated p = true;
  bi_signal : sys_destroy s = DWait ∨ sys_destroy s = DWoken →
              ∃ p, c_private (sys_ctx s) = Some p ∧
                   p_signal_semaphore p = true;
  bi_wakeup : sys_destroy s = DWait → registry s = [] →
              ∃ p, c_private (sys_ctx s) = Some p ∧
                   (0 < p_semaphore p)%nat;
  bi_done : c_private (sys_ctx s) = None ↔ sys_destroy s = DDone;
  bi_fresh : ∀ o, o ∈ registry s → (o_addr o < sys_next s)%nat
}.

Lemma basic_inv_init c0 e c :
  driver_open (Some c0) e = (CA_SUCCESS, Some c) →
  basic_inv (init_system c).
Proof.
  unfold driver_open. intros H.
  repeat match type of H with
         | (if ?b then _ else _) = _ => destruct b; try discriminate
         end.
  inversion H; subst; clear H.
  constructor; unfold registry; simpl.
  - intros p Hp. inversion Hp; subst. split; reflexivity.
  - intros [|]; discriminate.
  - discriminate.
  - split; discriminate.
  - intros o Ho. now apply elem_of_nil in Ho.
Qed.

Lemma thread_unregister_flags p o :
  let p' := (thread_unregister p o).1 in
  p_outstanding_mutex p' = p_outstanding_mutex p ∧
  p_semaphore_allocated p' = p_semaphore_allocated p ∧
  p_signal_semaphore p' = p_signal_semaphore p ∧
  p_outstanding p' = llist_remove (o_addr o) (p_outstanding p) ∧
  p_semaphore p'
  = (if bool_decide (llist_remove (o_addr o) (p_outstanding p) = [])
        && p_signal_semaphore p
     then S (p_semaphore p) else p_semaphore p).
Proof.
  unfold thread_unregister.
  destruct (llist_remove (o_addr o) (p_outstanding p)) eqn:Hl; simpl.
  - destruct (p_signal_semaphore p) eqn:Hs; simpl; rewrite ?Hl, ?Hs;
      repeat split.
  - repeat split.
Qed.

Lemma elem_of_llist_remove a l o :
  o ∈ llist_remove a l ↔ o_addr o ≠ a ∧ o ∈ l.
Proof. unfold llist_remove. now rewrite list_elem_of_filter. Qed.

Lemma set_private_none ctx : c_private ctx = None → set_private ctx None = ctx.
Proof. destruct ctx; simpl; intros ->; reflexivity. Qed.

(** [driver_open] opens a closed context, or leaves the context as it
    is. *)
Lemma driver_open_cases ctx e ret c' :
  driver_open (Some ctx) e = (ret, Some c') →
  (ret = CA_SUCCESS ∧ c_private ctx = None ∧
   c' = set_private ctx (Some priv_open)) ∨
  (is_error ret = true ∧ c' = ctx).
Proof.
  unfold driver_open.
  destruct (negb _); [intros H; inversion H; now right |].
  destruct (c_private ctx) as [p|] eqn:Hp; simpl;
    [intros H; inversion H; now right |].
  destruct (op_new e); simpl; [| intros H; inversion H; now right].
  destruct (op_mutex e); simpl.
  2:{ intros H. inversion H; subst. right. split; [reflexivity |].
      change (set_private ctx None = ctx). now apply set_private_none. }
  destruct (op_sem_init e <? 0).
  - intros H. inversion H; subst. right. split; [reflexivity |].
    change (set_private ctx None = ctx). now apply set_private_none.
  - intros H. inversion H; subst. left. repeat split.
Qed.

(** The cases of a step, in the order of the definition. *)
Ltac step_cases Hstep :=
  destruct Hstep as
    [ s e ret c' Hdo
    | s id pl cb ud e ret c' evs th Hok Hplay
    | s id ret c' evs Hcancel
    | s ret c' evs Hidle Hopen Hdestroy
    | s c' evs Hidle Hdestroy
    | s ret c' evs Hclosed Hdestroy
    | s p n Hwait Hp Hsem
    | s p ret c' evs Hwoken Hp Hloop
    | s p c' evs Hwoken Hp Hloop
    | s a o f mok Hth Ho Ha Hf
    | s a o ds nb d Hth Ho Ha
    | s a o ds nb d e Hth Ho Ha Hpoll
    | s a o ds nb d e Hth Ho Ha
    | s a o ret Hth Ho Ha
    | s a o ret Hth Ho Ha
    | s a o p Hth Hp Ho Ha ].

(** A call on a closed context that leaves it as it is. *)
Lemma basic_inv_closed s d evs :
  basic_inv s → c_private (sys_ctx s) = None → d = sys_destroy s →
  basic_inv (with_destroy s (sys_ctx s) d evs).
Proof.
  intros [Hflags Hsig Hwake Hdone Hfresh] Hp ->.
  constructor; simpl; assumption.
Qed.

Lemma basic_inv_step s l s' : basic_inv s → step s l s' → basic_inv s'.
Proof.
  intros Hinv Hstep. pose proof Hinv as [Hflags Hsig Hwake Hdone Hfresh].
  step_cases Hstep.
  - (* driver_open *)
    destruct (driver_open_cases _ _ _ _ Hdo) as [(-> & Hp & ->) | (-> & ->)].
    + constructor; unfold registry; simpl.
      * intros q Hq. inversion Hq; subst q. split; reflexivity.
      * intros [|]; discriminate.
      * discriminate.
      * split; discriminate.
      * intros o Ho. now apply elem_of_nil in Ho.
    + constructor; unfold registry; simpl; assumption.
  - (* driver_play *)
    destruct (c_private (sys_ctx s)) as [p|] eqn:Hp.
    + assert (Hfr : ∀ a o, pe_new e = Some a → o ∈ p_outstanding p →
                             o_addr o ≠ a).
      { intros a o Hnew Ho Heq. destruct Hok as [Hok | Hok]; [congruence |].
        rewrite Hok in Hnew. inversion Hnew; subst a.
        specialize (Hfresh o). rewrite (registry_open _ _ Hp) in Hfresh.
        specialize (Hfresh Ho). lia. }
      destruct (driver_play_open _ _ _ _ _ _ _ _ _ _ _ Hp Hfr Hplay)
        as (_ & p' & Hp' & (Hm & Hs & Hn & Hal) & Hreg).
      destruct (Hflags p eq_refl) as [Hfm Hfa].
      constructor; unfold registry; simpl; rewrite ?Hp'.
      * intros q Hq. inversion Hq; subst q. split; congruence.
      * intros Hd. destruct (Hsig Hd) as (q & Hq & Hqs).
        exists p'. split; [reflexivity | congruence].
      * intros Hd Hempty.
        destruct Hreg as [(Hreg & _) | (o & Hreg & _)];
          [| rewrite Hreg in Hempty; discriminate].
        destruct (Hwake Hd) as (q & Hq & Hqs).
        { rewrite (registry_open _ _ Hp). congruence. }
        exists p'. split; [reflexivity |]. congruence.
      * rewrite <- Hdone. split; discriminate || congruence.
      * intros o Ho.
        assert (Hold : ∀ o, o ∈ p_outstanding p → (o_addr o < sys_next s)%nat).
        { intros o' Ho'. apply Hfresh. now rewrite (registry_open _ _ Hp). }
        destruct Hreg as [(Hreg & _) | (o1 & Hreg & Hnew & _)];
          rewrite Hreg in Ho.
        -- specialize (Hold o Ho). lia.
        -- apply elem_of_cons in Ho as [-> | Ho];
             [| specialize (Hold o Ho); lia].
           destruct Hok as [Hok | Hok]; [congruence |].
           rewrite Hok in Hnew. inversion Hnew. lia.
    + destruct (driver_play_closed _ _ _ _ _ _ _ _ _ _ Hp Hplay)
        as (-> & -> & ->).
      assert (Hdd : sys_destroy s = DDone) by (now apply Hdone).
      constructor; unfold registry; simpl; rewrite ?Hp.
      * intros q Hq. discriminate.
      * intros [Hd | Hd]; congruence.
      * intros Hd. congruence.
      * split; auto.
      * intros o Ho. now apply elem_of_nil in Ho.
  - (* driver_cancel *)
    destruct (c_private (sys_ctx s)) as [p|] eqn:Hp.
    + rewrite (driver_cancel_open _ _ _ Hp) in Hcancel.
      inversion Hcancel; subst ret c' evs; clear Hcancel.
      destruct (Hflags p eq_refl) as [Hfm Hfa].
      constructor; unfold registry; simpl.
      * intros q Hq. inversion Hq; subst q. split; assumption.
      * intros Hd. destruct (Hsig Hd) as (q & Hq & Hqs).
        eexists. split; [reflexivity |]. simpl. congruence.
      * intros Hd Hempty. apply marked_nil in Hempty.
        destruct (Hwake Hd) as (q & Hq & Hqs).
        { now rewrite (registry_open _ _ Hp). }
        eexists. split; [reflexivity |]. simpl. congruence.
      * rewrite <- Hdone. split; discriminate || congruence.
      * intros o' Ho'. apply elem_of_marked in Ho' as (o & Ho & ->).
        assert (o_addr (if live_match id o then set_dead_closed o else o)
                = o_addr o) as -> by now destruct (live_match id o).
        apply Hfresh. now rewrite (registry_open _ _ Hp).
    + rewrite (driver_cancel_closed _ _ Hp) in Hcancel.
      inversion Hcancel; subst ret c' evs; clear Hcancel.
      assert (Hdd : sys_destroy s = DDone) by (now apply Hdone).
      constructor; unfold registry; simpl; rewrite ?Hp.
      * intros q Hq. discriminate.
      * intros [Hd | Hd]; congruence.
      * intros Hd. congruence.
      * split; auto.
      * intros o Ho. now apply elem_of_nil in Ho.
  - (* driver_destroy returns at once *)
    destruct (c_private (sys_ctx s)) as [p|] eqn:Hp; [| discriminate].
    destruct (Hflags p eq_refl) as [Hfm Hfa].
    rewrite (driver_destroy_open _ _ Hp Hfm Hfa) in Hdestroy.
    unfold destroy_wait_loop in Hdestroy. simpl in Hdestroy.
    destruct (marked live (p_outstanding p)) eqn:Hl; [| discriminate].
    inversion Hdestroy; subst ret c' evs; clear Hdestroy.
    constructor; unfold registry; simpl; try done.
    + intros [|]; discriminate.
    + intros o Ho. now apply elem_of_nil in Ho.
  - (* driver_destroy has to wait *)
    destruct (c_private (sys_ctx s)) as [p|] eqn:Hp;
      [| unfold driver_destroy in Hdestroy; rewrite Hp in Hdestroy;
         discriminate].
    destruct (Hflags p eq_refl) as [Hfm Hfa].
    rewrite (driver_destroy_open _ _ Hp Hfm Hfa) in Hdestroy.
    unfold destroy_wait_loop in Hdestroy. simpl in Hdestroy.
    destruct (marked live (p_outstanding p)) as [|o1 l1] eqn:Hl;
      [discriminate |].
    inversion Hdestroy; subst c' evs; clear Hdestroy.
    constructor; unfold registry; simpl.
    + intros q Hq. inversion Hq; subst q. split; assumption.
    + intros _. eexists. split; reflexivity.
    + intros _ Hempty. discriminate.
    + split; discriminate.
    + intros o' Ho'. rewrite <- Hl in Ho'.
      apply elem_of_marked in Ho' as (o & Ho & ->).
      assert (o_addr (if live o then set_dead_closed o else o) = o_addr o)
        as -> by now destruct (live o).
      apply Hfresh. now rewrite (registry_open _ _ Hp).
  - (* driver_destroy on a closed context *)
    assert (Hp : c_private (sys_ctx s) = None) by now apply Hdone.
    unfold driver_destroy in Hdestroy. rewrite Hp in Hdestroy.
    inversion Hdestroy; subst ret c' evs.
    now apply basic_inv_closed.
  - (* sem_wait returns *)
    destruct (Hflags p Hp) as [Hfm Hfa].
    destruct (Hsig (or_introl Hwait)) as (q & Hq & Hqs).
    rewrite Hp in Hq. inversion Hq; subst q.
    constructor; unfold registry; simpl.
    + intros q Hq'. inversion Hq'; subst q. split; assumption.
    + intros _. eexists. split; [reflexivity | exact Hqs].
    + discriminate.
    + split; discriminate.
    + intros o Ho. apply Hfresh. now rewrite (registry_open _ _ Hp).
  - (* the test after the wait: the registry is empty *)
    unfold destroy_wait_loop in Hloop.
    destruct (p_outstanding p) eqn:Hl; [| discriminate].
    inversion Hloop; subst ret c' evs; clear Hloop.
    constructor; unfold registry; simpl; try done.
    + intros [|]; discriminate.
    + intros o Ho. now apply elem_of_nil in Ho.
  - (* the test after the wait: the registry is not empty *)
    unfold destroy_wait_loop in Hloop.
    destruct (p_outstanding p) as [|o1 l1] eqn:Hl; [discriminate |].
    inversion Hloop; subst c' evs; clear Hloop.
    destruct (Hflags p Hp) as [Hfm Hfa].
    destruct (Hsig (or_intror Hwoken)) as (q & Hq & Hqs).
    rewrite Hp in Hq. inversion Hq; subst q.
    constructor; unfold registry; simpl.
    + intros q Hq'. inversion Hq'; subst q. split; assumption.
    + intros _. eexists. split; [reflexivity | exact Hqs].
    + intros _ Hempty. rewrite Hl in Hempty. discriminate.
    + split; discriminate.
    + intros o Ho. apply Hfresh. now rewrite (registry_open _ _ Hp).
  - constructor; assumption.
  - constructor; assumption.
  - constructor; assumption.
  - constructor; assumption.
  - constructor; assumption.
  - constructor; assumption.
  - (* the worker leaves the registry *)
    destruct (Hflags p Hp) as [Hfm Hfa].
    destruct (thread_unregister_flags p o) as (Hm & Hal & Hs & Hreg & Hn).
    constructor; unfold registry; simpl.
    + intros q Hq. inversion Hq; subst q. split; congruence.
    + intros Hd. destruct (Hsig Hd) as (q & Hq & Hqs).
      rewrite Hp in Hq. inversion Hq; subst q.
      eexists. split; [reflexivity | congruence].
    + intros Hd Hempty. destruct (Hsig (or_introl Hd)) as (q & Hq & Hqs).
      rewrite Hp in Hq. inversion Hq; subst q.
      eexists. split; [reflexivity |].
      rewrite Hn. rewrite Hreg in Hempty. rewrite Hempty, Hqs.
      rewrite bool_decide_eq_true_2 by reflexivity. simpl. lia.
    + rewrite <- Hdone, Hp. split; discriminate.
    + intros o' Ho'. rewrite Hreg in Ho'.
      apply elem_of_llist_remove in Ho' as [_ Ho'].
      apply Hfresh. now rewrite (registry_open _ _ Hp).
Qed.

Lemma reachable_basic_inv s : reachable s → basic_inv s.
Proof.
  induction 1 as [c0 e c Hopen | s l s' _ IH Hstep].
  - exact (basic_inv_init c0 e c Hopen).
  - exact (basic_inv_step s l s' IH Hstep).
Qed.

(** ** What one step does to the registry, the threads and the history *)

(** Every step is of one of five kinds: one that leaves the registry and
    the callbacks alone and moves no worker to or from its last position;
    an accepted play call; a marking loop ([driver_cancel], [driver_destroy]);
    a worker moving to its last position, either past its callback
    ([called]) or from the test that found the request dead; a worker
    leaving the registry. *)
Inductive step_kind (s s' : system) : Prop :=
| kind_quiet evs :
    registry s' = registry s →
    sys_retired s' = sys_retired s →
    sys_trace s' = sys_trace s ++ evs →
    Forall (λ ev, is_callback ev = false) evs →
    (sys_next s <= sys_next s')%nat →
    (∀ a, sys_threads s' !! a = Some WUnregister ↔
          sys_threads s !! a = Some WUnregister) →
    (∀ a, is_Some (sys_threads s' !! a) → is_Some (sys_threads s !! a)) →
    step_kind s s'
| kind_accept o evs :
    registry s' = o :: registry s →
    o_addr o = sys_next s → o_dead o = false → 0 <= o_pipe_fd1 o →
    sys_retired s' = sys_retired s →
    sys_trace s' = sys_trace s ++ evs →
    Forall (λ ev, is_callback ev = false) evs →
    sys_next s' = S (sys_next s) →
    (sys_threads s' = sys_threads s ∨
     sys_threads s' = <[sys_next s := WStart]> (sys_threads s)) →
    step_kind s s'
| kind_mark sel site status :
    registry s' = marked sel (registry s) →
    (∀ o, sel o = true → o_dead o = false) →
    from_outside site = true →
    sys_retired s' = sys_retired s →
    sys_trace s'
    = sys_trace s ++ mark_effects sel site status (registry s) →
    sys_next s' = sys_next s →
    sys_threads s' = sys_threads s →
    step_kind s s'
| kind_finish a o ret (called : bool) :
    registry s' = registry s →
    o ∈ registry s → o_addr o = a →
    sys_threads s !! a = Some (if called then WCall ret else WFinish ret) →
    (called = false → o_dead o = true) →
    sys_threads s' = <[a := WUnregister]> (sys_threads s) →
    sys_retired s' = sys_retired s →
    sys_trace s'
    = sys_trace s ++ (if called then call_back ByWorker ret o else []) →
    sys_next s' = sys_next s →
    step_kind s s'
| kind_unregister a o evs :
    registry s' = llist_remove a (registry s) →
    o ∈ registry s → o_addr o = a →
    sys_threads s !! a = Some WUnregister →
    sys_threads s' = delete a (sys_threads s) →
    sys_retired s' = sys_retired s ++ [o] →
    sys_trace s' = sys_trace s ++ evs →
    Forall (λ ev, is_callback ev = false) evs →
    sys_next s' = sys_next s →
    step_kind s s'.

Lemma live_match_not_dead id o : live_match id o = true → o_dead o = false.
Proof.
  unfold live_match. intros H. apply andb_true_iff in H as [_ H].
  now apply negb_true_iff in H.
Qed.

Lemma live_not_dead o : live o = true → o_dead o = false.
Proof. unfold live. apply negb_true_iff. Qed.

Lemma thread_unregister_no_callback p o :
  Forall (λ ev, is_callback ev = false) (thread_unregister p o).2.
Proof.
  unfold thread_unregister.
  destruct (llist_remove (o_addr o) (p_outstanding p)); simpl;
    [destruct (p_signal_semaphore p); simpl |]; no_callback.
Qed.

(** A worker step that only moves the worker within the loop. *)
Lemma quiet_worker_step s a pc pc' evs :
  sys_threads s !! a = Some pc →
  pc ≠ WUnregister → pc' ≠ WUnregister →
  Forall (λ ev, is_callback ev = false) evs →
  step_kind s (with_thread s a pc' evs).
Proof.
  intros Hth Hpc Hpc' Hevs.
  apply (kind_quiet _ _ evs); simpl; try done.
  - intros b. destruct (decide (a = b)) as [<- | Hne].
    + rewrite lookup_insert_eq, Hth. split; congruence.
    + now rewrite lookup_insert_ne.
  - intros b. destruct (decide (a = b)) as [<- | Hne].
    + rewrite Hth. eauto.
    + now rewrite lookup_insert_ne.
Qed.

Lemma step_classify s l s' : basic_inv s → step s l s' → step_kind s s'.
Proof.
  intros [Hflags Hsig Hwake Hdone Hfresh] Hstep.
  step_cases Hstep.
  - (* driver_open *)
    destruct (driver_open_cases _ _ _ _ Hdo) as [(-> & Hp & ->) | (-> & ->)];
      apply (kind_quiet _ _ []); unfold registry; simpl; rewrite ?Hp; done.
  - (* driver_play *)
    destruct (c_private (sys_ctx s)) as [p|] eqn:Hp.
    + assert (Hfr : ∀ a o, pe_new e = Some a → o ∈ p_outstanding p →
                             o_addr o ≠ a).
      { intros a o Hnew Ho Heq. destruct Hok as [Hok | Hok]; [congruence |].
        rewrite Hok in Hnew. inversion Hnew; subst a.
        specialize (Hfresh o). rewrite (registry_open _ _ Hp) in Hfresh.
        specialize (Hfresh Ho). lia. }
      destruct (driver_play_open _ _ _ _ _ _ _ _ _ _ _ Hp Hfr Hplay)
        as (Hevs & p' & Hp' & _ & Hreg).
      destruct Hreg as [(Hreg & -> & _) | (o & Hreg & Hnew & Hd & Hfd & _ & _ & _ & _ & Hthr)].
      * apply (kind_quiet _ _ evs); unfold registry; simpl;
          rewrite ?Hp, ?Hp'; try done. lia.
      * assert (Hao : o_addr o = sys_next s).
        { destruct Hok as [Hok | Hok]; [congruence |].
          rewrite Hok in Hnew. now inversion Hnew. }
        apply (kind_accept _ _ o evs); unfold registry; simpl;
          rewrite ?Hp, ?Hp'; try done.
        destruct Hthr as [-> | ->]; [now left | right].
        now rewrite Hao.
    + destruct (driver_play_closed _ _ _ _ _ _ _ _ _ _ Hp Hplay)
        as (-> & -> & ->).
      apply (kind_quiet _ _ []); unfold registry; simpl; try done. lia.
  - (* driver_cancel *)
    destruct (c_private (sys_ctx s)) as [p|] eqn:Hp.
    + rewrite (driver_cancel_open _ _ _ Hp) in Hcancel.
      inversion Hcancel; subst ret c' evs; clear Hcancel.
      apply (kind_mark _ _ (live_match id) ByCancel CA_ERROR_CANCELED);
        unfold registry; simpl; rewrite ?Hp; try done.
      apply live_match_not_dead.
    + rewrite (driver_cancel_closed _ _ Hp) in Hcancel.
      inversion Hcancel; subst ret c' evs; clear Hcancel.
      apply (kind_quiet _ _ []); unfold registry; simpl; try done.
  - (* driver_destroy returns at once *)
    destruct (c_private (sys_ctx s)) as [p|] eqn:Hp; [| discriminate].
    destruct (Hflags p eq_refl) as [Hfm Hfa].
    rewrite (driver_destroy_open _ _ Hp Hfm Hfa) in Hdestroy.
    unfold destroy_wait_loop in Hdestroy. simpl in Hdestroy.
    destruct (marked live (p_outstanding p)) eqn:Hl; [| discriminate].
    inversion Hdestroy; subst ret c' evs; clear Hdestroy.
    apply marked_nil in Hl.
    apply (kind_quiet _ _ []); unfold registry; simpl;
      rewrite ?Hp, ?Hl; try done.
  - (* driver_destroy has to wait *)
    destruct (c_private (sys_ctx s)) as [p|] eqn:Hp;
      [| unfold driver_destroy in Hdestroy; rewrite Hp in Hdestroy;
         discriminate].
    destruct (Hflags p eq_refl) as [Hfm Hfa].
    rewrite (driver_destroy_open _ _ Hp Hfm Hfa) in Hdestroy.
    unfold destroy_wait_loop in Hdestroy. simpl in Hdestroy.
    destruct (marked live (p_outstanding p)) as [|o1 l1] eqn:Hl;
      [discriminate |].
    inversion Hdestroy; subst c' evs; clear Hdestroy.
    apply (kind_mark _ _ live ByDestroy CA_ERROR_DESTROYED);
      unfold registry; simpl; rewrite ?Hp; try done.
    apply live_not_dead.
  - (* driver_destroy on a closed context *)
    assert (Hp : c_private (sys_ctx s) = None) by now apply Hdone.
    unfold driver_destroy in Hdestroy. rewrite Hp in Hdestroy.
    inversion Hdestroy; subst ret c' evs.
    apply (kind_quiet _ _ []); unfold registry; simpl; done.
  - (* sem_wait returns *)
    apply (kind_quiet _ _ []); unfold registry; simpl; rewrite ?Hp; done.
  - (* the test after the wait: the registry is empty *)
    unfold destroy_wait_loop in Hloop.
    destruct (p_outstanding p) eqn:Hl; [| discriminate].
    inversion Hloop; subst ret c' evs; clear Hloop.
    apply (kind_quiet _ _ []); unfold registry; simpl; rewrite ?Hp, ?Hl; done.
  - (* the test after the wait: the registry is not empty *)
    unfold destroy_wait_loop in Hloop.
    destruct (p_outstanding p) as [|o1 l1] eqn:Hl; [discriminate |].
    inversion Hloop; subst c' evs; clear Hloop.
    apply (kind_quiet _ _ []); unfold registry; simpl; rewrite ?Hp, ?Hl; done.
  - apply (quiet_worker_step _ _ WStart); try done.
    destruct mok; discriminate.
  - apply (quiet_worker_step _ _ (WLoop ds nb d)); try done.
    destruct (o_dead o); discriminate.
  - apply (quiet_worker_step _ _ (WPoll ds nb d)); done.
  - apply (quiet_worker_step _ _ (WPolled ds nb d (ie_poll e))); try done.
    + destruct (loop_body o ds nb d e); discriminate.
    + apply loop_body_no_callback.
  - destruct (o_dead o) eqn:Hd.
    + apply (kind_finish _ _ a o ret false); done.
    + apply (quiet_worker_step _ _ (WFinish ret)); done.
  - apply (kind_finish _ _ a o ret true); done.
  - apply (kind_unregister _ _ a o (thread_unregister p o).2); try done.
    + unfold registry. simpl. rewrite Hp.
      destruct (thread_unregister_flags p o) as (_ & _ & _ & Hreg & _).
      rewrite Hreg, Ha. reflexivity.
    + now rewrite (registry_open _ _ Hp).
    + apply thread_unregister_no_callback.
Qed.

(** ** driver_destroy waits until the registry is empty *)

Lemma marked_live_dead l : Forall (λ o, o_dead o = true) (marked live l).
Proof.
  apply Forall_forall. intros o' Ho'.
  apply elem_of_marked in Ho' as (o & _ & ->).
  unfold live. destruct (o_dead o) eqn:Hd; simpl; [exact Hd | reflexivity].
Qed.

Ltac no := intros; simpl in *; congruence.

(** What a step of the destroying caller, or the last step of a worker,
    does in a state that satisfies the invariant. *)
Lemma destroy_steps s l s' :
  basic_inv s → step s l s' →
  (sys_destroy s ≠ DDone → sys_destroy s' = DDone →
   l = LDestroy ∧ registry s = []) ∧
  (l = LDestroy → sys_destroy s = DWoken → registry s ≠ [] →
   sys_destroy s' = DWait ∧ registry s' = registry s) ∧
  (l = LDestroy → sys_destroy s = DWait →
   sys_destroy s' = DWoken ∧
   ∃ p p', c_private (sys_ctx s) = Some p ∧
           c_private (sys_ctx s') = Some p' ∧
           p_semaphore p = S (p_semaphore p')) ∧
  (l = LDestroy → sys_destroy s = DIdle →
   sys_trace s'
   = sys_trace s
     ++ mark_effects live ByDestroy CA_ERROR_DESTROYED (registry s) ∧
   (sys_destroy s' = DWait →
    registry s' = marked live (registry s) ∧
    Forall (λ o, o_dead o = true) (registry s') ∧
    ∃ p', c_private (sys_ctx s') = Some p' ∧
          p_signal_semaphore p' = true)) ∧
  (∀ a, l = LWorker a → sys_threads s !! a = Some WUnregister →
   ∃ p p', c_private (sys_ctx s) = Some p ∧
           c_private (sys_ctx s') = Some p' ∧
           registry s' = llist_remove a (registry s) ∧
           p_semaphore p'
           = if bool_decide (registry s' = []) && p_signal_semaphore p
             then S (p_semaphore p) else p_semaphore p).
Proof.
  intros [Hflags Hsig Hwake Hdone Hfresh] Hstep.
  step_cases Hstep; simpl.
  - (* driver_open *)
    destruct (driver_open_cases _ _ _ _ Hdo) as [(-> & Hp & ->) | (-> & ->)];
      simpl; split_and!; no.
  - (* driver_play *)
    split_and!; no.
  - (* driver_cancel *)
    split_and!; no.
  - (* driver_destroy returns at once *)
    destruct (c_private (sys_ctx s)) as [p|] eqn:Hp; [| discriminate].
    destruct (Hflags p eq_refl) as [Hfm Hfa].
    rewrite (driver_destroy_open _ _ Hp Hfm Hfa) in Hdestroy.
    unfold destroy_wait_loop in Hdestroy. simpl in Hdestroy.
    destruct (marked live (p_outstanding p)) eqn:Hl; [| discriminate].
    inversion Hdestroy; subst ret c' evs; clear Hdestroy.
    apply marked_nil in Hl.
    split; [| split; [no | split; [no | split; [| no]]]].
    + intros _ _. split; [reflexivity |]. unfold registry. now rewrite Hp.
    + intros _ _. split; [| discriminate].
      unfold registry. now rewrite Hp.
  - (* driver_destroy has to wait *)
    destruct (c_private (sys_ctx s)) as [p|] eqn:Hp;
      [| unfold driver_destroy in Hdestroy; rewrite Hp in Hdestroy;
         discriminate].
    destruct (Hflags p eq_refl) as [Hfm Hfa].
    rewrite (driver_destroy_open _ _ Hp Hfm Hfa) in Hdestroy.
    unfold destroy_wait_loop in Hdestroy. simpl in Hdestroy.
    destruct (marked live (p_outstanding p)) as [|o1 l1] eqn:Hl;
      [discriminate |].
    inversion Hdestroy; subst c' evs; clear Hdestroy.
    split; [no | split; [no | split; [no | split; [| no]]]].
    intros _ _. unfold registry. simpl. rewrite Hp.
    split; [reflexivity |]. intros _.
    split; [now rewrite Hl |]. split; [rewrite <- Hl; apply marked_live_dead |].
    eexists. split; reflexivity.
  - (* driver_destroy on a closed context *)
    split_and!; no.
  - (* sem_wait returns *)
    split; [no | split; [no | split; [| split; [no | no]]]].
    intros _ _. split; [reflexivity |].
    exists p. eexists. split; [exact Hp |]. split; [reflexivity |].
    simpl. exact Hsem.
  - (* the test after the wait: the registry is empty *)
    unfold destroy_wait_loop in Hloop.
    destruct (p_outstanding p) eqn:Hl; [| discriminate].
    inversion Hloop; subst ret c' evs; clear Hloop.
    split; [| split; [| split; [no | split; [no | no]]]].
    + intros _ _. split; [reflexivity |]. unfold registry. now rewrite Hp.
    + intros _ _ Hne. exfalso. apply Hne. unfold registry. now rewrite Hp.
  - (* the test after the wait: the registry is not empty *)
    unfold destroy_wait_loop in Hloop.
    destruct (p_outstanding p) as [|o1 l1] eqn:Hl; [discriminate |].
    inversion Hloop; subst c' evs; clear Hloop.
    split; [no | split; [| split; [no | split; [no | no]]]].
    intros _ _ _. split; [reflexivity |]. unfold registry. simpl.
    now rewrite Hp.
  - split; [no | split; [no | split; [no | split; [no |]]]].
    intros b Hb Hthb. inversion Hb; subst b. congruence.
  - split; [no | split; [no | split; [no | split; [no |]]]].
    intros b Hb Hthb. inversion Hb; subst b. congruence.
  - split; [no | split; [no | split; [no | split; [no |]]]].
    intros b Hb Hthb. inversion Hb; subst b. congruence.
  - split; [no | split; [no | split; [no | split; [no |]]]].
    intros b Hb Hthb. inversion Hb; subst b. congruence.
  - split; [no | split; [no | split; [no | split; [no |]]]].
    intros b Hb Hthb. inversion Hb; subst b. congruence.
  - split; [no | split; [no | split; [no | split; [no |]]]].
    intros b Hb Hthb. inversion Hb; subst b. congruence.
  - (* the worker leaves the registry *)
    split; [no | split; [no | split; [no | split; [no |]]]].
    intros b Hb _. inversion Hb; subst b.
    destruct (thread_unregister_flags p o) as (_ & _ & _ & Hreg & Hn).
    exists p. eexists. split; [exact Hp |]. split; [reflexivity |].
    unfold registry. simpl. rewrite Hp, Hreg, Hn, Ha. split; reflexivity.
Qed.

(** C2.  In every state a driver instance can reach:
    [driver_destroy] returns only in a step that finds the registry empty;
    a wakeup that finds the registry not empty puts it back into the wait
    and leaves the registry as it is; it leaves the wait only by taking one
    unit of the semaphore; its first step calls back every request that is
    not dead with [CA_ERROR_DESTROYED] and closes its pipe, and when it then
    has to wait every request of the registry is dead and the drain is
    pending; a worker that leaves the registry posts the semaphore exactly
    when the registry is empty after it and a drain is pending.  Moreover
    the wait cannot be lost: when [driver_destroy] is blocked and the
    registry is empty the semaphore has been posted, so that it can wake,
    and when it has woken with the registry empty it returns. *)
Theorem driver_destroy_drains s :
  reachable s →
  (∀ l s', step s l s' →
     (sys_destroy s ≠ DDone → sys_destroy s' = DDone →
      l = LDestroy ∧ registry s = []) ∧
     (l = LDestroy → sys_destroy s = DWoken → registry s ≠ [] →
      sys_destroy s' = DWait ∧ registry s' = registry s) ∧
     (l = LDestroy → sys_destroy s = DWait →
      sys_destroy s' = DWoken ∧
      ∃ p p', c_private (sys_ctx s) = Some p ∧
              c_private (sys_ctx s') = Some p' ∧
              p_semaphore p = S (p_semaphore p')) ∧
     (l = LDestroy → sys_destroy s = DIdle →
      sys_trace s'
      = sys_trace s
        ++ mark_effects live ByDestroy CA_ERROR_DESTROYED (registry s) ∧
      (sys_destroy s' = DWait →
       registry s' = marked live (registry s) ∧
       Forall (λ o, o_dead o = true) (registry s') ∧
       ∃ p', c_private (sys_ctx s') = Some p' ∧
             p_signal_semaphore p' = true)) ∧
     (∀ a, l = LWorker a → sys_threads s !! a = Some WUnregister →
      ∃ p p', c_private (sys_ctx s) = Some p ∧
              c_private (sys_ctx s') = Some p' ∧
              registry s' = llist_remove a (registry s) ∧
              p_semaphore p'
              = if bool_decide (registry s' = []) && p_signal_semaphore p
                then S (p_semaphore p) else p_semaphore p)) ∧
  (sys_destroy s = DWait → registry s = [] →
   ∃ s', step s LDestroy s' ∧ sys_destroy s' = DWoken) ∧
  (sys_destroy s = DWoken → registry s = [] →
   ∃ s', step s LDestroy s' ∧ sys_destroy s' = DDone).
Proof.
  intros Hreach. pose proof (reachable_basic_inv s Hreach) as Hinv.
  split; [| split].
  - intros l s' Hstep. exact (destroy_steps s l s' Hinv Hstep).
  - intros Hwait Hempty.
    destruct (bi_wakeup s Hinv Hwait Hempty) as (p & Hp & Hsem).
    destruct (p_semaphore p) as [|n] eqn:Hn; [lia |].
    eexists. split; [exact (step_destroy_wake s p n Hwait Hp Hn) |].
    reflexivity.
  - intros Hwoken Hempty.
    destruct (bi_signal s Hinv (or_intror Hwoken)) as (p & Hp & _).
    eexists. split.
    + apply (step_destroy_recheck_return s p CA_SUCCESS
               (set_private (sys_ctx s) None) []); try done.
      unfold destroy_wait_loop. rewrite (registry_open _ _ Hp) in Hempty.
      now rewrite Hempty.
    + reflexivity.
Qed.

(** ** Callbacks of the marking loops and of the worker *)

Lemma count_close_if_open sites a fd :
  count_callbacks sites a (close_if_open fd) = 0%nat.
Proof. apply count_callbacks_none, close_if_open_no_callback. Qed.

Lemma count_call_back sites a site status o :
  count_callbacks sites a (call_back site status o)
  = if sites site && has_callback o && bool_decide (o_addr o = a)
    then 1%nat else 0%nat.
Proof.
  unfold call_back, has_callback.
  destruct (o_callback o); simpl; [| now rewrite andb_false_r].
  rewrite andb_true_r.
  destruct (sites site); simpl; [| reflexivity].
  destruct (Nat.eqb_spec (o_addr o) a).
  - now rewrite bool_decide_eq_true_2.
  - now rewrite bool_decide_eq_false_2.
Qed.

Lemma count_mark_absent sites a sel site status l :
  (∀ o, o ∈ l → o_addr o ≠ a) →
  count_callbacks sites a (mark_effects sel site status l) = 0%nat.
Proof.
  unfold mark_effects. induction l as [|o l IH]; intros Habs;
    [reflexivity |].
  rewrite bind_cons, count_callbacks_app, IH
    by (intros o' Ho'; apply Habs; now right).
  destruct (sel o); [| reflexivity].
  rewrite count_callbacks_app, count_call_back, count_close_if_open.
  rewrite bool_decide_eq_false_2 by (apply Habs; left).
  now rewrite andb_false_r.
Qed.

Lemma count_mark_present sites sel site status l o :
  NoDup (o_addr <$> l) → o ∈ l →
  count_callbacks sites (o_addr o) (mark_effects sel site status l)
  = if sites site && sel o && has_callback o then 1%nat else 0%nat.
Proof.
  induction l as [|o1 l IH]; intros Hnd Ho; [now apply elem_of_nil in Ho |].
  rewrite fmap_cons in Hnd. apply NoDup_cons in Hnd as [Hnotin Hnd].
  change (mark_effects sel site status (o1 :: l))
    with ((if sel o1
           then call_back site status o1 ++ close_if_open (o_pipe_fd1 o1)
           else []) ++ mark_effects sel site status l).
  rewrite count_callbacks_app.
  apply elem_of_cons in Ho as [-> | Ho].
  - rewrite count_mark_absent.
    2:{ intros o' Ho' Heq. apply Hnotin. rewrite <- Heq.
        now apply list_elem_of_fmap_2. }
    destruct (sel o1); simpl; [| now rewrite andb_false_r].
    rewrite count_callbacks_app, count_call_back, count_close_if_open.
    rewrite bool_decide_eq_true_2 by reflexivity.
    rewrite !andb_true_r.
    destruct (sites site && has_callback o1); reflexivity.
  - rewrite (IH Hnd Ho).
    assert (Hne : o_addr o1 ≠ o_addr o).
    { intros Heq. apply Hnotin. rewrite Heq. now apply list_elem_of_fmap_2. }
    destruct (sel o1); simpl; [| reflexivity].
    rewrite count_callbacks_app, count_call_back, count_close_if_open.
    rewrite bool_decide_eq_false_2 by exact Hne.
    now rewrite andb_false_r.
Qed.

Lemma count_thread_finish sites a o ret :
  count_callbacks sites a (thread_finish_callback o ret)
  = if negb (o_dead o) && sites ByWorker && has_callback o
       && bool_decide (o_addr o = a)
    then 1%nat else 0%nat.
Proof.
  unfold thread_finish_callback. destruct (o_dead o); [reflexivity |].
  simpl. apply count_call_back.
Qed.

Lemma from_outside_not_worker site :
  from_outside site = true → from_worker site = false.
Proof. now destruct site. Qed.

Lemma NoDup_addr_filter (P : outstanding → Prop) `{∀ o, Decision (P o)} l :
  NoDup (o_addr <$> l) → NoDup (o_addr <$> filter P l).
Proof.
  induction l as [|o l IH]; intros Hnd; [constructor |].
  rewrite fmap_cons in Hnd. apply NoDup_cons in Hnd as [Hnotin Hnd].
  rewrite filter_cons. destruct (decide (P o)); [| now apply IH].
  rewrite fmap_cons. apply NoDup_cons. split; [| now apply IH].
  intros Hin. apply Hnotin.
  apply list_elem_of_fmap in Hin as (o' & -> & Ho').
  apply list_elem_of_filter in Ho' as [_ Ho'].
  now apply list_elem_of_fmap_2.
Qed.

Lemma NoDup_addr_eq l o1 o2 :
  NoDup (o_addr <$> l) → o1 ∈ l → o2 ∈ l → o_addr o1 = o_addr o2 → o1 = o2.
Proof.
  induction l as [|o l IH]; intros Hnd H1 H2 Heq;
    [now apply elem_of_nil in H1 |].
  rewrite fmap_cons in Hnd. apply NoDup_cons in Hnd as [Hnotin Hnd].
  apply elem_of_cons in H1 as [-> | H1];
    apply elem_of_cons in H2 as [-> | H2]; try reflexivity.
  - exfalso. apply Hnotin. rewrite Heq. now apply list_elem_of_fmap_2.
  - exfalso. apply Hnotin. rewrite <- Heq. now apply list_elem_of_fmap_2.
  - now apply IH.
Qed.

(** ** The callbacks a request has received *)

(** In a reachable state: names identify requests; a request is dead
    exactly when the write end of its pipe is closed; [driver_cancel] and
    [driver_destroy] have called a request back once if it is dead and has a
    callback, and not at all otherwise; a request without a callback has not
    been called back by its worker; a worker that has not passed [finish]
    has not called back, and one that has has called back once if the
    request is not dead. *)
Record cb_inv (s : system) : Prop := {
  ci_nodup : NoDup (o_addr <$> registry s);
  ci_disjoint : ∀ o o', o ∈ registry s → o' ∈ sys_retired s →
                  o_addr o ≠ o_addr o';
  ci_bound : ∀ o, o ∈ registry s ++ sys_retired s →
               (o_addr o < sys_next s)%nat;
  ci_threads : ∀ a, is_Some (sys_threads s !! a) → (a < sys_next s)%nat;
  ci_future : ∀ sites a, (sys_next s <= a)%nat →
                count_callbacks sites a (sys_trace s) = 0%nat;
  ci_pipe : ∀ o, o ∈ registry s → (o_dead o = true ↔ o_pipe_fd1 o < 0);
  ci_outside : ∀ o, o ∈ registry s ++ sys_retired s →
                 outside_callbacks (o_addr o) (sys_trace s)
                 = if o_dead o && has_callback o then 1%nat else 0%nat;
  ci_worker : ∀ o, o ∈ registry s →
      (worker_callbacks (o_addr o) (sys_trace s) <= 1)%nat ∧
      (has_callback o = false →
       worker_callbacks (o_addr o) (sys_trace s) = 0%nat) ∧
      (sys_threads s !! o_addr o ≠ Some WUnregister →
       worker_callbacks (o_addr o) (sys_trace s) = 0%nat) ∧
      (sys_threads s !! o_addr o = Some WUnregister →
       has_callback o = true → o_dead o = false →
       worker_callbacks (o_addr o) (sys_trace s) = 1%nat);
  ci_retired : ∀ o, o ∈ sys_retired s →
      (worker_callbacks (o_addr o) (sys_trace s) <= 1)%nat ∧
      (has_callback o = false →
       worker_callbacks (o_addr o) (sys_trace s) = 0%nat) ∧
      (has_callback o = true → o_dead o = false →
       worker_callbacks (o_addr o) (sys_trace s) = 1%nat)
}.

Lemma driver_open_registry c0 e c :
  driver_open (Some c0) e = (CA_SUCCESS, Some c) →
  registry (init_system c) = [].
Proof.
  unfold driver_open. intros H.
  repeat match type of H with
         | (if ?b then _ else _) = _ => destruct b; try discriminate
         end.
  inversion H; subst. reflexivity.
Qed.

Lemma cb_inv_init c : registry (init_system c) = [] → cb_inv (init_system c).
Proof.
  intros Hreg.
  constructor; simpl; rewrite ?Hreg; try done.
  - constructor.
  - intros o o' Ho. now apply elem_of_nil in Ho.
  - intros o Ho. now apply elem_of_nil in Ho.
  - intros a [pc Hpc]. now rewrite lookup_empty in Hpc.
  - intros o Ho. now apply elem_of_nil in Ho.
  - intros o Ho. now apply elem_of_nil in Ho.
  - intros o Ho. now apply elem_of_nil in Ho.
  - intros o Ho. now apply elem_of_nil in Ho.
Qed.

Lemma cb_inv_quiet s s' evs :
  cb_inv s →
  registry s' = registry s →
  sys_retired s' = sys_retired s →
  sys_trace s' = sys_trace s ++ evs →
  Forall (λ ev, is_callback ev = false) evs →
  (sys_next s <= sys_next s')%nat →
  (∀ a, sys_threads s' !! a = Some WUnregister ↔
        sys_threads s !! a = Some WUnregister) →
  (∀ a, is_Some (sys_threads s' !! a) → is_Some (sys_threads s !! a)) →
  cb_inv s'.
Proof.
  intros [Hnd Hdis Hbound Hthr Hfut Hpipe Hout Hwk Hret]
         Hreg Hretd Htr Hevs Hnext Hun Hsome.
  assert (Hcount : ∀ sites a, count_callbacks sites a (sys_trace s')
                              = count_callbacks sites a (sys_trace s)).
  { intros sites a. rewrite Htr, count_callbacks_app.
    rewrite (count_callbacks_none _ _ _ Hevs). lia. }
  unfold outside_callbacks, worker_callbacks in *.
  constructor; rewrite ?Hreg, ?Hretd; try assumption.
  - intros o Ho. specialize (Hbound o Ho). lia.
  - intros a Ha. specialize (Hthr a (Hsome a Ha)). lia.
  - intros sites a Ha. rewrite Hcount. apply Hfut. lia.
  - intros o Ho. unfold outside_callbacks. rewrite Hcount. now apply Hout.
  - intros o Ho. unfold worker_callbacks. rewrite Hcount.
    destruct (Hwk o Ho) as (H1 & H2 & H3 & H4).
    split_and!; try assumption.
    + intros Hne. apply H3. intros Heq. apply Hne. now apply Hun.
    + intros Heq. apply H4. now apply Hun.
  - intros o Ho. unfold worker_callbacks. rewrite Hcount. now apply Hret.
Qed.

Lemma cb_inv_accept s s' o evs :
  cb_inv s →
  registry s' = o :: registry s →
  o_addr o = sys_next s → o_dead o = false → 0 <= o_pipe_fd1 o →
  sys_retired s' = sys_retired s →
  sys_trace s' = sys_trace s ++ evs →
  Forall (λ ev, is_callback ev = false) evs →
  sys_next s' = S (sys_next s) →
  (sys_threads s' = sys_threads s ∨
   sys_threads s' = <[sys_next s := WStart]> (sys_threads s)) →
  cb_inv s'.
Proof.
  intros [Hnd Hdis Hbound Hthr Hfut Hpipe Hout Hwk Hret]
         Hreg Ha Hd Hfd Hretd Htr Hevs Hnext Hthreads.
  assert (Hcount : ∀ sites a, count_callbacks sites a (sys_trace s')
                              = count_callbacks sites a (sys_trace s)).
  { intros sites a. rewrite Htr, count_callbacks_app.
    rewrite (count_callbacks_none _ _ _ Hevs). lia. }
  assert (Hnew : ∀ sites, count_callbacks sites (o_addr o) (sys_trace s)
                          = 0%nat).
  { intros sites. apply Hfut. lia. }
  assert (Hold : ∀ o1, o1 ∈ registry s ++ sys_retired s →
                       o_addr o1 ≠ sys_next s).
  { intros o1 Ho1. specialize (Hbound o1 Ho1). lia. }
  assert (Hlook : ∀ a, a ≠ sys_next s →
            sys_threads s' !! a = sys_threads s !! a).
  { intros a Hne. destruct Hthreads as [-> | ->]; [reflexivity |].
    now rewrite lookup_insert_ne. }
  assert (Hlooknew : sys_threads s' !! sys_next s ≠ Some WUnregister).
  { destruct Hthreads as [-> | ->].
    - intros Heq. specialize (Hthr (sys_next s) (mk_is_Some _ _ Heq)). lia.
    - rewrite lookup_insert_eq. discriminate. }
  unfold outside_callbacks, worker_callbacks in *.
  constructor; rewrite ?Hreg, ?Hretd, ?Hnext;
    unfold outside_callbacks, worker_callbacks.
  - rewrite fmap_cons. apply NoDup_cons. split; [| exact Hnd].
    intros Hin. apply list_elem_of_fmap in Hin as (o1 & Heq & Ho1).
    apply (Hold o1); [apply elem_of_app; now left | congruence].
  - intros o1 o' Ho1 Ho'. apply elem_of_cons in Ho1 as [-> | Ho1];
      [| now apply Hdis].
    intros Heq. apply (Hold o'); [apply elem_of_app; now right | congruence].
  - intros o1 Ho1. simpl in Ho1. apply elem_of_cons in Ho1 as [-> | Ho1];
      [lia | specialize (Hbound o1 Ho1); lia].
  - intros a Hsome. destruct Hthreads as [Heq | Heq]; rewrite Heq in Hsome.
    + specialize (Hthr a Hsome). lia.
    + destruct (decide (sys_next s = a)) as [<- | Hne]; [lia |].
      rewrite lookup_insert_ne in Hsome by exact Hne.
      specialize (Hthr a Hsome). lia.
  - intros sites a Hle. rewrite Hcount. apply Hfut. lia.
  - intros o1 Ho1. apply elem_of_cons in Ho1 as [-> | Ho1];
      [| now apply Hpipe].
    rewrite Hd. split; [discriminate | lia].
  - intros o1 Ho1. rewrite Hcount. simpl in Ho1.
    apply elem_of_cons in Ho1 as [-> | Ho1]; [| now apply Hout].
    rewrite Hnew, Hd. reflexivity.
  - intros o1 Ho1. rewrite Hcount.
    apply elem_of_cons in Ho1 as [-> | Ho1].
    + rewrite Hnew. split_and!; try done; [lia |].
      intros Heq. rewrite Ha in Heq. contradiction.
    + assert (Hne : o_addr o1 ≠ sys_next s)
        by (apply Hold, elem_of_app; now left).
      rewrite (Hlook _ Hne). now apply Hwk.
  - intros o1 Ho1. rewrite Hcount. now apply Hret.
Qed.

Lemma cb_inv_mark s s' sel site status :
  cb_inv s →
  registry s' = marked sel (registry s) →
  (∀ o, sel o = true → o_dead o = false) →
  from_outside site = true →
  sys_retired s' = sys_retired s →
  sys_trace s' = sys_trace s ++ mark_effects sel site status (registry s) →
  sys_next s' = sys_next s →
  sys_threads s' = sys_threads s →
  cb_inv s'.
Proof.
  intros [Hnd Hdis Hbound Hthr Hfut Hpipe Hout Hwk Hret]
         Hreg Hsel Hsite Hretd Htr Hnext Hthreads.
  pose proof (from_outside_not_worker site Hsite) as Hnw.
  assert (Haddr : ∀ o, o_addr (if sel o then set_dead_closed o else o)
                       = o_addr o) by (intros o; now destruct (sel o)).
  assert (Hcb : ∀ o, has_callback (if sel o then set_dead_closed o else o)
                     = has_callback o) by (intros o; now destruct (sel o)).
  assert (Hin : ∀ sites o, o ∈ registry s →
            count_callbacks sites (o_addr o) (sys_trace s')
            = (count_callbacks sites (o_addr o) (sys_trace s)
               + if sites site && sel o && has_callback o then 1 else 0)%nat).
  { intros sites o Ho. rewrite Htr, count_callbacks_app.
    now rewrite (count_mark_present _ _ _ _ _ _ Hnd Ho). }
  assert (Hout' : ∀ sites a, (∀ o, o ∈ registry s → o_addr o ≠ a) →
            count_callbacks sites a (sys_trace s')
            = count_callbacks sites a (sys_trace s)).
  { intros sites a Habs. rewrite Htr, count_callbacks_app.
    rewrite (count_mark_absent _ _ _ _ _ _ Habs). lia. }
  constructor; rewrite ?Hreg, ?Hretd, ?Hnext, ?Hthreads;
    unfold outside_callbacks, worker_callbacks in *.
  - now rewrite marked_addr.
  - intros o' o1 Ho' Ho1. apply elem_of_marked in Ho' as (o & Ho & ->).
    rewrite Haddr. now apply Hdis.
  - intros o' Ho'. apply elem_of_app in Ho' as [Ho' | Ho'].
    + apply elem_of_marked in Ho' as (o & Ho & ->). rewrite Haddr.
      apply Hbound, elem_of_app. now left.
    + apply Hbound, elem_of_app. now right.
  - exact Hthr.
  - intros sites a Hle. rewrite Hout'; [now apply Hfut |].
    intros o Ho Heq.
    assert (o_addr o < sys_next s)%nat
      by (apply Hbound, elem_of_app; now left). lia.
  - intros o' Ho'. apply elem_of_marked in Ho' as (o & Ho & ->).
    destruct (sel o) eqn:Hs; [| now apply Hpipe].
    simpl. split; [| reflexivity]. intros _.
    destruct (Z.leb_spec 0 (o_pipe_fd1 o)); lia.
  - intros o' Ho'. apply elem_of_app in Ho' as [Ho' | Ho'].
    + apply elem_of_marked in Ho' as (o & Ho & ->).
      rewrite Haddr, Hcb, (Hin _ o Ho), Hsite.
      rewrite (Hout o) by (apply elem_of_app; now left).
      destruct (sel o) eqn:Hs; simpl.
      * rewrite (Hsel o Hs). simpl. destruct (has_callback o); reflexivity.
      * destruct (o_dead o && has_callback o); reflexivity.
    + rewrite Hout'.
      * apply Hout, elem_of_app. now right.
      * intros o Ho. now apply Hdis.
  - intros o' Ho'. apply elem_of_marked in Ho' as (o & Ho & ->).
    rewrite Haddr, Hcb, (Hin _ o Ho), Hnw. simpl. rewrite Nat.add_0_r.
    destruct (Hwk o Ho) as (H1 & H2 & H3 & H4).
    split_and!; try assumption.
    intros Hun Hc Hd. apply H4; try assumption.
    destruct (sel o); [discriminate | exact Hd].
  - intros o' Ho'. rewrite Hout'; [now apply Hret |].
    intros o Ho. now apply Hdis.
Qed.

Lemma cb_inv_finish s s' a o ret (called : bool) :
  cb_inv s →
  registry s' = registry s →
  o ∈ registry s → o_addr o = a →
  sys_threads s !! a = Some (if called then WCall ret else WFinish ret) →
  (called = false → o_dead o = true) →
  sys_threads s' = <[a := WUnregister]> (sys_threads s) →
  sys_retired s' = sys_retired s →
  sys_trace s'
  = sys_trace s ++ (if called then call_back ByWorker ret o else []) →
  sys_next s' = sys_next s →
  cb_inv s'.
Proof.
  intros [Hnd Hdis Hbound Hthr Hfut Hpipe Hout Hwk Hret]
         Hreg Ho Ha Hth Hskip Hthreads Hretd Htr Hnext.
  assert (Hcount : ∀ sites b, count_callbacks sites b (sys_trace s')
            = (count_callbacks sites b (sys_trace s)
               + if called && sites ByWorker && has_callback o
                    && bool_decide (o_addr o = b)
                 then 1 else 0)%nat).
  { intros sites b. rewrite Htr, count_callbacks_app.
    destruct called; [| reflexivity].
    now rewrite count_call_back. }
  assert (Hother : ∀ sites b, o_addr o ≠ b →
            count_callbacks sites b (sys_trace s')
            = count_callbacks sites b (sys_trace s)).
  { intros sites b Hne. rewrite Hcount, bool_decide_eq_false_2 by exact Hne.
    rewrite andb_false_r. lia. }
  assert (Hnotworker : ∀ b, count_callbacks from_outside b (sys_trace s')
            = count_callbacks from_outside b (sys_trace s)).
  { intros b. rewrite Hcount. simpl. rewrite andb_false_r. simpl. lia. }
  constructor; rewrite ?Hreg, ?Hretd, ?Hnext;
    unfold outside_callbacks, worker_callbacks in *; try assumption.
  - intros b Hsome. rewrite Hthreads in Hsome.
    destruct (decide (a = b)) as [<- | Hne].
    + apply Hthr. rewrite Hth. eauto.
    + rewrite lookup_insert_ne in Hsome by exact Hne. now apply Hthr.
  - intros sites b Hle. rewrite Hother; [now apply Hfut |].
    assert (o_addr o < sys_next s)%nat
      by (apply Hbound, elem_of_app; now left). lia.
  - intros o1 Ho1. rewrite Hnotworker. now apply Hout.
  - intros o1 Ho1. rewrite Hthreads.
    destruct (decide (o_addr o = o_addr o1)) as [Heq | Hne].
    + assert (o1 = o) as -> by (symmetry; now apply (NoDup_addr_eq _ _ _ Hnd)).
      rewrite Hcount, bool_decide_eq_true_2 by reflexivity.
      destruct (Hwk o Ho) as (_ & _ & H3 & _).
      rewrite H3 by (rewrite Ha, Hth; destruct called; discriminate).
      simpl. rewrite !andb_true_r.
      split_and!.
      * destruct (called && has_callback o); lia.
      * intros ->. now rewrite andb_false_r.
      * rewrite Ha, lookup_insert_eq. contradiction.
      * intros _ -> Hd. destruct called; [reflexivity |].
        rewrite (Hskip eq_refl) in Hd. discriminate.
    + rewrite Hother by exact Hne.
      rewrite lookup_insert_ne by (rewrite <- Ha; exact Hne).
      now apply Hwk.
  - intros o1 Ho1. rewrite Hother; [now apply Hret |].
    now apply Hdis.
Qed.

Lemma cb_inv_unregister s s' a o evs :
  cb_inv s →
  registry s' = llist_remove a (registry s) →
  o ∈ registry s → o_addr o = a →
  sys_threads s !! a = Some WUnregister →
  sys_threads s' = delete a (sys_threads s) →
  sys_retired s' = sys_retired s ++ [o] →
  sys_trace s' = sys_trace s ++ evs →
  Forall (λ ev, is_callback ev = false) evs →
  sys_next s' = sys_next s →
  cb_inv s'.
Proof.
  intros [Hnd Hdis Hbound Hthr Hfut Hpipe Hout Hwk Hret]
         Hreg Ho Ha Hth Hthreads Hretd Htr Hevs Hnext.
  assert (Hcount : ∀ sites b, count_callbacks sites b (sys_trace s')
                              = count_callbacks sites b (sys_trace s)).
  { intros sites b. rewrite Htr, count_callbacks_app.
    rewrite (count_callbacks_none _ _ _ Hevs). lia. }
  assert (Hsub : ∀ o1, o1 ∈ llist_remove a (registry s) ++ sys_retired s ++ [o]
                       → o1 ∈ registry s ++ sys_retired s).
  { intros o1 Ho1. rewrite !elem_of_app in Ho1. rewrite elem_of_app.
    destruct Ho1 as [Ho1 | [Ho1 | Ho1]].
    - apply elem_of_llist_remove in Ho1 as [_ Ho1]. now left.
    - now right.
    - apply list_elem_of_singleton in Ho1. subst o1. now left. }
  constructor; rewrite ?Hreg, ?Hretd, ?Hnext;
    unfold outside_callbacks, worker_callbacks in *.
  - unfold llist_remove. now apply NoDup_addr_filter.
  - intros o1 o' Ho1 Ho'. apply elem_of_llist_remove in Ho1 as [Hne Ho1].
    apply elem_of_app in Ho' as [Ho' | Ho']; [now apply Hdis |].
    apply list_elem_of_singleton in Ho'. subst o'. congruence.
  - intros o1 Ho1. now apply Hbound, Hsub.
  - intros b Hsome. rewrite Hthreads in Hsome.
    destruct (decide (a = b)) as [<- | Hne].
    + rewrite lookup_delete_eq in Hsome. now destruct Hsome.
    + rewrite lookup_delete_ne in Hsome by exact Hne. now apply Hthr.
  - intros sites b Hle. rewrite Hcount. now apply Hfut.
  - intros o1 Ho1. apply elem_of_llist_remove in Ho1 as [_ Ho1].
    now apply Hpipe.
  - intros o1 Ho1. rewrite Hcount. now apply Hout, Hsub.
  - intros o1 Ho1. apply elem_of_llist_remove in Ho1 as [Hne Ho1].
    rewrite Hcount, Hthreads, lookup_delete_ne by congruence.
    now apply Hwk.
  - intros o1 Ho1. rewrite Hcount.
    apply elem_of_app in Ho1 as [Ho1 | Ho1]; [now apply Hret |].
    apply list_elem_of_singleton in Ho1. subst o1.
    destruct (Hwk o Ho) as (H1 & H2 & _ & H4).
    split_and!; try assumption.
    apply H4. now rewrite Ha.
Qed.

Lemma cb_inv_step s l s' : basic_inv s → cb_inv s → step s l s' → cb_inv s'.
Proof.
  intros Hb Hc Hstep.
  destruct (step_classify s l s' Hb Hstep)
    as [ evs H1 H2 H3 H4 H5 H6 H7
       | o evs H1 H2 H3 H4 H5 H6 H7 H8 H9
       | sel site status H1 H2 H3 H4 H5 H6 H7
       | a o ret called H1 H2 H3 H4 H5 H6 H7 H8 H9
       | a o evs H1 H2 H3 H4 H5 H6 H7 H8 H9 ].
  - exact (cb_inv_quiet s s' evs Hc H1 H2 H3 H4 H5 H6 H7).
  - exact (cb_inv_accept s s' o evs Hc H1 H2 H3 H4 H5 H6 H7 H8 H9).
  - exact (cb_inv_mark s s' sel site status Hc H1 H2 H3 H4 H5 H6 H7).
  - exact (cb_inv_finish s s' a o ret called Hc H1 H2 H3 H4 H5 H6 H7 H8 H9).
  - exact (cb_inv_unregister s s' a o evs Hc H1 H2 H3 H4 H5 H6 H7 H8 H9).
Qed.

Lemma reachable_cb_inv s : reachable s → cb_inv s.
Proof.
  induction 1 as [c0 e c Hopen | s l s' Hreach IH Hstep].
  - apply cb_inv_init. exact (driver_open_registry c0 e c Hopen).
  - exact (cb_inv_step s l s' (reachable_basic_inv s Hreach) IH Hstep).
Qed.

(** ** Running the system *)

(** One move of one party, with the answers of the environment it uses: a
    call of [driver_open]; a play call; a cancel call; the next step of the
    destroying caller (or a call of [driver_destroy] on a closed context); the
    next step of the worker of the request named [a] ([malloc_ok] is
    used by its first step, [e] by a turn of its loop). *)
Inductive action : Type :=
| AOpen (e : open_env)
| APlay (id : Z) (proplist cb userdata : option nat) (e : play_env)
| ACancel (id : Z)
| ADestroy
| AWorker (a : nat) (malloc_ok : bool) (e : iter_env).

Definition find_request (a : nat) (l : list outstanding)
  : option outstanding :=
  head (filter (λ o, o_addr o = a) l).

Definition poll_ok_b (o : outstanding) (e : iter_env) : bool :=
  Bool.eqb (negb (revents0 (ie_poll e) =? 0)) (o_pipe_fd1 o <? 0).

(** The answers of a turn, with the answer [poll] has given already. *)
Definition with_poll (e : iter_env) (pr : poll_res) : iter_env :=
  {| ie_poll := pr; ie_read := ie_read e; ie_write := ie_write e |}.

(** The state after the move, when the move is possible. *)
Definition exec (s : system) (act : action) : option system :=
  match act with
  | AOpen e =>
      match driver_open (Some (sys_ctx s)) e with
      | (ret, Some c') =>
          Some (with_destroy s c'
                  (if is_error ret then sys_destroy s else DIdle) [])
      | _ => None
      end
  | APlay id proplist cb userdata e =>
      if bool_decide (pe_new e = None ∨ pe_new e = Some (sys_next s)) then
        match driver_play (Some (sys_ctx s)) id proplist cb userdata e with
        | PlayReturn ret (Some c') evs thread =>
            Some {| sys_ctx := c';
                    sys_threads :=
                      match thread with
                      | Some a => <[a := WStart]> (sys_threads s)
                      | None => sys_threads s
                      end;
                    sys_destroy := sys_destroy s;
                    sys_trace := sys_trace s ++ evs;
                    sys_retired := sys_retired s;
                    sys_next := S (sys_next s) |}
        | _ => None
        end
      else None
  | ACancel id =>
      match driver_cancel (Some (sys_ctx s)) id with
      | (_, Some c', evs) => Some (with_ctx s c' evs)
      | _ => None
      end
  | ADestroy =>
      match sys_destroy s, c_private (sys_ctx s) with
      | DIdle, Some _ =>
          match driver_destroy (Some (sys_ctx s)) with
          | DestroyReturn _ (Some c') evs => Some (with_destroy s c' DDone evs)
          | DestroyWait c' evs => Some (with_destroy s c' DWait evs)
          | _ => None
          end
      | DWait, Some p =>
          match p_semaphore p with
          | S n =>
              Some (with_destroy s
                      (set_private (sys_ctx s) (Some (set_semaphore p n)))
                      DWoken [])
          | O => None
          end
      | DWoken, Some p =>
          match destroy_wait_loop (sys_ctx s) p [] with
          | DestroyReturn _ (Some c') evs => Some (with_destroy s c' DDone evs)
          | DestroyWait c' evs => Some (with_destroy s c' DWait evs)
          | _ => None
          end
      | DDone, _ =>
          match driver_destroy (Some (sys_ctx s)) with
          | DestroyReturn _ (Some c') evs => Some (with_destroy s c' DDone evs)
          | _ => None
          end
      | _, _ => None
      end
  | AWorker a malloc_ok e =>
      match sys_threads s !! a, find_request a (registry s) with
      | Some pc, Some o =>
          match pc with
          | WStart =>
              match o_file o with
              | Some f =>
                  Some (with_thread s a
                          (if malloc_ok
                           then WLoop (data_size (sf_frame_size f)) 0 0
                           else WFinish CA_ERROR_OOM) [])
              | None => None
              end
          | WLoop ds nbytes d =>
              Some (with_thread s a
                      (if o_dead o then WFinish CA_SUCCESS
                       else WPoll ds nbytes d) [])
          | WPoll ds nbytes d =>
              if poll_ok_b o e then
                Some (with_thread s a (WPolled ds nbytes d (ie_poll e)) [])
              else None
          | WPolled ds nbytes d pr =>
              Some (with_thread s a
                      (after_body
                         (loop_body o ds nbytes d (with_poll e pr)) ds).1
                      (after_body
                         (loop_body o ds nbytes d (with_poll e pr)) ds).2)
          | WFinish ret =>
              Some (with_thread s a
                      (if o_dead o then WUnregister else WCall ret) [])
          | WCall ret =>
              Some (with_thread s a WUnregister (call_back ByWorker ret o))
          | WUnregister =>
              match c_private (sys_ctx s) with
              | Some p =>
                  Some {| sys_ctx :=
                            set_private (sys_ctx s)
                                        (Some (thread_unregister p o).1);
                          sys_threads := delete a (sys_threads s);
                          sys_destroy := sys_destroy s;
                          sys_trace :=
                            sys_trace s ++ (thread_unregister p o).2;
                          sys_retired := sys_retired s ++ [o];
                          sys_next := sys_next s |}
              | None => None
              end
          end
      | _, _ => None
      end
  end.

Fixpoint run (s : system) (acts : list action) : option system :=
  match acts with
  | [] => Some s
  | act :: acts =>
      match exec s act with
      | Some s' => run s' acts
      | None => None
      end
  end.

Lemma find_request_Some a l o :
  find_request a l = Some o → o ∈ l ∧ o_addr o = a.
Proof.
  unfold find_request. intros H.
  assert (Hin : o ∈ filter (λ o, o_addr o = a) l).
  { destruct (filter (λ o, o_addr o = a) l) as [|o1 l1]; [discriminate |].
    inversion H; subst. left. }
  apply list_elem_of_filter in Hin as [Ha Hin]. now split.
Qed.

Lemma poll_ok_b_ok o e : poll_ok_b o e = true → poll_ok o e.
Proof.
  unfold poll_ok_b, poll_ok. intros H. apply Bool.eqb_prop in H.
  destruct (Z.eqb_spec (revents0 (ie_poll e)) 0),
           (Z.ltb_spec (o_pipe_fd1 o) 0); simpl in H;
    try discriminate; split; intros; try lia; try contradiction.
Qed.

(** Every move [exec] makes is a step of the system. *)
Lemma exec_step s act s' : exec s act = Some s' → ∃ l, step s l s'.
Proof.
  destruct act as [e | id pl cb ud e | id | | a mok e]; unfold exec.
  - destruct (driver_open (Some (sys_ctx s)) e) as [ret [c'|]] eqn:Hopen;
      [| discriminate].
    intros H. inversion H; subst; clear H.
    eexists. eapply step_open. exact Hopen.
  - case_bool_decide as Hok; [| discriminate].
    destruct (driver_play (Some (sys_ctx s)) id pl cb ud e) as [ret [c'|] evs th | evs] eqn:Hplay;
      try discriminate.
    intros H. inversion H; subst; clear H.
    eexists. eapply step_play; [exact Hok | exact Hplay].
  - destruct (driver_cancel (Some (sys_ctx s)) id) as [[ret [c'|]] evs] eqn:Hc;
      [| discriminate].
    intros H. inversion H; subst; clear H.
    eexists. eapply step_cancel. exact Hc.
  - destruct (sys_destroy s) eqn:Hd;
      destruct (c_private (sys_ctx s)) as [p|] eqn:Hp; try discriminate.
    + destruct (driver_destroy (Some (sys_ctx s))) as [ret [c'|] evs | c' evs] eqn:Hdes;
        try discriminate; intros H; inversion H; subst; clear H; eexists.
      * eapply step_destroy_return; try eassumption. now rewrite Hp.
      * eapply step_destroy_wait; eassumption.
    + destruct (p_semaphore p) as [|n] eqn:Hn; [discriminate |].
      intros H. inversion H; subst; clear H.
      eexists. eapply step_destroy_wake; eassumption.
    + destruct (destroy_wait_loop (sys_ctx s) p []) as [ret [c'|] evs | c' evs] eqn:Hl;
        try discriminate; intros H; inversion H; subst; clear H; eexists.
      * eapply step_destroy_recheck_return; eassumption.
      * eapply step_destroy_recheck_wait; eassumption.
    + destruct (driver_destroy (Some (sys_ctx s))) as [ret [c'|] evs | c' evs] eqn:Hdes;
        try discriminate; intros H; inversion H; subst; clear H; eexists.
      eapply step_destroy_closed; eassumption.
    + destruct (driver_destroy (Some (sys_ctx s))) as [ret [c'|] evs | c' evs] eqn:Hdes;
        try discriminate; intros H; inversion H; subst; clear H; eexists.
      eapply step_destroy_closed; eassumption.
  - destruct (sys_threads s !! a) as [pc|] eqn:Hth; [| discriminate].
    destruct (find_request a (registry s)) as [o|] eqn:Hfind;
      [| discriminate].
    apply find_request_Some in Hfind as [Ho Ha].
    destruct pc as [| ds nb d | ds nb d | ds nb d pr | ret | ret |].
    + destruct (o_file o) as [f|] eqn:Hf; [| discriminate].
      intros H. inversion H; subst; clear H.
      eexists. eapply step_worker_start; try eassumption; reflexivity.
    + intros H. inversion H; subst; clear H.
      eexists. eapply step_worker_test; try eassumption; reflexivity.
    + destruct (poll_ok_b o e) eqn:Hpoll; [| discriminate].
      intros H. inversion H; subst; clear H.
      eexists. eapply step_worker_poll; try eassumption; try reflexivity.
      now apply poll_ok_b_ok.
    + intros H. inversion H; subst; clear H.
      eexists.
      exact (step_worker_body s (o_addr o) o ds nb d (with_poll e pr)
               Hth Ho eq_refl).
    + intros H. inversion H; subst; clear H.
      eexists. eapply step_worker_finish; try eassumption; reflexivity.
    + intros H. inversion H; subst; clear H.
      eexists. eapply step_worker_callback; try eassumption; reflexivity.
    + destruct (c_private (sys_ctx s)) as [p|] eqn:Hp; [| discriminate].
      intros H. inversion H; subst; clear H.
      eexists. eapply step_worker_unregister; try eassumption; try reflexivity.
      unfold registry in Ho. now rewrite Hp in Ho.
Qed.

Lemma run_reachable acts : ∀ s s',
  reachable s → run s acts = Some s' → reachable s'.
Proof.
  induction acts as [|act acts IH]; intros s s' Hs Hrun; simpl in Hrun.
  - now inversion Hrun; subst.
  - destruct (exec s act) as [s1|] eqn:Hexec; [| discriminate].
    destruct (exec_step _ _ _ Hexec) as [l Hstep].
    exact (IH s1 s' (reach_step s l s1 Hs Hstep) Hrun).
Qed.

Lemma reachable_opened : reachable (init_system ctx_open).
Proof. exact (reach_open _ _ _ (proj1 driver_open_ok)). Qed.

(** ** Scenarios *)

(** A turn of the loop in which the source is at its end. *)
Definition eof_turn : iter_env :=
  {| ie_poll := {| poll_rv := 1; revents0 := 0; revents1 := POLLOUT |};
     ie_read := {| rd_ret := CA_SUCCESS; rd_nbytes := 0 |};
     ie_write := {| wr_rv := 0; wr_errno := EOTHER 0 |} |}.

(** A turn in which the device takes [n] bytes of the [got] read. *)
Definition write_turn (got n : Z) : iter_env :=
  {| ie_poll := {| poll_rv := 1; revents0 := 0; revents1 := POLLOUT |};
     ie_read := {| rd_ret := CA_SUCCESS; rd_nbytes := got |};
     ie_write := {| wr_rv := n; wr_errno := EOTHER 0 |} |}.

(** The next step of the worker of the request named [a]. *)
Definition worker (a : nat) : action := AWorker a true eof_turn.

Definition play (id : Z) (cb : option nat) (a : nat) : action :=
  APlay id (Some 0%nat) cb None (play_env_good a).

(** A worker from its start to the end of its source, which it finds at
    once: [ca_malloc], the test of [out->dead], [poll], the read of 0
    bytes, and the test of [out->dead] at [finish]. *)
Definition to_finish (a : nat) : list action :=
  [worker a; worker a; worker a; worker a; worker a].

(** A request without a callback that plays to the end of its source. *)
Definition run_silent : list action :=
  play 7 None 0 :: to_finish 0 ++ [worker 0; worker 0].

(** A request with a callback that plays to the end of its source, after
    one turn in which it writes a buffer. *)
Definition run_to_end : list action :=
  [play 7 (Some 1%nat) 0; worker 0; worker 0;
   AWorker 0 true (write_turn 4096 4096);
   AWorker 0 true (write_turn 4096 4096);
   worker 0; worker 0; worker 0; worker 0; worker 0; worker 0].

(** A request whose worker has reached the end of its source and made its
    callback, and has not taken the mutex yet. *)
Definition late_window : list action :=
  play 9 (Some 1%nat) 0 :: to_finish 0 ++ [worker 0].

(** [driver_cancel] is called in that window; then the worker leaves. *)
Definition run_late_cancel : list action :=
  late_window ++ [ACancel 9; worker 0].

(** A request whose worker has found [out->dead] false at [finish] and has
    not made its callback yet. *)
Definition early_window : list action :=
  play 9 (Some 1%nat) 0 :: to_finish 0.

(** [driver_cancel] is called in that window; then the worker makes its
    callback and leaves. *)
Definition run_early_cancel : list action :=
  early_window ++ [ACancel 9; worker 0; worker 0].

(** [driver_destroy] called while a request is in the middle of its source:
    the destroying caller waits until the worker has left. *)
Definition run_destroy : list action :=
  [play 11 (Some 1%nat) 0; worker 0; worker 0;
   AWorker 0 true (write_turn 4096 1000);
   AWorker 0 true (write_turn 4096 1000);
   ADestroy; worker 0; worker 0; worker 0; ADestroy; ADestroy].

(** The request of [run_to_end] as its worker leaves it. *)
Definition request_playing_7 : outstanding :=
  {| o_addr := 0%nat; o_dead := false; o_id := 7; o_callback := Some 1%nat;
     o_userdata := None; o_file := Some mono_44100; o_pcm := 5;
     o_pipe_fd0 := 3; o_pipe_fd1 := 4 |}.

(** The request of [late_window] and [early_window]. *)
Definition request_playing_9 : outstanding :=
  {| o_addr := 0%nat; o_dead := false; o_id := 9; o_callback := Some 1%nat;
     o_userdata := None; o_file := Some mono_44100; o_pcm := 5;
     o_pipe_fd0 := 3; o_pipe_fd1 := 4 |}.

Definition final (acts : list action) : system :=
  match run (init_system ctx_open) acts with
  | Some s => s
  | None => init_system ctx_open
  end.

Lemma final_reachable acts :
  is_Some (run (init_system ctx_open) acts) → reachable (final acts).
Proof.
  unfold final. intros [s Hs]. rewrite Hs.
  exact (run_reachable acts _ s reachable_opened Hs).
Qed.

Definition callback_events (evs : list event) : list event :=
  List.filter is_callback evs.

Example run_to_end_result :
  callback_events (sys_trace (final run_to_end))
  = [EvCallback ByWorker 0 1 7 CA_SUCCESS None] ∧
  registry (final run_to_end) = [] ∧
  o_addr <$> sys_retired (final run_to_end) = [0%nat] ∧
  sys_threads (final run_to_end) = ∅.
Proof. vm_compute. repeat split. Qed.

Example run_destroy_result :
  callback_events (sys_trace (final run_destroy))
  = [EvCallback ByDestroy 0 1 11 CA_ERROR_DESTROYED None] ∧
  sys_destroy (final run_destroy) = DDone ∧
  c_private (sys_ctx (final run_destroy)) = None ∧
  o_addr <$> sys_retired (final run_destroy) = [0%nat].
Proof. vm_compute. repeat split. Qed.

(** The destroying caller cannot go on while the worker is still there. *)
Example run_destroy_blocks :
  run (init_system ctx_open)
      [play 11 (Some 1%nat) 0; worker 0; ADestroy; ADestroy] = None.
Proof. vm_compute. reflexivity. Qed.

(** ** Exactly one callback? *)

(** The claim that every request that has been accepted and has completed
    has received exactly one callback. *)
Definition exactly_one_callback : Prop :=
  ∀ s, reachable s → ∀ o, o ∈ sys_retired s →
    callbacks (o_addr o) (sys_trace s) = 1%nat.

(** A [driver_cancel] that runs between the worker's test of [out->dead]
    and its callback calls back first; the worker's callback follows. *)
Example early_cancel_calls_back_twice :
  ∃ s o, reachable s ∧ sys_retired s = [o] ∧
         callback_events (sys_trace s)
         = [EvCallback ByCancel (o_addr o) 1 9 CA_ERROR_CANCELED None;
            EvCallback ByWorker (o_addr o) 1 9 CA_SUCCESS None] ∧
         callbacks (o_addr o) (sys_trace s) = 2%nat.
Proof.
  exists (final run_early_cancel). eexists.
  split; [apply final_reachable; vm_compute; eauto |].
  vm_compute. repeat split.
Qed.

(** A play call without a callback (and without user data) is accepted; its
    request plays to the end, leaves the registry, and no callback has been
    made. *)
Lemma play_without_callback_gets_none :
  (∃ s o, reachable s ∧ sys_retired s = [o] ∧ o_id o = 7 ∧
          o_callback o = None ∧ registry s = [] ∧
          callbacks (o_addr o) (sys_trace s) = 0%nat) ∧
  ¬ exactly_one_callback.
Proof.
  assert (Hex : ∃ s o, reachable s ∧ sys_retired s = [o] ∧ o_id o = 7 ∧
                       o_callback o = None ∧ registry s = [] ∧
                       callbacks (o_addr o) (sys_trace s) = 0%nat).
  { exists (final run_silent). eexists.
    split; [apply final_reachable; vm_compute; eauto |].
    vm_compute. repeat split. }
  split; [exact Hex |].
  destruct Hex as (s & o & Hr & Hret & _ & _ & _ & Hnone).
  intros Hone. specialize (Hone s Hr o).
  rewrite Hret, Hnone in Hone.
  specialize (Hone (list_elem_of_here o [])). discriminate.
Qed.

(** The worker makes its callback without the mutex and without marking the
    request; a [driver_cancel] that runs before the worker has taken the
    request off the registry finds it not dead and calls back again. *)
Example late_cancel_calls_back_twice :
  ∃ s o, reachable s ∧ sys_retired s = [o] ∧
         callback_events (sys_trace s)
         = [EvCallback ByWorker (o_addr o) 1 9 CA_SUCCESS None;
            EvCallback ByCancel (o_addr o) 1 9 CA_ERROR_CANCELED None] ∧
         callbacks (o_addr o) (sys_trace s) = 2%nat.
Proof.
  exists (final run_late_cancel). eexists.
  split; [apply final_reachable; vm_compute; eauto |].
  vm_compute. repeat split.
Qed.

(** The flag [dead] of a request is never reset. *)
Lemma dead_never_resets s l s' o o' :
  reachable s → step s l s' →
  o ∈ registry s → o_dead o = true →
  o' ∈ registry s' → o_addr o' = o_addr o →
  o_dead o' = true.
Proof.
  intros Hreach Hstep Ho Hd Ho' Haddr.
  pose proof (reachable_basic_inv s Hreach) as Hb.
  pose proof (reachable_cb_inv s Hreach) as Hc.
  pose proof (ci_nodup s Hc) as Hnd.
  assert (Hsame : o' ∈ registry s → o_dead o' = true).
  { intros Hin. now rewrite (NoDup_addr_eq _ _ _ Hnd Hin Ho Haddr). }
  destruct (step_classify s l s' Hb Hstep)
    as [ evs H1 _ _ _ _ _ _
       | o1 evs H1 H2 _ _ _ _ _ _ _
       | sel site status H1 _ _ _ _ _ _
       | a o1 ret called H1 _ _ _ _ _ _ _ _
       | a o1 evs H1 _ _ _ _ _ _ _ _ ];
    rewrite H1 in Ho'.
  - now apply Hsame.
  - apply elem_of_cons in Ho' as [-> | Ho']; [| now apply Hsame].
    assert (o_addr o < sys_next s)%nat
      by (apply (ci_bound s Hc), elem_of_app; now left). lia.
  - apply elem_of_marked in Ho' as (o2 & Ho2 & ->).
    assert (o_addr o2 = o_addr o)
      by (rewrite <- Haddr; now destruct (sel o2)).
    rewrite (NoDup_addr_eq _ _ _ Hnd Ho2 Ho) by assumption.
    now destruct (sel o).
  - now apply Hsame.
  - apply elem_of_llist_remove in Ho' as [_ Ho']. now apply Hsame.
Qed.

(** What a marking loop adds to the callbacks of a registered request. *)
Lemma callbacks_after_mark s sel site status o :
  cb_inv s → o ∈ registry s →
  callbacks (o_addr o)
            (sys_trace s ++ mark_effects sel site status (registry s))
  = (callbacks (o_addr o) (sys_trace s)
     + if sel o && has_callback o then 1 else 0)%nat.
Proof.
  intros Hc Ho. unfold callbacks.
  rewrite count_callbacks_app.
  now rewrite (count_mark_present _ _ _ _ _ _ (ci_nodup s Hc) Ho).
Qed.

(** C1.  The code does not keep to "never more than one".  The worker
    reads [out->dead] at [finish] without the mutex and does not set it, and
    it takes the request off the registry only later.  So for a request
    that has a callback and is not dead:
    when its worker has made its callback and has not taken the mutex yet,
    the request has been called back once, and a [driver_cancel] with its
    id, or a [driver_destroy], calls it back a second time;
    when its worker has found [out->dead] false and has not made its
    callback yet, the request has not been called back, a [driver_cancel]
    with its id calls it back, and the next step of the worker calls it
    back a second time.
    More than two callbacks a request never gets: its worker makes at most
    one, [driver_cancel] and [driver_destroy] together at most one. *)
Theorem callback_delivered_twice s :
  reachable s →
  (∀ o, o ∈ registry s ++ sys_retired s →
     (worker_callbacks (o_addr o) (sys_trace s) <= 1)%nat ∧
     (outside_callbacks (o_addr o) (sys_trace s) <= 1)%nat ∧
     (callbacks (o_addr o) (sys_trace s) <= 2)%nat) ∧
  (∀ o, o ∈ registry s → has_callback o = true → o_dead o = false →
     (sys_threads s !! o_addr o = Some WUnregister →
      callbacks (o_addr o) (sys_trace s) = 1%nat ∧
      (∀ s', step s (LCancel (o_id o)) s' →
         callbacks (o_addr o) (sys_trace s') = 2%nat) ∧
      (∀ s', sys_destroy s = DIdle → step s LDestroy s' →
         callbacks (o_addr o) (sys_trace s') = 2%nat)) ∧
     (∀ ret, sys_threads s !! o_addr o = Some (WCall ret) →
      callbacks (o_addr o) (sys_trace s) = 0%nat ∧
      ∀ s1 s2, step s (LCancel (o_id o)) s1 →
               step s1 (LWorker (o_addr o)) s2 →
               callbacks (o_addr o) (sys_trace s2) = 2%nat)).
Proof.
  intros Hreach.
  pose proof (reachable_basic_inv s Hreach) as Hb.
  pose proof (reachable_cb_inv s Hreach) as Hc.
  split.
  - intros o Ho.
    pose proof (ci_outside s Hc o Ho) as Hout.
    assert (Hw : (worker_callbacks (o_addr o) (sys_trace s) <= 1)%nat).
    { apply elem_of_app in Ho as [Ho | Ho].
      - now destruct (ci_worker s Hc o Ho).
      - now destruct (ci_retired s Hc o Ho). }
    assert (Ho1 : (outside_callbacks (o_addr o) (sys_trace s) <= 1)%nat).
    { rewrite Hout. destruct (o_dead o && has_callback o); lia. }
    split; [exact Hw |]. split; [exact Ho1 |].
    rewrite callbacks_split. lia.
  - intros o Ho Hcb Hd.
    assert (Hin : o ∈ registry s ++ sys_retired s)
      by (apply elem_of_app; now left).
    pose proof (ci_outside s Hc o Hin) as Hout.
    rewrite Hd in Hout. simpl in Hout.
    destruct (ci_worker s Hc o Ho) as (_ & _ & Hw0 & Hw1).
    assert (Hp : ∃ p, c_private (sys_ctx s) = Some p).
    { destruct (c_private (sys_ctx s)) as [p|] eqn:Hp; [now exists p |].
      unfold registry in Ho. rewrite Hp in Ho.
      now apply elem_of_nil in Ho. }
    destruct Hp as [p Hp].
    assert (Hcancel : ∀ s', step s (LCancel (o_id o)) s' →
              sys_threads s' = sys_threads s ∧
              callbacks (o_addr o) (sys_trace s')
              = S (callbacks (o_addr o) (sys_trace s))).
    { intros s' Hstep.
      inversion Hstep as [ | | s0 id ret c' evs Hcan | | | | | | | | | | | | | ];
        subst.
      rewrite (driver_cancel_open _ _ _ Hp) in Hcan.
      inversion Hcan; subst ret c' evs. simpl. split; [reflexivity |].
      rewrite <- (registry_open _ _ Hp).
      rewrite (callbacks_after_mark s _ _ _ o Hc Ho), Hcb.
      unfold live_match. rewrite Z.eqb_refl, Hd. simpl. lia. }
    split.
    + intros Hth.
      assert (H1 : callbacks (o_addr o) (sys_trace s) = 1%nat).
      { rewrite callbacks_split, Hout, (Hw1 Hth Hcb Hd). reflexivity. }
      split; [exact H1 |]. split.
      * intros s' Hstep. destruct (Hcancel s' Hstep) as [_ ->].
        now rewrite H1.
      * intros s' Hidle Hstep.
        destruct (destroy_steps s LDestroy s' Hb Hstep)
          as (_ & _ & _ & Hmark & _).
        destruct (Hmark eq_refl Hidle) as [-> _].
        rewrite (callbacks_after_mark s _ _ _ o Hc Ho), Hcb, H1.
        unfold live. now rewrite Hd.
    + intros ret Hth.
      assert (H0 : callbacks (o_addr o) (sys_trace s) = 0%nat).
      { rewrite callbacks_split, Hout, Hw0; [reflexivity |].
        rewrite Hth. discriminate. }
      split; [exact H0 |].
      intros s1 s2 Hstep1 Hstep2.
      destruct (Hcancel s1 Hstep1) as [Hth1 Hc1].
      rewrite H0 in Hc1.
      pose proof (reachable_cb_inv s1 (reach_step _ _ _ Hreach Hstep1))
        as Hci1.
      rewrite <- Hth1 in Hth.
      inversion Hstep2 as
        [ | | | | | | | |
        | s0 a0 o0 f mok Hth0 Ho0 Ha0 Hf
        | s0 a0 o0 ds nb d Hth0 Ho0 Ha0
        | s0 a0 o0 ds nb d e Hth0 Ho0 Ha0 Hpoll
        | s0 a0 o0 ds nb d e Hth0 Ho0 Ha0
        | s0 a0 o0 ret0 Hth0 Ho0 Ha0
        | s0 a0 o0 ret0 Hth0 Ho0 Ha0
        | s0 a0 o0 p0 Hth0 Hp0 Ho0 Ha0 ]; subst; try congruence.
      simpl. unfold callbacks in *.
      rewrite count_callbacks_app, Hc1, count_call_back.
      rewrite Ha0, bool_decide_eq_true_2 by reflexivity.
      assert (Hcb0 : has_callback o0 = true).
      { destruct (ci_worker s1 Hci1 o0 Ho0) as (_ & Hno & _).
        destruct (has_callback o0) eqn:Hh; [reflexivity |].
        pose proof (ci_outside s1 Hci1 o0
                      (proj2 (elem_of_app _ _ _) (or_introl Ho0))) as Hout0.
        rewrite Hh, andb_false_r in Hout0.
        specialize (Hno eq_refl).
        assert (Hsum : count_callbacks (λ _, true) (o_addr o0) (sys_trace s1)
                       = 1%nat) by (rewrite Ha0; exact Hc1).
        change (callbacks (o_addr o0) (sys_trace s1) = 1%nat) in Hsum.
        rewrite callbacks_split, Hno, Hout0 in Hsum. discriminate. }
      rewrite Hcb0. reflexivity.
Qed.

Lemma callback_delivered_twice_witness :
  callbacks 0 (sys_trace (final late_window)) = 1%nat ∧
  ∃ s', step (final late_window) (LCancel 9) s' ∧
        callbacks 0 (sys_trace s') = 2%nat.
Proof.
  assert (Hr : reachable (final late_window))
    by (apply final_reachable; vm_compute; eauto).
  destruct (callback_delivered_twice (final late_window) Hr) as [_ H].
  assert (Hin : request_playing_9 ∈ registry (final late_window))
    by (vm_compute; left).
  destruct (H request_playing_9 Hin eq_refl eq_refl) as [Hlate _].
  destruct Hlate as (H1 & Hcancel & _); [vm_compute; reflexivity |].
  split; [exact H1 |].
  assert (Hstep : ∃ s', step (final late_window) (LCancel 9) s').
  { eexists. eapply step_cancel. reflexivity. }
  destruct Hstep as [s' Hstep].
  exists s'. split; [exact Hstep | exact (Hcancel s' Hstep)].
Defined.

Lemma driver_destroy_drains_witness :
  ∃ s', step (final [play 11 (Some 1%nat) 0; worker 0; ADestroy;
                     worker 0; worker 0; worker 0; ADestroy])
             LDestroy s' ∧ sys_destroy s' = DDone.
Proof.
  assert (Hr : reachable (final [play 11 (Some 1%nat) 0; worker 0; ADestroy;
                                 worker 0; worker 0; worker 0; ADestroy]))
    by (apply final_reachable; vm_compute; eauto).
  destruct (driver_destroy_drains _ Hr) as (_ & _ & Hdone).
  apply Hdone; vm_compute; reflexivity.
Defined.

(** * Further properties of the sequential functions *)

(** ** open_oss: what a success takes, and what is left open *)

Definition closes (ev : event) : bool :=
  match ev with EvClose _ | EvSoundClose _ => true | _ => false end.

(** X1.  [open_oss] returns [CA_SUCCESS] only when the source has at most
    two channels, each of its six system calls has succeeded, the device has
    accepted the proposed encoding and channel count unchanged and a rate
    the test lets pass; the descriptor stored in [out->pcm] is then the one
    [open] returned, and it is not negative. *)
Theorem open_oss_success_only_if c out e fdo evs :
  open_oss c out e = Some (CA_SUCCESS, fdo, evs) →
  ∃ ctx o f,
    c = Some ctx ∧ out = Some o ∧ o_file o = Some f ∧
    sf_nchannels f <= 2 ∧
    0 <= rv (oe_open e) ∧ fdo = Some (rv (oe_open e)) ∧
    0 <= rv (oe_getfl e) ∧ 0 <= rv (oe_setfl e) ∧
    0 <= io_rv (oe_setfmt e) ∧
    io_val (oe_setfmt e) = afmt_of (oe_little_endian e) (sf_sample_type f) ∧
    0 <= io_rv (oe_channels e) ∧
    io_val (oe_channels e) = int_wrap (sf_nchannels f) ∧
    0 <= io_rv (oe_speed e) ∧
    rate_too_far (io_val (oe_speed e)) (int_wrap (sf_rate f)) = false.
Proof.
  unfold open_oss. intros H.
  destruct c as [ctx|]; [| discriminate].
  destruct (c_private ctx); [| discriminate].
  destruct out as [o|]; [| discriminate].
  destruct (o_file o) as [f|] eqn:Hf; [| discriminate].
  exists ctx, o, f.
  destruct (Z.leb_spec (sf_nchannels f) 2); [| discriminate]. simpl in H.
  destruct (Z.ltb_spec (rv (oe_open e)) 0);
    [inversion H as [[Ht _ _]]; now destruct (err (oe_open e)) |].
  destruct (Z.ltb_spec (rv (oe_getfl e)) 0);
    [inversion H as [[Ht _ _]]; now destruct (err (oe_getfl e)) |].
  destruct (Z.ltb_spec (rv (oe_setfl e)) 0);
    [inversion H as [[Ht _ _]]; now destruct (err (oe_setfl e)) |].
  destruct (Z.ltb_spec (io_rv (oe_setfmt e)) 0);
    [inversion H as [[Ht _ _]]; now destruct (io_err (oe_setfmt e)) |].
  destruct (Z.eqb_spec (io_val (oe_setfmt e))
              (afmt_of (oe_little_endian e) (sf_sample_type f)));
    [| discriminate]. simpl in H.
  destruct (Z.ltb_spec (io_rv (oe_channels e)) 0);
    [inversion H as [[Ht _ _]]; now destruct (io_err (oe_channels e)) |].
  destruct (Z.eqb_spec (io_val (oe_channels e))
              (int_wrap (sf_nchannels f))); [| discriminate]. simpl in H.
  destruct (Z.ltb_spec (io_rv (oe_speed e)) 0);
    [inversion H as [[Ht _ _]]; now destruct (io_err (oe_speed e)) |].
  destruct (rate_too_far (io_val (oe_speed e)) (int_wrap (sf_rate f)))
    eqn:Hrate; [discriminate |].
  inversion H; subst. repeat split; try assumption; try lia.
Qed.

Lemma open_oss_success_only_if_witness :
  ∃ ctx o f,
    Some ctx_open = Some ctx ∧
    Some (request_of 0 mono_44100) = Some o ∧ o_file o = Some f ∧
    sf_nchannels f <= 2 ∧
    0 <= rv (oe_open (oss_accepts 46000)) ∧
    Some 5 = Some (rv (oe_open (oss_accepts 46000))) ∧
    0 <= rv (oe_getfl (oss_accepts 46000)) ∧
    0 <= rv (oe_setfl (oss_accepts 46000)) ∧
    0 <= io_rv (oe_setfmt (oss_accepts 46000)) ∧
    io_val (oe_setfmt (oss_accepts 46000))
    = afmt_of (oe_little_endian (oss_accepts 46000)) (sf_sample_type f) ∧
    0 <= io_rv (oe_channels (oss_accepts 46000)) ∧
    io_val (oe_channels (oss_accepts 46000)) = int_wrap (sf_nchannels f) ∧
    0 <= io_rv (oe_speed (oss_accepts 46000)) ∧
    rate_too_far (io_val (oe_speed (oss_accepts 46000)))
                 (int_wrap (sf_rate f)) = false.
Proof.
  exact (open_oss_success_only_if (Some ctx_open)
           (Some (request_of 0 mono_44100)) (oss_accepts 46000) (Some 5)
           (negotiated ctx_open 5 [(SNDCTL_DSP_SETFMT, 16);
                                   (SNDCTL_DSP_CHANNELS, 1);
                                   (SNDCTL_DSP_SPEED, 44100)])
           eq_refl).
Defined.

(** X2.  Whatever [open_oss] returns, it has closed nothing, and it has
    opened exactly the descriptor it stored in [out->pcm] when that is not
    negative, and nothing otherwise: after a failure that follows a
    successful [open], the device is still open and it is the caller who has
    to close it. *)
Theorem open_oss_never_closes c out e ret fdo evs :
  open_oss c out e = Some (ret, fdo, evs) →
  Forall (λ ev, closes ev = false) evs ∧
  List.filter opens_device evs
  = match c, fdo with
    | Some ctx, Some fd =>
        if 0 <=? fd then [EvOpen (device_path ctx) fd] else []
    | _, _ => []
    end.
Proof.
  unfold open_oss. intros H.
  destruct c as [ctx|]; [| inversion H; subst; split; [constructor | done]].
  repeat match type of H with
         | match ?x with _ => _ end = _ => destruct x eqn:?; simpl in H
         | (if ?b then _ else _) = _ => destruct b eqn:?; simpl in H
         end;
    try discriminate; inversion H; subst; clear H;
    (split; [repeat constructor |]); simpl;
    repeat ztest; try reflexivity; try lia.
Qed.

Lemma open_oss_never_closes_witness :
  Forall (λ ev, closes ev = false)
         (negotiated ctx_open 5 [(SNDCTL_DSP_SETFMT, 16);
                                 (SNDCTL_DSP_CHANNELS, 1);
                                 (SNDCTL_DSP_SPEED, 44100)]) ∧
  List.filter opens_device
              (negotiated ctx_open 5 [(SNDCTL_DSP_SETFMT, 16);
                                      (SNDCTL_DSP_CHANNELS, 1);
                                      (SNDCTL_DSP_SPEED, 44100)])
  = [EvOpen (device_path ctx_open) 5].
Proof.
  exact (open_oss_never_closes (Some ctx_open)
           (Some (request_of 0 mono_44100)) (oss_accepts 48000)
           CA_ERROR_NOTSUPPORTED (Some 5) _ eq_refl).
Defined.

(** ** driver_open and driver_destroy *)

(** X3.  [driver_open] is all or nothing.  It succeeds exactly when the
    context is there, names no driver or the driver "oss", is not open yet,
    and the three allocations (the private structure, the mutex, the
    semaphore) succeed; the context then carries a fresh private structure:
    no request, no theme, no drain pending, the semaphore at 0.  Whenever it
    fails, also after a part of the allocations, the context is left exactly
    as it was given. *)
Theorem driver_open_all_or_nothing c e ret c' :
  driver_open c e = (ret, c') →
  (ret = CA_SUCCESS ↔
   (∃ ctx, c = Some ctx ∧
           (c_driver ctx = None ∨ c_driver ctx = Some "oss"%string) ∧
           c_private ctx = None) ∧
   op_new e = true ∧ op_mutex e = true ∧ 0 <= op_sem_init e) ∧
  (ret = CA_SUCCESS →
   ∃ ctx, c = Some ctx ∧ c' = Some (set_private ctx (Some priv_open))) ∧
  (ret ≠ CA_SUCCESS → c' = c).
Proof.
  unfold driver_open.
  destruct c as [ctx|].
  2:{ intros H; inversion H; subst. split; [| split]; try done.
      split; [discriminate |]. intros ((ctx & Hc & _) & _). discriminate. }
  assert (Hdrv : (match c_driver ctx with
                  | None => true
                  | Some d => bool_decide (d = "oss"%string)
                  end = true)
                 ↔ (c_driver ctx = None ∨ c_driver ctx = Some "oss"%string)).
  { destruct (c_driver ctx) as [d|].
    - rewrite bool_decide_eq_true. split.
      + intros ->. now right.
      + intros [Hd | Hd]; [discriminate | now inversion Hd].
    - split; [now left | reflexivity]. }
  destruct (match c_driver ctx with
            | None => true
            | Some d => bool_decide (d = "oss"%string)
            end) eqn:Hd; simpl.
  2:{ intros H; inversion H; subst. split; [| split]; try done.
      split; [discriminate |].
      intros ((ctx' & Hc & Hdr & _) & _). inversion Hc; subst ctx'.
      apply Hdrv in Hdr. discriminate. }
  destruct (c_private ctx) as [p|] eqn:Hp; simpl.
  { intros H; inversion H; subst. split; [| split]; try done.
    split; [discriminate |].
    intros ((ctx' & Hc & _ & Hpr) & _). inversion Hc; subst ctx'.
    congruence. }
  destruct (op_new e) eqn:Hnew; simpl.
  2:{ intros H; inversion H; subst. split; [| split]; try done.
      split; [discriminate |]. intros (_ & Hn & _). discriminate. }
  destruct (op_mutex e) eqn:Hmutex; simpl.
  2:{ intros H; inversion H; subst. split; [| split]; try done.
      - split; [discriminate |]. intros (_ & _ & Hm & _). discriminate.
      - intros _. change (Some (set_private ctx None) = Some ctx).
        now rewrite (set_private_none _ Hp). }
  destruct (Z.ltb_spec (op_sem_init e) 0) as [Hneg | Hpos].
  { intros H; inversion H; subst. split; [| split]; try done.
    - split; [discriminate |]. intros (_ & _ & _ & Hs). lia.
    - intros _. change (Some (set_private ctx None) = Some ctx).
      now rewrite (set_private_none _ Hp). }
  intros H; inversion H; subst. split; [| split]; try done.
  - split; [| reflexivity]. intros _.
    split; [| repeat split; lia].
    exists ctx. split; [reflexivity |]. split; [now apply Hdrv | exact Hp].
  - intros _. exists ctx. split; reflexivity.
Qed.

(** A failed [sem_init] after the mutex has been created: the context is
    left as it was, not open. *)
Lemma driver_open_all_or_nothing_witness :
  Some ctx_closed = Some ctx_closed.
Proof.
  refine (proj2 (proj2 (driver_open_all_or_nothing (Some ctx_closed)
            {| op_new := true; op_mutex := true; op_sem_init := -1 |}
            CA_ERROR_OOM (Some ctx_closed) eq_refl)) _).
  discriminate.
Defined.

(** X4.  Opening a driver and destroying it at once gives back the context
    as it was, without any effect and without a wait; the context can then
    not be used ([driver_cancel] and [driver_destroy] return
    [CA_ERROR_STATE], a play call returns an error) until it is opened
    again, which succeeds as the first time. *)
Theorem driver_open_destroy_round_trip ctx e c1 :
  driver_open (Some ctx) e = (CA_SUCCESS, Some c1) →
  driver_destroy (Some c1) = DestroyReturn CA_SUCCESS (Some ctx) [] ∧
  driver_destroy (Some ctx) = DestroyReturn CA_ERROR_STATE (Some ctx) [] ∧
  (∀ id, driver_cancel (Some ctx) id = (CA_ERROR_STATE, Some ctx, [])) ∧
  (∀ id pl cb userdata pe,
     ∃ ret, ret ≠ CA_SUCCESS ∧
            driver_play (Some ctx) id pl cb userdata pe
            = PlayReturn ret (Some ctx) [] None) ∧
  driver_open (Some ctx) e = (CA_SUCCESS, Some c1).
Proof.
  intros Hopen.
  assert (Hp : c_private ctx = None ∧
               c1 = set_private ctx (Some priv_open)).
  { revert Hopen. unfold driver_open.
    repeat match goal with
           | |- (if ?b then _ else _) = _ → _ =>
               destruct b eqn:?; try discriminate
           end.
    intros H. inversion H; subst. split; [| reflexivity].
    destruct (c_private ctx); [discriminate | reflexivity]. }
  destruct Hp as [Hp ->].
  split; [| split; [| split; [| split]]].
  - change (DestroyReturn CA_SUCCESS (Some (set_private ctx None)) []
            = DestroyReturn CA_SUCCESS (Some ctx) []).
    now rewrite (set_private_none _ Hp).
  - unfold driver_destroy. now rewrite Hp.
  - intros id. unfold driver_cancel. now rewrite Hp.
  - intros id pl cb userdata pe. unfold driver_play. rewrite Hp.
    destruct (is_null pl); [eexists; split; [| reflexivity]; discriminate |].
    destruct (negb _); eexists; (split; [| reflexivity]); discriminate.
  - exact Hopen.
Qed.

Lemma driver_open_destroy_round_trip_witness :
  driver_destroy (Some ctx_open)
  = DestroyReturn CA_SUCCESS (Some ctx_closed) [].
Proof.
  exact (proj1 (driver_open_destroy_round_trip ctx_closed open_env_ok
                  ctx_open (proj1 driver_open_ok))).
Defined.

(** ** driver_play and the registry *)

(** X5.  A play call on an open driver touches no request but its own: when
    it returns [CA_SUCCESS] the registry is the old one with one request put
    in front, which is not dead, has its pipe and its source open and
    carries the id and the callback of the call; when it returns anything
    else the registry is exactly the old one.  In both cases the mutex, the
    semaphore and the drain flag are as before, and the call has made no
    callback.  (The allocator hands out an address no registered request
    has.) *)
Theorem driver_play_registry ctx p id pl cb userdata e ret c' evs thread :
  c_private ctx = Some p →
  (∀ a o, pe_new e = Some a → o ∈ p_outstanding p → o_addr o ≠ a) →
  driver_play (Some ctx) id pl cb userdata e
  = PlayReturn ret (Some c') evs thread →
  Forall (λ ev, is_callback ev = false) evs ∧
  ∃ p', c_private c' = Some p' ∧ same_flags p p' ∧
    (ret ≠ CA_SUCCESS →
     p_outstanding p' = p_outstanding p ∧ thread = None) ∧
    (ret = CA_SUCCESS →
     ∃ o, p_outstanding p' = o :: p_outstanding p ∧
          pe_new e = Some (o_addr o) ∧ o_dead o = false ∧
          0 <= o_pipe_fd1 o ∧ o_callback o = cb ∧ o_id o = id ∧
          is_null (o_file o) = false).
Proof.
  intros Hp Hfresh Hplay.
  destruct (driver_play_open _ _ _ _ _ _ _ _ _ _ _ Hp Hfresh Hplay)
    as (Hevs & p' & Hp' & Hflags & Hreg).
  split; [exact Hevs |].
  exists p'. split; [exact Hp' |]. split; [exact Hflags |].
  destruct Hreg as [(Hreg & Hth & Hret) |
                    (o & Hreg & Hnew & Hd & Hfd & Hcb & Hid & Hf & Hret & _)].
  - split; [now intros _ | contradiction].
  - split; [contradiction |]. intros _. exists o. repeat split; assumption.
Qed.

Lemma driver_play_registry_witness :
  Forall (λ ev, is_callback ev = false)
    [EvPipe 3 4; EvSoundOpen mono_44100; EvOpen "/dev/dsp" 5;
     EvIoctl 5 SNDCTL_DSP_SETFMT 16; EvIoctl 5 SNDCTL_DSP_CHANNELS 1;
     EvIoctl 5 SNDCTL_DSP_SPEED 44100; EvSpawn 0%nat].
Proof.
  refine (proj1 (driver_play_registry ctx_open priv_open 7 (Some 0%nat)
                   (Some 1%nat) None (play_env_good 0) CA_SUCCESS _ _
                   (Some 0%nat) eq_refl _ eq_refl)).
  intros a o _ Ho. now apply elem_of_nil in Ho.
Defined.

(** ** How driver_cancel and driver_destroy compose *)

Lemma live_match_marked id sel l :
  (∀ o, sel o = true → o_dead o = false) →
  (∀ o, live_match id o = true → sel o = true) →
  Forall (λ o, live_match id o = false) (marked sel l).
Proof.
  intros Hsel Hsub. apply Forall_forall. intros o' Ho'.
  apply elem_of_marked in Ho' as (o & _ & ->).
  destruct (sel o) eqn:Hs.
  - unfold live_match. simpl. apply andb_false_r.
  - destruct (live_match id o) eqn:Hl; [| reflexivity].
    rewrite (Hsub o Hl) in Hs. discriminate.
Qed.

(** X6.  Cancelling an id twice is the same as cancelling it once: the
    second call finds the state as the first one left it, changes nothing
    and makes no callback.  And once [driver_destroy] has made its pass over
    the registry, no [driver_cancel], for whatever id, finds anything to
    cancel. *)
Theorem driver_cancel_idempotent ctx p id :
  c_private ctx = Some p →
  let c1 := set_private ctx
              (Some (set_outstanding p
                       (marked (live_match id) (p_outstanding p)))) in
  driver_cancel (Some ctx) id
  = (CA_SUCCESS, Some c1,
     mark_effects (live_match id) ByCancel CA_ERROR_CANCELED
                  (p_outstanding p)) ∧
  driver_cancel (Some c1) id = (CA_SUCCESS, Some c1, []) ∧
  ∀ id',
    driver_cancel
      (Some (set_private ctx
               (Some (set_outstanding p (marked live (p_outstanding p))))))
      id'
    = (CA_SUCCESS,
       Some (set_private ctx
               (Some (set_outstanding p (marked live (p_outstanding p))))),
       []).
Proof.
  intros Hp c1.
  assert (Hnoop : ∀ id' sel,
    (∀ o, sel o = true → o_dead o = false) →
    (∀ o, live_match id' o = true → sel o = true) →
    driver_cancel
      (Some (set_private ctx
               (Some (set_outstanding p (marked sel (p_outstanding p))))))
      id'
    = (CA_SUCCESS,
       Some (set_private ctx
               (Some (set_outstanding p (marked sel (p_outstanding p))))),
       [])).
  { intros id' sel Hsel Hsub.
    rewrite (driver_cancel_open _ (set_outstanding p
                                     (marked sel (p_outstanding p))))
      by reflexivity.
    pose proof (live_match_marked id' sel (p_outstanding p) Hsel Hsub)
      as Hnone.
    simpl. rewrite (marked_none _ _ Hnone), (mark_effects_none _ _ _ _ Hnone).
    reflexivity. }
  split; [exact (driver_cancel_open ctx p id Hp) |].
  split.
  - apply Hnoop; [apply live_match_not_dead | tauto].
  - intros id'. apply Hnoop; [apply live_not_dead |].
    intros o Ho. unfold live. apply live_match_not_dead in Ho.
    now rewrite Ho.
Qed.

Lemma driver_cancel_idempotent_witness :
  driver_cancel
    (Some (set_private ctx_three
             (Some (set_outstanding priv_three
                      [set_dead_closed request_9; request_9_dead;
                       request_7])))) 9
  = (CA_SUCCESS,
     Some (set_private ctx_three
             (Some (set_outstanding priv_three
                      [set_dead_closed request_9; request_9_dead;
                       request_7]))),
     []).
Proof.
  exact (proj1 (proj2 (driver_cancel_idempotent ctx_three priv_three 9
                         eq_refl))).
Defined.

(** * Further properties of the streaming loop *)

(** The bytes a run has read from the source and written to the device. *)
Fixpoint bytes_read (evs : list event) : Z :=
  match evs with
  | [] => 0
  | EvRead _ _ got :: evs => got + bytes_read evs
  | _ :: evs => bytes_read evs
  end.

Fixpoint bytes_written (evs : list event) : Z :=
  match evs with
  | [] => 0
  | EvWrite _ n :: evs => n + bytes_written evs
  | _ :: evs => bytes_written evs
  end.

Lemma bytes_read_app evs evs' :
  bytes_read (evs ++ evs') = bytes_read evs + bytes_read evs'.
Proof.
  induction evs as [|ev evs IH]; [reflexivity |].
  destruct ev; simpl; rewrite ?IH; lia.
Qed.

Lemma bytes_written_app evs evs' :
  bytes_written (evs ++ evs') = bytes_written evs + bytes_written evs'.
Proof.
  induction evs as [|ev evs IH]; [reflexivity |].
  destruct ev; simpl; rewrite ?IH; lia.
Qed.

(** The source and the device keep their contracts along a run: a read
    returns at most the bytes asked for, a write takes at most the bytes
    offered. *)
Fixpoint honest (out : outstanding) (ds nbytes d : Z)
    (sched : list (bool * iter_env)) : Prop :=
  match sched with
  | [] => True
  | (dead, e) :: rest =>
      0 <= rd_nbytes (ie_read e) <= ds ∧
      wr_rv (ie_write e)
      <= (if nbytes <=? 0 then rd_nbytes (ie_read e) else nbytes) ∧
      match (if dead then Break [] else loop_body out ds nbytes d e) with
      | Continue nbytes d _ => honest out ds nbytes d rest
      | _ => True
      end
  end.

(** The buffered bytes lie within the buffer: the cursor [d] and the count
    [nbytes] never reach beyond [data_size]. *)
Definition in_buffer (ds nbytes d : Z) : Prop :=
  0 <= nbytes ∧ 0 <= d ∧ d + nbytes <= ds.

Lemma loop_body_in_buffer out ds nbytes d e :
  0 <= ds < 2 ^ 64 →
  in_buffer ds nbytes d →
  0 <= rd_nbytes (ie_read e) <= ds →
  wr_rv (ie_write e)
  <= (if nbytes <=? 0 then rd_nbytes (ie_read e) else nbytes) →
  match loop_body out ds nbytes d e with
  | Continue nbytes' d' evs =>
      in_buffer ds nbytes' d' ∧
      bytes_written evs + nbytes' = nbytes + bytes_read evs
  | Break evs =>
      bytes_written evs = 0 ∧ 0 <= bytes_read evs ∧
      (revents0 (ie_poll e) = 0 → nbytes + bytes_read evs = 0)
  | Finish ret evs =>
      bytes_written evs = 0 ∧ 0 <= bytes_read evs ∧ ret ≠ CA_SUCCESS
  end.
Proof.
  intros Hds (Hnb & Hd & Hfit) Hrd Hwr. unfold loop_body.
  destruct (poll_rv (ie_poll e) <? 0); [simpl; repeat split; done |].
  destruct (Z.eqb_spec (revents0 (ie_poll e)) 0) as [Hq | Hq]; simpl.
  2:{ repeat split; try lia. }
  destruct (revents1 (ie_poll e) =? POLLOUT); simpl;
    [| repeat split; done].
  destruct (Z.leb_spec nbytes 0) as [Hz | Hz]; simpl.
  - destruct (is_error (rd_ret (ie_read e))) eqn:Herr; simpl.
    { repeat split; try done. intros Heq. rewrite Heq in Herr.
      discriminate. }
    destruct (Z.leb_spec (rd_nbytes (ie_read e)) 0); simpl;
      [repeat split; lia |].
    destruct (Z.leb_spec (wr_rv (ie_write e)) 0); simpl.
    { repeat split; try lia. apply translate_error_is_error_ne. }
    rewrite (size_wrap_id (wr_rv (ie_write e))) by lia.
    rewrite size_wrap_id by lia.
    unfold in_buffer. lia.
  - destruct (Z.leb_spec nbytes 0); [lia |].
    destruct (Z.leb_spec (wr_rv (ie_write e)) 0); simpl.
    { repeat split; try lia. apply translate_error_is_error_ne. }
    rewrite (size_wrap_id (wr_rv (ie_write e))) by lia.
    rewrite size_wrap_id by lia.
    unfold in_buffer. lia.
Qed.

Lemma thread_loop_in_buffer out ds sched :
  0 <= ds < 2 ^ 64 →
  ∀ nbytes d,
    in_buffer ds nbytes d →
    honest out ds nbytes d sched →
    match thread_loop out ds nbytes d sched with
    | LoopRunning nbytes' d' evs =>
        in_buffer ds nbytes' d' ∧
        bytes_written evs + nbytes' = nbytes + bytes_read evs
    | LoopExit ret evs =>
        bytes_written evs <= nbytes + bytes_read evs ∧
        (undisturbed sched → ret = CA_SUCCESS →
         bytes_written evs = nbytes + bytes_read evs)
    end.
Proof.
  intros Hds. induction sched as [|[dead e] rest IH]; intros nbytes d Hbuf Hh.
  { simpl. split; [exact Hbuf | lia]. }
  simpl in Hh. destruct Hh as (Hrd & Hwr & Hrest). simpl.
  assert (Hhead : undisturbed ((dead, e) :: rest) →
                  dead = false ∧ revents0 (ie_poll e) = 0 ∧ undisturbed rest).
  { intros Hu. inversion Hu as [|? ? [Hd Hq] Hu']. now repeat split. }
  destruct dead.
  { destruct Hbuf as (Hnb & _). split; [simpl; lia |].
    intros Hu. destruct (Hhead Hu) as (Hd & _). discriminate. }
  pose proof (loop_body_in_buffer out ds nbytes d e Hds Hbuf Hrd Hwr) as Hbody.
  pose proof Hbuf as (Hnb & _).
  destruct (loop_body out ds nbytes d e) as [nb' d' evs | evs | ret evs].
  - destruct Hbody as (Hbuf' & Hcons).
    specialize (IH nb' d' Hbuf' Hrest).
    destruct (thread_loop out ds nb' d' rest) as [ret evs2 | nb2 d2 evs2];
      simpl; rewrite bytes_written_app, bytes_read_app.
    + destruct IH as (Hle & Heq). split; [lia |].
      intros Hu Hret. destruct (Hhead Hu) as (_ & _ & Hu').
      specialize (Heq Hu' Hret). lia.
    + destruct IH as (Hbuf2 & Hcons2). split; [exact Hbuf2 | lia].
  - destruct Hbody as (Hw & Hr & Hq). split; [lia |].
    intros Hu _. destruct (Hhead Hu) as (_ & Hquiet & _).
    specialize (Hq Hquiet). lia.
  - destruct Hbody as (Hw & Hr & Hne). split; [lia |].
    intros _ Hret. contradiction.
Qed.

(** X7.  Along a run in which the source and the device keep their
    contracts, starting with an empty buffer: the bytes still buffered
    always lie within the buffer ([0 <= d] and [d + nbytes <= data_size],
    so that a write never reaches beyond it); the bytes written and the
    bytes still buffered add up to the bytes read; and when the loop of a
    request that is left alone ends with [CA_SUCCESS], every byte read has
    been written. *)
Theorem streaming_loop_conserves_bytes out fs sched :
  0 < fs →
  honest out (data_size fs) 0 0 sched →
  match thread_loop out (data_size fs) 0 0 sched with
  | LoopRunning nbytes d evs =>
      0 <= nbytes ∧ 0 <= d ∧ d + nbytes <= data_size fs ∧
      bytes_written evs + nbytes = bytes_read evs
  | LoopExit ret evs =>
      bytes_written evs <= bytes_read evs ∧
      (undisturbed sched → ret = CA_SUCCESS →
       bytes_written evs = bytes_read evs)
  end.
Proof.
  intros Hfs Hh.
  destruct (data_size_frames fs Hfs) as (_ & _ & Hle & _).
  assert (Hds : 0 <= data_size fs < 2 ^ 64).
  { split; [apply Z.mod_pos_bound; lia | unfold BUFSIZE in Hle; lia]. }
  assert (Hbuf : in_buffer (data_size fs) 0 0) by (unfold in_buffer; lia).
  pose proof (thread_loop_in_buffer out (data_size fs) sched Hds 0 0 Hbuf Hh)
    as H.
  destruct (thread_loop out (data_size fs) 0 0 sched) as [ret evs | nb d evs].
  - destruct H as (Hle' & Heq). split; [lia |].
    intros Hu Hret. specialize (Heq Hu Hret). lia.
  - destruct H as ((H1 & H2 & H3) & H4).
    repeat split; first [assumption | lia].
Qed.

Lemma streaming_loop_conserves_bytes_witness :
  bytes_written
    [EvRead (Some mono_44100) 4096 4096; EvWrite 5 1000; EvWrite 5 3096;
     EvRead (Some mono_44100) 4096 1904; EvWrite 5 1904;
     EvRead (Some mono_44100) 4096 0]
  <= bytes_read
       [EvRead (Some mono_44100) 4096 4096; EvWrite 5 1000;
        EvWrite 5 3096;
        EvRead (Some mono_44100) 4096 1904; EvWrite 5 1904;
        EvRead (Some mono_44100) 4096 0].
Proof.
  assert (Hh : honest (request_playing 0 mono_44100) (data_size 2) 0 0
                      run_6000).
  { vm_compute. repeat split; discriminate. }
  pose proof (streaming_loop_conserves_bytes (request_playing 0 mono_44100)
                2 run_6000 ltac:(lia) Hh) as H.
  rewrite thread_loop_run_6000 in H. exact (proj1 H).
Defined.

(** * Further properties of the running system *)

(** ** Workers and their requests *)

(** Every registered request has its source, and every worker works on a
    request that is in the registry. *)
Record worker_inv (s : system) : Prop := {
  wi_file : ∀ o, o ∈ registry s → is_null (o_file o) = false;
  wi_registered : ∀ a, is_Some (sys_threads s !! a) →
                    ∃ o, o ∈ registry s ∧ o_addr o = a
}.

Lemma worker_inv_same_registry s s' :
  worker_inv s →
  registry s' = registry s →
  (∀ a, is_Some (sys_threads s' !! a) →
        is_Some (sys_threads s !! a) ∨ ∃ o, o ∈ registry s ∧ o_addr o = a) →
  worker_inv s'.
Proof.
  intros [Hfile Hreg] Hsame Hth. constructor; rewrite Hsame.
  - exact Hfile.
  - intros a Ha. destruct (Hth a Ha) as [Hold | Hnew]; [now apply Hreg |].
    exact Hnew.
Qed.

Lemma worker_inv_marked s s' sel :
  worker_inv s →
  registry s' = marked sel (registry s) →
  sys_threads s' = sys_threads s →
  worker_inv s'.
Proof.
  intros [Hfile Hreg] Hm Hth. constructor; rewrite Hm.
  - intros o' Ho'. apply elem_of_marked in Ho' as (o & Ho & ->).
    specialize (Hfile o Ho). now destruct (sel o).
  - intros a Ha. rewrite Hth in Ha.
    destruct (Hreg a Ha) as (o & Ho & Hoa).
    exists (if sel o then set_dead_closed o else o). split.
    + apply elem_of_marked. now exists o.
    + now destruct (sel o).
Qed.

Lemma with_thread_some s a pc evs b :
  is_Some (sys_threads (with_thread s a pc evs) !! b) →
  is_Some (sys_threads s !! b) ∨ b = a.
Proof.
  simpl. destruct (decide (a = b)) as [<- | Hne]; [now right |].
  rewrite lookup_insert_ne by exact Hne. now left.
Qed.

Lemma worker_inv_step s l s' :
  basic_inv s → worker_inv s → step s l s' → worker_inv s'.
Proof.
  intros [Hflags Hsig Hwake Hdone Hfresh] Hw Hstep.
  pose proof Hw as [Hfile Hreg].
  assert (Hthread : ∀ s0 a pc evs o,
            worker_inv s0 → o ∈ registry s0 → o_addr o = a →
            worker_inv (with_thread s0 a pc evs)).
  { intros s0 a pc evs o Hw0 Ho Ha.
    apply (worker_inv_same_registry s0); [exact Hw0 | reflexivity |].
    intros b Hb. apply with_thread_some in Hb as [Hb | ->]; [now left |].
    right. now exists o. }
  step_cases Hstep.
  - (* driver_open *)
    apply (worker_inv_same_registry s); [exact Hw | |].
    + destruct (driver_open_cases _ _ _ _ Hdo) as [(-> & Hp & ->) | (-> & ->)];
        unfold registry; simpl; now rewrite ?Hp.
    + intros a Ha. now left.
  - (* driver_play *)
    destruct (c_private (sys_ctx s)) as [p|] eqn:Hp.
    + assert (Hfr : ∀ a o, pe_new e = Some a → o ∈ p_outstanding p →
                             o_addr o ≠ a).
      { intros a o Hnew Ho Heq. destruct Hok as [Hok | Hok]; [congruence |].
        rewrite Hok in Hnew. inversion Hnew; subst a.
        specialize (Hfresh o). rewrite (registry_open _ _ Hp) in Hfresh.
        specialize (Hfresh Ho). lia. }
      destruct (driver_play_open _ _ _ _ _ _ _ _ _ _ _ Hp Hfr Hplay)
        as (_ & p' & Hp' & _ & Hr).
      rewrite (registry_open _ _ Hp) in Hfile, Hreg.
      destruct Hr as [(Hr & -> & _) |
                      (o & Hr & _ & _ & _ & _ & _ & Hof & _ & Hthr)];
        constructor; unfold registry; simpl; rewrite Hp', Hr.
      * exact Hfile.
      * exact Hreg.
      * intros o' Ho'. apply elem_of_cons in Ho' as [-> | Ho'];
          [exact Hof | now apply Hfile].
      * intros a Ha.
        assert (Hcase : is_Some (sys_threads s !! a) ∨ a = o_addr o).
        { destruct Hthr as [-> | ->]; [now left |].
          destruct (decide (o_addr o = a)) as [<- | Hne]; [now right |].
          rewrite lookup_insert_ne in Ha by exact Hne. now left. }
        destruct Hcase as [Hold | ->].
        -- destruct (Hreg a Hold) as (o1 & Ho1 & Ha1).
           exists o1. split; [now right | exact Ha1].
        -- exists o. split; [now left | reflexivity].
    + destruct (driver_play_closed _ _ _ _ _ _ _ _ _ _ Hp Hplay)
        as (-> & -> & ->).
      apply (worker_inv_same_registry s); [exact Hw | reflexivity |].
      intros a Ha. now left.
  - (* driver_cancel *)
    destruct (c_private (sys_ctx s)) as [p|] eqn:Hp.
    + rewrite (driver_cancel_open _ _ _ Hp) in Hcancel.
      inversion Hcancel; subst ret c' evs; clear Hcancel.
      apply (worker_inv_marked s _ (live_match id)); [exact Hw | | reflexivity].
      unfold registry. simpl. now rewrite Hp.
    + rewrite (driver_cancel_closed _ _ Hp) in Hcancel.
      inversion Hcancel; subst ret c' evs; clear Hcancel.
      apply (worker_inv_same_registry s); [exact Hw | reflexivity |].
      intros a Ha. now left.
  - (* driver_destroy returns at once *)
    destruct (c_private (sys_ctx s)) as [p|] eqn:Hp; [| discriminate].
    destruct (Hflags p eq_refl) as [Hfm Hfa].
    rewrite (driver_destroy_open _ _ Hp Hfm Hfa) in Hdestroy.
    unfold destroy_wait_loop in Hdestroy. simpl in Hdestroy.
    destruct (marked live (p_outstanding p)) eqn:Hl; [| discriminate].
    inversion Hdestroy; subst ret c' evs; clear Hdestroy.
    apply marked_nil in Hl.
    apply (worker_inv_same_registry s); [exact Hw | |].
    + unfold registry. simpl. now rewrite Hp, Hl.
    + intros a Ha. now left.
  - (* driver_destroy has to wait *)
    destruct (c_private (sys_ctx s)) as [p|] eqn:Hp;
      [| unfold driver_destroy in Hdestroy; rewrite Hp in Hdestroy;
         discriminate].
    destruct (Hflags p eq_refl) as [Hfm Hfa].
    rewrite (driver_destroy_open _ _ Hp Hfm Hfa) in Hdestroy.
    unfold destroy_wait_loop in Hdestroy. simpl in Hdestroy.
    destruct (marked live (p_outstanding p)) as [|o1 l1] eqn:Hl;
      [discriminate |].
    inversion Hdestroy; subst c' evs; clear Hdestroy.
    apply (worker_inv_marked s _ live); [exact Hw | | reflexivity].
    unfold registry. simpl. now rewrite Hp.
  - (* driver_destroy on a closed context *)
    assert (Hp : c_private (sys_ctx s) = None) by now apply Hdone.
    unfold driver_destroy in Hdestroy. rewrite Hp in Hdestroy.
    inversion Hdestroy; subst ret c' evs.
    apply (worker_inv_same_registry s); [exact Hw | reflexivity |].
    intros a Ha. now left.
  - apply (worker_inv_same_registry s); [exact Hw | |].
    + unfold registry. simpl. now rewrite Hp.
    + intros a Ha. now left.
  - unfold destroy_wait_loop in Hloop.
    destruct (p_outstanding p) eqn:Hl; [| discriminate].
    inversion Hloop; subst ret c' evs; clear Hloop.
    apply (worker_inv_same_registry s); [exact Hw | |].
    + unfold registry. simpl. now rewrite Hp, Hl.
    + intros a Ha. now left.
  - unfold destroy_wait_loop in Hloop.
    destruct (p_outstanding p) as [|o1 l1] eqn:Hl; [discriminate |].
    inversion Hloop; subst c' evs; clear Hloop.
    apply (worker_inv_same_registry s); [exact Hw | |].
    + unfold registry. simpl. now rewrite Hp.
    + intros a Ha. now left.
  - now apply (Hthread s a _ _ o).
  - now apply (Hthread s a _ _ o).
  - now apply (Hthread s a _ _ o).
  - now apply (Hthread s a _ _ o).
  - now apply (Hthread s a _ _ o).
  - now apply (Hthread s a _ _ o).
  - (* the worker leaves the registry *)
    destruct (thread_unregister_flags p o) as (_ & _ & _ & Hr & _).
    rewrite (registry_open _ _ Hp) in Hfile, Hreg.
    constructor; unfold registry; simpl; rewrite Hr.
    + intros o' Ho'. apply elem_of_llist_remove in Ho' as [_ Ho'].
      now apply Hfile.
    + intros b Hb. destruct (decide (a = b)) as [<- | Hne].
      * rewrite lookup_delete_eq in Hb. now destruct Hb.
      * rewrite lookup_delete_ne in Hb by exact Hne.
        destruct (Hreg b Hb) as (o1 & Ho1 & Ha1).
        exists o1. split; [| exact Ha1].
        apply elem_of_llist_remove. split; [congruence | exact Ho1].
Qed.

Lemma reachable_worker_inv s : reachable s → worker_inv s.
Proof.
  induction 1 as [c0 e c Hopen | s l s' Hreach IH Hstep].
  - pose proof (driver_open_registry c0 e c Hopen) as Hr.
    constructor; simpl; rewrite ?Hr.
    + intros o Ho. now apply elem_of_nil in Ho.
    + intros a [pc Hpc]. now rewrite lookup_empty in Hpc.
  - exact (worker_inv_step s l s' (reachable_basic_inv s Hreach) IH Hstep).
Qed.

(** The effects of streaming: a read of the source or a write to the
    device, done or failed. *)
Definition is_stream (ev : event) : bool :=
  match ev with
  | EvRead _ _ _ | EvReadFail _ _ | EvWrite _ _ | EvWriteFail _ => true
  | _ => false
  end.

(** How many steps a worker at most has left once its request is dead. *)
Definition steps_left (pc : option wpc) : nat :=
  match pc with
  | None => 0
  | Some WUnregister => 1
  | Some (WCall _) => 2
  | Some (WFinish _) => 3
  | Some (WLoop _ _ _) => 4
  | Some WStart | Some (WPolled _ _ _ _) => 5
  | Some (WPoll _ _ _) => 6
  end.

(** An answer of [poll] that fits the state of the pipe of [o]. *)
Definition poll_answer (o : outstanding) (rv : Z) : iter_env :=
  {| ie_poll := {| poll_rv := rv;
                   revents0 := if o_pipe_fd1 o <? 0 then 1 else 0;
                   revents1 := POLLOUT |};
     ie_read := {| rd_ret := CA_SUCCESS; rd_nbytes := 0 |};
     ie_write := {| wr_rv := 0; wr_errno := EOTHER 0 |} |}.

Lemma poll_answer_ok o rv : poll_ok o (poll_answer o rv).
Proof.
  unfold poll_ok, poll_answer. simpl.
  destruct (o_pipe_fd1 o <? 0) eqn:Hfd.
  - apply Z.ltb_lt in Hfd. split; [intros _; exact Hfd | intros _; lia].
  - apply Z.ltb_ge in Hfd. split; [intros H; now destruct H | lia].
Qed.

Lemma close_if_open_quiet fd :
  Forall (λ ev, is_stream ev = false ∧ is_callback ev = false)
         (close_if_open fd).
Proof. unfold close_if_open. destruct (0 <=? fd); repeat constructor. Qed.

Lemma outstanding_free_body_quiet o :
  Forall (λ ev, is_stream ev = false ∧ is_callback ev = false)
         (outstanding_free_body o).
Proof.
  unfold outstanding_free_body, close_file.
  repeat (apply Forall_app; split); try apply close_if_open_quiet.
  - destruct (o_file o); repeat constructor.
  - repeat constructor.
Qed.

Lemma thread_unregister_quiet p o :
  Forall (λ ev, is_stream ev = false ∧ is_callback ev = false)
         (thread_unregister p o).2.
Proof.
  unfold thread_unregister.
  destruct (llist_remove _ _); simpl;
    [destruct (p_signal_semaphore p); simpl |];
    try (constructor; [split; reflexivity |]);
    apply outstanding_free_body_quiet.
Qed.

(** The runs of the system. *)
Inductive steps : system → system → Prop :=
| steps_refl s : steps s s
| steps_step s s' l s'' : steps s s' → step s' l s'' → steps s s''.

Lemma steps_reachable s s' : reachable s → steps s s' → reachable s'.
Proof.
  intros Hs. induction 1 as [| s s' l s'' _ IH Hstep]; [exact Hs |].
  exact (reach_step _ _ _ (IH Hs) Hstep).
Qed.

(** A registered request that no worker works on. *)
Definition orphan (s : system) (a : nat) : Prop :=
  (∃ o, o ∈ registry s ∧ o_addr o = a) ∧ sys_threads s !! a = None.

Lemma orphan_step s l s' a :
  reachable s → orphan s a → step s l s' → orphan s' a.
Proof.
  intros Hreach [(o & Ho & Ha) Hth] Hstep.
  pose proof (reachable_basic_inv s Hreach) as Hb.
  destruct (step_classify s l s' Hb Hstep) as
    [ evs Hr _ _ _ _ _ Hsome
    | o1 evs Hr Ha1 _ _ _ _ _ _ Hthr
    | sel site status Hr _ _ _ _ _ Hthr
    | a1 o1 ret called Hr Ho1 Ha1 Hpc _ Hthr _ _ _
    | a1 o1 evs Hr Ho1 Ha1 Hpc Hthr _ _ _ _ ].
  - split; [rewrite Hr; now exists o |].
    destruct (sys_threads s' !! a) eqn:Hl; [| reflexivity].
    destruct (Hsome a (mk_is_Some _ _ Hl)) as [pc Hpc]. congruence.
  - split; [rewrite Hr; exists o; split; [now right | exact Ha] |].
    destruct Hthr as [-> | ->]; [exact Hth |].
    rewrite lookup_insert_ne; [exact Hth |].
    pose proof (bi_fresh s Hb o Ho). lia.
  - split; [| now rewrite Hthr].
    rewrite Hr. exists (if sel o then set_dead_closed o else o). split.
    + apply elem_of_marked. now exists o.
    + now destruct (sel o).
  - split; [rewrite Hr; now exists o |].
    rewrite Hthr, lookup_insert_ne; [exact Hth |].
    intros ->. rewrite Hth in Hpc. destruct called; discriminate.
  - assert (Hne : a1 ≠ a) by congruence.
    split; [| rewrite Hthr, lookup_delete_ne; [exact Hth | exact Hne]].
    rewrite Hr. exists o. split; [| exact Ha].
    apply elem_of_llist_remove. split; [congruence | exact Ho].
Qed.

(** The scenario of an orphan: [pthread_create] fails with [EAGAIN]. *)
(** The request of a play call with id 9, once cancelled. *)
Definition request_cancelled_9 : outstanding :=
  {| o_addr := 0%nat; o_dead := true; o_id := 9; o_callback := Some 1%nat;
     o_userdata := None; o_file := Some mono_44100; o_pcm := 5;
     o_pipe_fd0 := 3; o_pipe_fd1 := -1 |}.

Definition run_orphan : list action :=
  [APlay 5 (Some 0%nat) (Some 1%nat) None play_env_eagain].

(** A worker always has a next step. *)
Lemma worker_step_enabled s a pc :
  reachable s → sys_threads s !! a = Some pc → ∃ s', step s (LWorker a) s'.
Proof.
  intros Hreach Hpc.
  destruct (reachable_worker_inv s Hreach) as [Hfile Hreg].
  destruct (Hreg a (mk_is_Some _ _ Hpc)) as (o & Ho & Ha).
  destruct pc as [| ds nb d | ds nb d | ds nb d pr | ret | ret |].
  - specialize (Hfile o Ho).
    destruct (o_file o) as [f|] eqn:Hf; [| discriminate].
    eexists. exact (step_worker_start s a o f true Hpc Ho Ha Hf).
  - eexists. exact (step_worker_test s a o ds nb d Hpc Ho Ha).
  - eexists.
    exact (step_worker_poll s a o ds nb d (poll_answer o 1) Hpc Ho Ha
             (poll_answer_ok o 1)).
  - eexists.
    exact (step_worker_body s a o ds nb d (with_poll (poll_answer o 1) pr)
             Hpc Ho Ha).
  - eexists. exact (step_worker_finish s a o ret Hpc Ho Ha).
  - eexists. exact (step_worker_callback s a o ret Hpc Ho Ha).
  - destruct (c_private (sys_ctx s)) as [p|] eqn:Hp.
    + rewrite (registry_open _ _ Hp) in Ho.
      eexists. exact (step_worker_unregister s a o p Hpc Hp Ho Ha).
    + unfold registry in Ho. rewrite Hp in Ho.
      now apply elem_of_nil in Ho.
Qed.

Lemma call_back_no_stream site status o :
  Forall (λ ev, is_stream ev = false) (call_back site status o).
Proof. unfold call_back. destruct (o_callback o); repeat constructor. Qed.

(** X8.  A worker never works on a freed request: in every reachable state
    the request of each running worker is in the registry, with its sound
    file, and has not been freed.  The worker is never stuck either: it has
    a next step. *)
Theorem worker_request_is_registered s a pc :
  reachable s →
  sys_threads s !! a = Some pc →
  (∃ o, o ∈ registry s ∧ o_addr o = a ∧ is_null (o_file o) = false ∧
        ∀ o', o' ∈ sys_retired s → o_addr o' ≠ a) ∧
  ∃ s', step s (LWorker a) s'.
Proof.
  intros Hreach Hpc.
  destruct (reachable_worker_inv s Hreach) as [Hfile Hreg].
  destruct (Hreg a (mk_is_Some _ _ Hpc)) as (o & Ho & Ha).
  split; [| exact (worker_step_enabled s a pc Hreach Hpc)].
  exists o. split; [exact Ho |]. split; [exact Ha |].
  split; [now apply Hfile |].
  intros o' Ho' Heq.
  apply (ci_disjoint s (reachable_cb_inv s Hreach) o o' Ho Ho').
  congruence.
Qed.

Lemma worker_request_is_registered_witness :
  (∃ o, o ∈ registry (final [play 7 (Some 1%nat) 0; worker 0]) ∧
        o_addr o = 0%nat ∧ is_null (o_file o) = false ∧
        ∀ o', o' ∈ sys_retired (final [play 7 (Some 1%nat) 0; worker 0]) →
              o_addr o' ≠ 0%nat) ∧
  ∃ s', step (final [play 7 (Some 1%nat) 0; worker 0]) (LWorker 0) s'.
Proof.
  apply (worker_request_is_registered _ 0%nat
           (WLoop (data_size (sf_frame_size mono_44100)) 0 0)).
  - apply final_reachable. vm_compute. eexists. reflexivity.
  - vm_compute. reflexivity.
Defined.

(** X9.  Once a request is dead (cancelled, or marked by [driver_destroy])
    its worker winds down: each of its steps brings it nearer to its end,
    which is at most six steps away.  On the way it makes a callback only if
    it had found [out->dead] false before the request was marked and has
    not made the call yet, and it reads the source or writes to the device
    only if it was back from a [poll] that had reported nothing on the pipe:
    it then finishes the turn it is in, and starts no other. *)
Theorem dead_request_worker_winds_down s a s' o :
  reachable s →
  step s (LWorker a) s' →
  o ∈ registry s → o_addr o = a → o_dead o = true →
  (steps_left (sys_threads s' !! a) < steps_left (sys_threads s !! a))%nat ∧
  (steps_left (sys_threads s !! a) <= 6)%nat ∧
  ∃ evs, sys_trace s' = sys_trace s ++ evs ∧
    ((∀ ret, sys_threads s !! a ≠ Some (WCall ret)) →
     Forall (λ ev, is_callback ev = false) evs) ∧
    ((∀ ds nb d pr, sys_threads s !! a = Some (WPolled ds nb d pr) →
                    revents0 pr ≠ 0 ∨ poll_rv pr < 0) →
     Forall (λ ev, is_stream ev = false) evs).
Proof.
  intros Hreach Hstep Ho Ha Hdead.
  pose proof (reachable_cb_inv s Hreach) as Hci.
  assert (Hsame : ∀ o0, o0 ∈ registry s → o_addr o0 = a → o0 = o).
  { intros o0 Ho0 Ha0.
    apply (NoDup_addr_eq (registry s)); [apply Hci | assumption..|congruence]. }
  assert (Hle : (steps_left (sys_threads s !! a) <= 6)%nat).
  { destruct (sys_threads s !! a) as [[]|]; simpl; lia. }
  split; [| split; [exact Hle |]]; clear Hle.
  - inversion Hstep as
      [ | | | | | | | |
      | s0 a0 o0 f mok Hth Ho0 Ha0 Hf
      | s0 a0 o0 ds nb d Hth Ho0 Ha0
      | s0 a0 o0 ds nb d e Hth Ho0 Ha0 Hpoll
      | s0 a0 o0 ds nb d e Hth Ho0 Ha0
      | s0 a0 o0 ret Hth Ho0 Ha0
      | s0 a0 o0 ret Hth Ho0 Ha0
      | s0 a0 o0 p Hth Hp Ho0 Ha0 ]; subst; simpl;
      rewrite Hth, ?lookup_insert_eq, ?lookup_delete_eq; simpl.
    + destruct mok; simpl; lia.
    + rewrite (Hsame o0 Ho0 Ha0), Hdead. simpl. lia.
    + lia.
    + destruct (loop_body o0 ds nb d e); simpl; lia.
    + rewrite (Hsame o0 Ho0 Ha0), Hdead. simpl. lia.
    + lia.
    + lia.
  - inversion Hstep as
      [ | | | | | | | |
      | s0 a0 o0 f mok Hth Ho0 Ha0 Hf
      | s0 a0 o0 ds nb d Hth Ho0 Ha0
      | s0 a0 o0 ds nb d e Hth Ho0 Ha0 Hpoll
      | s0 a0 o0 ds nb d e Hth Ho0 Ha0
      | s0 a0 o0 ret Hth Ho0 Ha0
      | s0 a0 o0 ret Hth Ho0 Ha0
      | s0 a0 o0 p Hth Hp Ho0 Ha0 ]; subst; simpl;
      (eexists; split; [reflexivity |]).
    + split; intros _; constructor.
    + split; intros _; constructor.
    + split; intros _; constructor.
    + split.
      * intros _. apply loop_body_no_callback.
      * intros Hpr. specialize (Hpr ds nb d (ie_poll e) Hth).
        unfold loop_body.
        destruct (Z.ltb_spec (poll_rv (ie_poll e)) 0); [constructor |].
        destruct (Z.eqb_spec (revents0 (ie_poll e)) 0); [| constructor].
        destruct Hpr; [contradiction | lia].
    + split; intros _; constructor.
    + split.
      * intros Hno. now destruct (Hno ret).
      * intros _. apply call_back_no_stream.
    + pose proof (thread_unregister_quiet p o0) as Hq.
      split; intros _; (eapply Forall_impl; [exact Hq |]);
        intros ev [H1 H2]; assumption.
Qed.

Lemma dead_request_worker_winds_down_witness :
  ∃ s',
    (steps_left (sys_threads s' !! 0%nat)
     < steps_left
         (sys_threads (final [play 9 (Some 1%nat) 0; worker 0; worker 0;
                              ACancel 9]) !! 0%nat))%nat ∧
    (steps_left
       (sys_threads (final [play 9 (Some 1%nat) 0; worker 0; worker 0;
                            ACancel 9]) !! 0%nat) <= 6)%nat ∧
    ∃ evs, sys_trace s'
           = sys_trace (final [play 9 (Some 1%nat) 0; worker 0; worker 0;
                               ACancel 9]) ++ evs ∧
      ((∀ ret, sys_threads (final [play 9 (Some 1%nat) 0; worker 0; worker 0;
                                   ACancel 9]) !! 0%nat ≠ Some (WCall ret)) →
       Forall (λ ev, is_callback ev = false) evs) ∧
      ((∀ ds nb d pr,
          sys_threads (final [play 9 (Some 1%nat) 0; worker 0; worker 0;
                              ACancel 9]) !! 0%nat
          = Some (WPolled ds nb d pr) →
          revents0 pr ≠ 0 ∨ poll_rv pr < 0) →
       Forall (λ ev, is_stream ev = false) evs).
Proof.
  eexists.
  apply (dead_request_worker_winds_down
           (final [play 9 (Some 1%nat) 0; worker 0; worker 0; ACancel 9])
           0%nat _ request_cancelled_9).
  - apply final_reachable. vm_compute. eexists. reflexivity.
  - apply (step_worker_poll _ 0%nat request_cancelled_9
             (data_size (sf_frame_size mono_44100)) 0 0
             (poll_answer request_cancelled_9 1)).
    + vm_compute. reflexivity.
    + vm_compute. apply list_elem_of_here.
    + reflexivity.
    + apply poll_answer_ok.
  - vm_compute. apply list_elem_of_here.
  - reflexivity.
  - reflexivity.
Defined.

(** The state a play call leaves (the one of [step_play]). *)
Definition after_play (s : system) (c' : ca_context) (evs : list event)
    (thread : option nat) : system :=
  {| sys_ctx := c';
     sys_threads :=
       match thread with
       | Some a => <[a := WStart]> (sys_threads s)
       | None => sys_threads s
       end;
     sys_destroy := sys_destroy s; sys_trace := sys_trace s ++ evs;
     sys_retired := sys_retired s; sys_next := S (sys_next s) |}.

(** A play call hands its request to a thread only when [pthread_create]
    has returned 0. *)
Lemma driver_play_thread c id pl cb userdata e ret c' evs a :
  driver_play c id pl cb userdata e = PlayReturn ret c' evs (Some a) →
  pe_thread e = 0.
Proof.
  unfold driver_play, play_finish. cbv zeta.
  repeat match goal with
         | |- context [match ?x with _ => _ end] =>
             match x with
             | pe_thread e =? 0 => destruct (Z.eqb_spec (pe_thread e) 0)
             | _ => destruct x
             end
         end; intros H; try discriminate; try (inversion H; fail);
    assumption.
Qed.

Lemma retired_step s l s' o :
  reachable s → step s l s' → o ∈ sys_retired s →
  o ∈ sys_retired s' ∧
  ∀ sites, count_callbacks sites (o_addr o) (sys_trace s')
           = count_callbacks sites (o_addr o) (sys_trace s).
Proof.
  intros Hreach Hstep Ho.
  pose proof (reachable_basic_inv s Hreach) as Hb.
  pose proof (reachable_cb_inv s Hreach) as Hci.
  destruct (step_classify s l s' Hb Hstep) as
    [ evs _ Hret Htr Hno _ _ _
    | o1 evs _ _ _ _ Hret Htr Hno _ _
    | sel site status _ _ _ Hret Htr _ _
    | a1 o1 ret called _ Ho1 Ha1 _ _ _ Hret Htr _
    | a1 o1 evs _ _ _ _ _ Hret Htr Hno _ ];
    rewrite Hret, Htr;
    (split; [try assumption; apply elem_of_app; now left |]);
    intros sites; rewrite count_callbacks_app.
  - rewrite (count_callbacks_none _ _ evs Hno). lia.
  - rewrite (count_callbacks_none _ _ evs Hno). lia.
  - rewrite count_mark_absent; [lia |].
    intros o' Ho'. exact (ci_disjoint s Hci o' o Ho' Ho).
  - destruct called; [| simpl; lia].
    rewrite count_call_back.
    rewrite (bool_decide_eq_false_2 (o_addr o1 = o_addr o))
      by exact (ci_disjoint s Hci o1 o Ho1 Ho).
    rewrite andb_false_r. lia.
  - rewrite (count_callbacks_none _ _ evs Hno). lia.
Qed.

(** Every step adds to the history. *)
Lemma step_new_trace s l s' :
  step s l s' → ∃ evs, sys_trace s' = sys_trace s ++ evs.
Proof. intros Hstep. destruct Hstep; simpl; eauto. Qed.

Lemma filter_no_callback_from sites a evs :
  count_callbacks sites a evs = 0%nat →
  List.filter (callback_from sites a) evs = [].
Proof.
  induction evs as [|ev evs IH]; [reflexivity |].
  simpl. destruct (callback_from sites a ev); [discriminate |].
  intros H. now apply IH.
Qed.

(** X10.  The registry of a running driver is well formed: it holds each
    request once; a request in it is dead exactly when the write end of its
    pipe has been closed; each request in it has its sound file. *)
Theorem registry_well_formed s :
  reachable s →
  NoDup (o_addr <$> registry s) ∧
  ∀ o, o ∈ registry s →
       (o_dead o = true ↔ o_pipe_fd1 o < 0) ∧
       is_null (o_file o) = false ∧
       (o_addr o < sys_next s)%nat.
Proof.
  intros Hreach.
  pose proof (reachable_cb_inv s Hreach) as Hci.
  split; [apply Hci |].
  intros o Ho. split; [now apply (ci_pipe s Hci) |].
  split; [now apply (wi_file s (reachable_worker_inv s Hreach)) |].
  now apply (bi_fresh s (reachable_basic_inv s Hreach)).
Qed.

Lemma registry_well_formed_witness :
  NoDup (o_addr <$> registry (final run_late_cancel)) ∧
  ∀ o, o ∈ registry (final run_late_cancel) →
       (o_dead o = true ↔ o_pipe_fd1 o < 0) ∧
       is_null (o_file o) = false ∧
       (o_addr o < sys_next (final run_late_cancel))%nat.
Proof.
  apply registry_well_formed.
  apply final_reachable. vm_compute. eexists. reflexivity.
Defined.

(** A run of [exec] is a run of the system. *)
Lemma run_steps acts : ∀ s s', run s acts = Some s' → steps s s'.
Proof.
  induction acts as [|act acts IH]; intros s s' Hrun; simpl in Hrun.
  - inversion Hrun; subst. apply steps_refl.
  - destruct (exec s act) as [s1|] eqn:Hexec; [| discriminate].
    destruct (exec_step _ _ _ Hexec) as [l Hstep].
    assert (H1 : steps s s1) by exact (steps_step s s l s1 (steps_refl s) Hstep).
    specialize (IH s1 s' Hrun).
    clear Hrun Hexec Hstep. induction IH as [| s1 s2 l' s3 _ IH' Hstep'];
      [exact H1 |].
    exact (steps_step _ _ _ _ (IH' H1) Hstep').
Qed.

(** What follows the end of [run_to_end]: the id is cancelled, played again
    and cancelled again. *)
Definition after_the_end : list action :=
  [ACancel 7; play 7 (Some 1%nat) 1; worker 1; ACancel 7].

(** X11.  A request that its worker has taken off the registry and freed
    is never called back again, whatever calls and worker steps follow: it
    stays among the freed requests, and the callbacks made for it stay as
    they are (also when a later request carries the same id and is
    cancelled). *)
Theorem freed_request_gets_no_callback s s' o :
  reachable s → steps s s' → o ∈ sys_retired s →
  o ∈ sys_retired s' ∧
  List.filter (callback_from (λ _, true) (o_addr o)) (sys_trace s')
  = List.filter (callback_from (λ _, true) (o_addr o)) (sys_trace s) ∧
  callbacks (o_addr o) (sys_trace s') = callbacks (o_addr o) (sys_trace s).
Proof.
  intros Hreach Hsteps Ho.
  induction Hsteps as [s | s s1 l s2 Hsteps IH Hstep];
    [split; [exact Ho | split; reflexivity] |].
  destruct (IH Hreach Ho) as (Ho1 & Hev1 & Hc1).
  pose proof (steps_reachable _ _ Hreach Hsteps) as Hreach1.
  destruct (retired_step s1 l s2 o Hreach1 Hstep Ho1) as [Ho2 Hc2].
  split; [exact Ho2 |]. split; [| unfold callbacks in *; now rewrite Hc2].
  rewrite <- Hev1.
  destruct (step_new_trace s1 l s2 Hstep) as (evs & Htr).
  specialize (Hc2 (λ _, true)). rewrite Htr in Hc2. rewrite Htr.
  rewrite count_callbacks_app in Hc2.
  assert (Hzero : count_callbacks (λ _, true) (o_addr o) evs = 0%nat) by lia.
  rewrite List.filter_app.
  rewrite (filter_no_callback_from _ _ _ Hzero). apply app_nil_r.
Qed.

Lemma freed_request_gets_no_callback_witness :
  request_playing_7 ∈ sys_retired (final (run_to_end ++ after_the_end)) ∧
  List.filter (callback_from (λ _, true) 0%nat)
              (sys_trace (final (run_to_end ++ after_the_end)))
  = List.filter (callback_from (λ _, true) 0%nat)
                (sys_trace (final run_to_end)) ∧
  callbacks 0 (sys_trace (final (run_to_end ++ after_the_end)))
  = callbacks 0 (sys_trace (final run_to_end)).
Proof.
  apply (freed_request_gets_no_callback (final run_to_end)
           (final (run_to_end ++ after_the_end)) request_playing_7).
  - apply final_reachable. vm_compute. eexists. reflexivity.
  - apply (run_steps after_the_end). vm_compute. reflexivity.
  - vm_compute. apply list_elem_of_here.
Defined.

(** X12.  Once [driver_destroy] has returned, no worker is left and the
    driver state is gone, and the context stays closed until it is opened
    again: a play, cancel or destroy call on it is refused and changes
    nothing (a play call with [CA_ERROR_STATE], or [CA_ERROR_INVALID] for bad
    arguments), and so is a [driver_open] that fails; a [driver_open] that
    succeeds gives an open driver with an empty registry. *)
Theorem driver_closed_after_destroy s :
  reachable s → sys_destroy s = DDone →
  c_private (sys_ctx s) = None ∧
  sys_threads s = ∅ ∧
  ∀ l s', step s l s' →
    sys_trace s' = sys_trace s ∧ sys_threads s' = ∅ ∧
    match l with
    | LOpen ret =>
        if is_error ret
        then sys_ctx s' = sys_ctx s ∧ sys_destroy s' = DDone
        else sys_ctx s' = set_private (sys_ctx s) (Some priv_open) ∧
             registry s' = [] ∧ sys_destroy s' = DIdle
    | LPlay _ _ ret =>
        (ret = CA_ERROR_STATE ∨ ret = CA_ERROR_INVALID) ∧
        sys_ctx s' = sys_ctx s ∧ sys_destroy s' = DDone
    | LCancel _ | LDestroy =>
        sys_ctx s' = sys_ctx s ∧ sys_destroy s' = DDone
    | LWorker _ => False
    end.
Proof.
  intros Hreach Hdone.
  pose proof (reachable_basic_inv s Hreach) as Hb.
  assert (Hnone : c_private (sys_ctx s) = None) by now apply (bi_done s Hb).
  assert (Hempty : sys_threads s = ∅).
  { apply map_empty. intros a.
    destruct (sys_threads s !! a) as [pc|] eqn:Hl; [| reflexivity].
    destruct (wi_registered s (reachable_worker_inv s Hreach) a
                (mk_is_Some _ _ Hl)) as (o & Ho & _).
    unfold registry in Ho. rewrite Hnone in Ho.
    now apply elem_of_nil in Ho. }
  split; [exact Hnone |]. split; [exact Hempty |].
  intros l s' Hstep.
  step_cases Hstep;
    try congruence;
    try (rewrite Hempty, lookup_empty in Hth; discriminate).
  - destruct (driver_open_cases _ _ _ _ Hdo) as [(-> & _ & ->) | (-> & ->)];
      simpl; rewrite app_nil_r; repeat split; assumption.
  - destruct (driver_play_closed _ _ _ _ _ _ _ _ _ _ Hnone Hplay)
      as (-> & -> & ->).
    simpl. rewrite app_nil_r. repeat split; try assumption.
    unfold driver_play in Hplay. rewrite Hnone in Hplay.
    destruct (is_null pl); [inversion Hplay; now right |].
    destruct (negb _); inversion Hplay; [now right | now left].
  - rewrite (driver_cancel_closed _ _ Hnone) in Hcancel.
    inversion Hcancel; subst. simpl. rewrite app_nil_r.
    repeat split; assumption.
  - unfold driver_destroy in Hdestroy. rewrite Hnone in Hdestroy.
    inversion Hdestroy; subst. simpl. rewrite app_nil_r.
    repeat split; assumption.
Qed.

Lemma driver_closed_after_destroy_witness :
  c_private (sys_ctx (final run_destroy)) = None ∧
  sys_threads (final run_destroy) = ∅ ∧
  ∀ l s', step (final run_destroy) l s' →
    sys_trace s' = sys_trace (final run_destroy) ∧ sys_threads s' = ∅ ∧
    match l with
    | LOpen ret =>
        if is_error ret
        then sys_ctx s' = sys_ctx (final run_destroy) ∧
             sys_destroy s' = DDone
        else sys_ctx s'
             = set_private (sys_ctx (final run_destroy)) (Some priv_open) ∧
             registry s' = [] ∧ sys_destroy s' = DIdle
    | LPlay _ _ ret =>
        (ret = CA_ERROR_STATE ∨ ret = CA_ERROR_INVALID) ∧
        sys_ctx s' = sys_ctx (final run_destroy) ∧ sys_destroy s' = DDone
    | LCancel _ | LDestroy =>
        sys_ctx s' = sys_ctx (final run_destroy) ∧ sys_destroy s' = DDone
    | LWorker _ => False
    end.
Proof.
  apply driver_closed_after_destroy.
  - apply final_reachable. vm_compute. eexists. reflexivity.
  - vm_compute. reflexivity.
Defined.

(** X13.  [driver_play] takes a positive return value of [pthread_create]
    for success: it returns [CA_SUCCESS] and leaves the request in the
    registry, but no worker has been started for it.  Such a request stays
    in the registry in every later state, and [driver_destroy] never
    returns. *)
Theorem unstarted_worker_blocks_destroy s id pl cb ud e c' evs th s' :
  reachable s →
  play_env_ok s e →
  0 < pe_thread e →
  driver_play (Some (sys_ctx s)) id pl cb ud e
  = PlayReturn CA_SUCCESS (Some c') evs th →
  steps (after_play s c' evs th) s' →
  th = None ∧
  (∃ o, o ∈ registry s' ∧ o_addr o = sys_next s) ∧
  sys_threads s' !! sys_next s = None ∧
  sys_destroy s' ≠ DDone.
Proof.
  intros Hreach Hok Hpos Hplay Hsteps.
  pose proof (reachable_basic_inv s Hreach) as Hb.
  assert (Hth : th = None).
  { destruct th as [a|]; [| reflexivity].
    apply driver_play_thread in Hplay. lia. }
  subst th.
  assert (Hreach1 : reachable (after_play s c' evs None)).
  { apply (reach_step s (LPlay id cb CA_SUCCESS)); [exact Hreach |].
    exact (step_play s id pl cb ud e CA_SUCCESS c' evs None Hok Hplay). }
  assert (Horphan : orphan (after_play s c' evs None) (sys_next s)).
  { destruct (c_private (sys_ctx s)) as [p|] eqn:Hp.
    2:{ unfold driver_play in Hplay. rewrite Hp in Hplay.
        destruct (is_null pl); [discriminate |].
        destruct (negb _); discriminate. }
    assert (Hfr : ∀ a o, pe_new e = Some a → o ∈ p_outstanding p →
                           o_addr o ≠ a).
    { intros a o Hnew Ho Heq. destruct Hok as [Hok | Hok]; [congruence |].
      rewrite Hok in Hnew. inversion Hnew; subst a.
      pose proof (bi_fresh s Hb o) as Hfresh.
      rewrite (registry_open _ _ Hp) in Hfresh.
      specialize (Hfresh Ho). lia. }
    destruct (driver_play_open _ _ _ _ _ _ _ _ _ _ _ Hp Hfr Hplay)
      as (_ & p' & Hp' & _ & Hr).
    destruct Hr as [(_ & _ & Hne) | (o & Hr & Hnew & _)];
      [now destruct Hne |].
    assert (Ha : o_addr o = sys_next s).
    { destruct Hok as [Hok | Hok]; congruence. }
    split.
    - exists o. split; [| exact Ha].
      unfold registry. simpl. rewrite Hp', Hr. apply list_elem_of_here.
    - simpl. destruct (sys_threads s !! sys_next s) as [pc|] eqn:Hl;
        [| reflexivity].
      pose proof (ci_threads s (reachable_cb_inv s Hreach) (sys_next s)
                    (mk_is_Some _ _ Hl)). lia. }
  split; [reflexivity |].
  assert (H : orphan s' (sys_next s) ∧ reachable s').
  { clear Hplay. revert Hsteps Hreach1 Horphan.
    generalize (after_play s c' evs None). intros s1 Hsteps Hreach1 Horphan.
    induction Hsteps as [| s1 s2 l s3 Hsteps IH Hstep];
      [split; assumption |].
    destruct (IH Hreach1 Horphan) as [Ho2 Hr2].
    split; [exact (orphan_step s2 l s3 _ Hr2 Ho2 Hstep) |].
    exact (reach_step _ _ _ Hr2 Hstep). }
  destruct H as [[(o & Ho & Ha) Hnone] Hreach'].
  split; [now exists o |]. split; [exact Hnone |].
  intros Hdone.
  apply (bi_done s' (reachable_basic_inv s' Hreach')) in Hdone.
  unfold registry in Ho. rewrite Hdone in Ho. now apply elem_of_nil in Ho.
Qed.

Lemma unstarted_worker_blocks_destroy_witness :
  @None nat = None ∧
  (∃ o, o ∈ registry (final run_orphan) ∧ o_addr o = 0%nat) ∧
  sys_threads (final run_orphan) !! 0%nat = None ∧
  sys_destroy (final run_orphan) ≠ DDone.
Proof.
  eapply (unstarted_worker_blocks_destroy (init_system ctx_open) 5
            (Some 0%nat) (Some 1%nat) None play_env_eagain).
  - exact reachable_opened.
  - right. reflexivity.
  - reflexivity.
  - reflexivity.
  - apply steps_refl.
Defined.

(** ** The wait of driver_destroy ends *)

(** The steps the workers of the registered requests have left, when the
    requests are dead. *)
Fixpoint work (m : gmap nat wpc) (l : list outstanding) : nat :=
  match l with
  | [] => 0
  | o :: l => steps_left (m !! o_addr o) + work m l
  end.

Definition sem_count (s : system) : nat :=
  match c_private (sys_ctx s) with
  | Some p => p_semaphore p
  | None => 0
  end.

(** A bound on the steps that the workers and the destroying caller can
    take while [driver_destroy] waits. *)
Definition drain_measure (s : system) : nat :=
  3 * work (sys_threads s) (registry s) + 2 * sem_count s
  + match sys_destroy s with DWoken => 1 | _ => 0 end.

(** [driver_destroy] is in its wait loop, and every request of the registry
    is dead and has its worker. *)
Definition draining (s : system) : Prop :=
  (sys_destroy s = DWait ∨ sys_destroy s = DWoken) ∧
  ∀ o, o ∈ registry s →
       o_dead o = true ∧ is_Some (sys_threads s !! o_addr o).

(** A step of the destroying caller or of a worker. *)
Definition drain_label (l : label) : Prop :=
  l = LDestroy ∨ ∃ a, l = LWorker a.

(** A run of [n] such steps, each from a state in which [driver_destroy]
    waits. *)
Inductive drain_run : nat → system → system → Prop :=
| drain_run_nil s : drain_run 0 s s
| drain_run_step n s s1 l s2 :
    drain_run n s s1 → draining s1 → drain_label l → step s1 l s2 →
    drain_run (S n) s s2.

Lemma work_insert_absent m l a pc :
  (∀ o, o ∈ l → o_addr o ≠ a) → work (<[a := pc]> m) l = work m l.
Proof.
  induction l as [|o l IH]; intros Habs; [reflexivity |].
  simpl. rewrite lookup_insert_ne by (apply not_eq_sym, Habs; left).
  rewrite IH; [reflexivity |]. intros o' Ho'. apply Habs. now right.
Qed.

Lemma work_delete_absent m l a :
  (∀ o, o ∈ l → o_addr o ≠ a) → work (delete a m) l = work m l.
Proof.
  induction l as [|o l IH]; intros Habs; [reflexivity |].
  simpl. rewrite lookup_delete_ne by (apply not_eq_sym, Habs; left).
  rewrite IH; [reflexivity |]. intros o' Ho'. apply Habs. now right.
Qed.

Lemma NoDup_addr_head o l :
  NoDup (o_addr <$> o :: l) →
  NoDup (o_addr <$> l) ∧ ∀ o', o' ∈ l → o_addr o' ≠ o_addr o.
Proof.
  rewrite fmap_cons. intros [Hnot Hnd]%NoDup_cons. split; [exact Hnd |].
  intros o' Ho' Heq. apply Hnot. rewrite <- Heq.
  now apply list_elem_of_fmap_2.
Qed.

(** One worker moves: the work left changes by what that worker has
    left. *)
Lemma work_insert m l a pc :
  NoDup (o_addr <$> l) → (∃ o, o ∈ l ∧ o_addr o = a) →
  (work (<[a := pc]> m) l + steps_left (m !! a)
   = work m l + steps_left (Some pc))%nat.
Proof.
  induction l as [|x l IH]; intros Hnd (o & Ho & Ha);
    [now apply elem_of_nil in Ho |].
  destruct (NoDup_addr_head x l Hnd) as [Hnd' Hxs].
  cbn [work]. destruct (decide (o_addr x = a)) as [Hx | Hx].
  - rewrite Hx, lookup_insert_eq.
    rewrite work_insert_absent; [lia |].
    intros o' Ho'. rewrite <- Hx. now apply Hxs.
  - rewrite lookup_insert_ne by congruence.
    apply elem_of_cons in Ho as [-> | Ho]; [contradiction |].
    specialize (IH Hnd' (ex_intro _ o (conj Ho Ha))). lia.
Qed.

(** One worker leaves. *)
Lemma work_delete m l a :
  NoDup (o_addr <$> l) → (∃ o, o ∈ l ∧ o_addr o = a) →
  (work (delete a m) (llist_remove a l) + steps_left (m !! a)
   = work m l)%nat.
Proof.
  induction l as [|x l IH]; intros Hnd (o & Ho & Ha);
    [now apply elem_of_nil in Ho |].
  destruct (NoDup_addr_head x l Hnd) as [Hnd' Hxs].
  destruct (decide (o_addr x = a)) as [Hx | Hx].
  - rewrite <- Hx, llist_remove_head.
    rewrite llist_remove_fresh by exact Hxs.
    rewrite work_delete_absent by exact Hxs.
    cbn [work]. lia.
  - unfold llist_remove. rewrite filter_cons_True by exact Hx.
    cbn [work]. rewrite lookup_delete_ne by congruence.
    apply elem_of_cons in Ho as [-> | Ho]; [contradiction |].
    specialize (IH Hnd' (ex_intro _ o (conj Ho Ha))).
    unfold llist_remove in IH. lia.
Qed.

(** A step of the worker of a dead request brings the worker nearer to its
    end. *)
Lemma dead_worker_steps_left s a s' o :
  reachable s → step s (LWorker a) s' →
  o ∈ registry s → o_addr o = a → o_dead o = true →
  (steps_left (sys_threads s' !! a) < steps_left (sys_threads s !! a))%nat.
Proof.
  intros Hreach Hstep Ho Ha Hdead.
  pose proof (reachable_cb_inv s Hreach) as Hci.
  assert (Hsame : ∀ o0, o0 ∈ registry s → o_addr o0 = a → o0 = o).
  { intros o0 Ho0 Ha0.
    apply (NoDup_addr_eq (registry s)); [apply Hci | assumption..|congruence]. }
  inversion Hstep as
    [ | | | | | | | |
    | s0 a0 o0 f mok Hth Ho0 Ha0 Hf
    | s0 a0 o0 ds nb d Hth Ho0 Ha0
    | s0 a0 o0 ds nb d e Hth Ho0 Ha0 Hpoll
    | s0 a0 o0 ds nb d e Hth Ho0 Ha0
    | s0 a0 o0 ret Hth Ho0 Ha0
    | s0 a0 o0 ret Hth Ho0 Ha0
    | s0 a0 o0 p Hth Hp Ho0 Ha0 ]; subst; simpl;
    rewrite Hth, ?lookup_insert_eq, ?lookup_delete_eq; simpl.
  - destruct mok; simpl; lia.
  - rewrite (Hsame o0 Ho0 Ha0), Hdead. simpl. lia.
  - lia.
  - destruct (loop_body o0 ds nb d e); simpl; lia.
  - rewrite (Hsame o0 Ho0 Ha0), Hdead. simpl. lia.
  - lia.
  - lia.
Qed.

(** What a step of a worker changes: its own position, or, when it leaves,
    the registry and perhaps the semaphore. *)
Lemma worker_step_shape s a s' :
  basic_inv s → step s (LWorker a) s' →
  sys_destroy s' = sys_destroy s ∧
  (∃ o, o ∈ registry s ∧ o_addr o = a) ∧
  ((∃ pc', sys_threads s' = <[a := pc']> (sys_threads s) ∧
           sys_ctx s' = sys_ctx s) ∨
   (sys_threads s !! a = Some WUnregister ∧
    sys_threads s' = delete a (sys_threads s) ∧
    registry s' = llist_remove a (registry s) ∧
    (sem_count s' <= S (sem_count s))%nat)).
Proof.
  intros Hb Hstep.
  inversion Hstep as
    [ | | | | | | | |
    | s0 a0 o0 f mok Hth Ho0 Ha0 Hf
    | s0 a0 o0 ds nb d Hth Ho0 Ha0
    | s0 a0 o0 ds nb d e Hth Ho0 Ha0 Hpoll
    | s0 a0 o0 ds nb d e Hth Ho0 Ha0
    | s0 a0 o0 ret Hth Ho0 Ha0
    | s0 a0 o0 ret Hth Ho0 Ha0
    | s0 a0 o0 p Hth Hp Ho0 Ha0 ]; subst; simpl;
    (split; [reflexivity |]);
    try (split; [now exists o0 | left; eexists; split; reflexivity]).
  split; [exists o0; split; [now rewrite (registry_open _ _ Hp) | reflexivity] |].
  right. destruct (thread_unregister_flags p o0) as (_ & _ & _ & Hr & Hn).
  split; [exact Hth |]. split; [reflexivity |].
  unfold registry, sem_count. simpl. rewrite Hp, Hr, Hn.
  split; [reflexivity |].
  destruct (bool_decide _ && _); lia.
Qed.

(** One step of the drain. *)
Lemma drain_step s l s' :
  reachable s → draining s → drain_label l → step s l s' →
  (drain_measure s' < drain_measure s)%nat ∧
  (sys_destroy s' = DDone ∨ draining s').
Proof.
  intros Hreach [Hphase Hall] Hl Hstep.
  pose proof (reachable_basic_inv s Hreach) as Hb.
  pose proof (reachable_cb_inv s Hreach) as Hci.
  destruct Hl as [-> | [a ->]].
  - (* the destroying caller *)
    inversion Hstep as
      [ | | | s0 ret c' evs Hidle Hopen Hdestroy
      | s0 c' evs Hidle Hdestroy
      | s0 ret c' evs Hclosed Hdestroy
      | s0 p n Hwait Hp Hsem
      | s0 p ret c' evs Hwoken Hp Hloop
      | s0 p c' evs Hwoken Hp Hloop
      | | | | | | | ]; subst;
      try (destruct Hphase; congruence).
    + split.
      * unfold drain_measure, sem_count, registry. simpl.
        rewrite Hp, Hwait, Hsem. simpl. lia.
      * right. split; [now right |].
        unfold registry. simpl. rewrite <- (registry_open _ _ Hp).
        exact Hall.
    + unfold destroy_wait_loop in Hloop.
      destruct (p_outstanding p) eqn:Hnil; [| discriminate].
      inversion Hloop; subst ret c' evs.
      split; [| now left].
      unfold drain_measure, sem_count, registry. simpl.
      rewrite Hwoken. lia.
    + unfold destroy_wait_loop in Hloop.
      destruct (p_outstanding p) eqn:Hnil; [discriminate |].
      inversion Hloop; subst c' evs.
      split.
      * unfold drain_measure, sem_count, registry. simpl.
        rewrite Hp, Hwoken. simpl. lia.
      * right. split; [now left |].
        unfold registry. simpl. rewrite <- (registry_open _ _ Hp).
        exact Hall.
  - (* a worker *)
    destruct (worker_step_shape s a s' Hb Hstep)
      as (Hd & (o & Ho & Ha) & Hshape).
    destruct (Hall o Ho) as [Hdead _].
    pose proof (dead_worker_steps_left s a s' o Hreach Hstep Ho Ha Hdead)
      as Hless.
    pose proof (ci_nodup s Hci) as Hnd.
    destruct Hshape as [(pc' & Hth & Hctx) | (Hun & Hth & Hr & Hsem)].
    + assert (Hreg : registry s' = registry s)
        by (unfold registry; now rewrite Hctx).
      split.
      * unfold drain_measure, sem_count. rewrite Hd, Hreg, Hctx, Hth.
        pose proof (work_insert (sys_threads s) (registry s) a pc' Hnd
                      (ex_intro _ o (conj Ho Ha))) as Hw.
        rewrite Hth, lookup_insert_eq in Hless. lia.
      * right. split; [now rewrite Hd |].
        intros o' Ho'. rewrite Hreg in Ho'.
        destruct (Hall o' Ho') as [Hd' Hs']. split; [exact Hd' |].
        rewrite Hth. destruct (decide (a = o_addr o')) as [-> | Hne].
        -- rewrite lookup_insert_eq. eauto.
        -- now rewrite lookup_insert_ne.
    + split.
      * unfold drain_measure. rewrite Hd, Hr, Hth.
        pose proof (work_delete (sys_threads s) (registry s) a Hnd
                      (ex_intro _ o (conj Ho Ha))) as Hw.
        rewrite Hun in Hw. simpl in Hw. lia.
      * right. split; [now rewrite Hd |].
        intros o' Ho'. rewrite Hr in Ho'.
        apply elem_of_llist_remove in Ho' as [Hne Ho'].
        destruct (Hall o' Ho') as [Hd' Hs']. split; [exact Hd' |].
        rewrite Hth, lookup_delete_ne by congruence. exact Hs'.
Qed.

(** The scenario of a drain: [driver_destroy] is called while a request
    plays, and waits. *)
Definition run_draining : list action :=
  [play 11 (Some 1%nat) 0; worker 0; ADestroy].

(** X14.  The wait of [driver_destroy] ends.  While [driver_destroy] is in
    its wait loop and every request of the registry is dead and has its
    worker (as it is when the wait begins and every accepted request got
    its thread), whatever the environment answers to the workers: some
    worker or the destroying caller can take a step; each such step makes a
    measure of the work left smaller, and leads to a state of the same kind
    or to the return of [driver_destroy]; so a run of such steps is at most
    as long as the measure says, and one that cannot be continued has ended
    with the return of [driver_destroy]. *)
Theorem driver_destroy_wait_ends s :
  reachable s → draining s →
  (∃ l s', drain_label l ∧ step s l s') ∧
  (∀ l s', drain_label l → step s l s' →
     (drain_measure s' < drain_measure s)%nat ∧
     (sys_destroy s' = DDone ∨ draining s')) ∧
  (∀ n s', drain_run n s s' → (n + drain_measure s' <= drain_measure s)%nat).
Proof.
  intros Hreach Hdr. split; [| split].
  - destruct Hdr as [Hphase Hall].
    pose proof (reachable_basic_inv s Hreach) as Hb.
    destruct (registry s) as [|o l] eqn:Hr.
    + destruct Hphase as [Hwait | Hwoken].
      * destruct (bi_wakeup s Hb Hwait Hr) as (p & Hp & Hsem).
        destruct (p_semaphore p) as [|n] eqn:Hn; [lia |].
        exists LDestroy. eexists. split; [now left |].
        exact (step_destroy_wake s p n Hwait Hp Hn).
      * destruct (bi_signal s Hb (or_intror Hwoken)) as (p & Hp & _).
        exists LDestroy. eexists. split; [now left |].
        apply (step_destroy_recheck_return s p CA_SUCCESS
                 (set_private (sys_ctx s) None) []); try done.
        unfold destroy_wait_loop. rewrite (registry_open _ _ Hp) in Hr.
        now rewrite Hr.
    + destruct (Hall o (list_elem_of_here o l)) as [_ [pc Hpc]].
      destruct (worker_step_enabled s (o_addr o) pc Hreach Hpc)
        as [s' Hstep].
      exists (LWorker (o_addr o)), s'. split; [right; eauto | exact Hstep].
  - intros l s' Hl Hstep. exact (drain_step s l s' Hreach Hdr Hl Hstep).
  - intros n s' Hrun.
    assert (H : reachable s' ∧
                (n + drain_measure s' <= drain_measure s)%nat).
    { induction Hrun as [s | n s s1 l s2 Hrun IH Hdr1 Hl Hstep];
        [split; [exact Hreach | lia] |].
      destruct (IH Hreach Hdr) as [Hreach1 Hle].
      split; [exact (reach_step _ _ _ Hreach1 Hstep) |].
      destruct (drain_step s1 l s2 Hreach1 Hdr1 Hl Hstep) as [Hlt _]. lia. }
    exact (proj2 H).
Qed.

Lemma driver_destroy_wait_ends_witness :
  (∃ l s', drain_label l ∧ step (final run_draining) l s') ∧
  (∀ l s', drain_label l → step (final run_draining) l s' →
     (drain_measure s' < drain_measure (final run_draining))%nat ∧
     (sys_destroy s' = DDone ∨ draining s')) ∧
  (∀ n s', drain_run n (final run_draining) s' →
     (n + drain_measure s' <= drain_measure (final run_draining))%nat).
Proof.
  apply driver_destroy_wait_ends.
  - apply final_reachable. vm_compute. eexists. reflexivity.
  - split; [left; reflexivity |].
    intros o Ho. vm_compute in Ho.
    apply list_elem_of_singleton in Ho. subst o.
    split; [reflexivity |]. vm_compute. eexists. reflexivity.
Defined.

(** ** What a callback is called with *)

(** A callback event fits the requests [l]: it is made for one of them,
    with the function, the id and the userdata of that request, and with
    [CA_ERROR_CANCELED] when [driver_cancel] makes it, [CA_ERROR_DESTROYED]
    when [driver_destroy] does. *)
Definition fits (l : list outstanding) (ev : event) : Prop :=
  match ev with
  | EvCallback site req cb id status userdata =>
      (∃ o, o ∈ l ∧ o_addr o = req ∧ o_callback o = Some cb ∧
            o_id o = id ∧ o_userdata o = userdata) ∧
      match site with
      | ByCancel => status = CA_ERROR_CANCELED
      | ByDestroy => status = CA_ERROR_DESTROYED
      | ByWorker => True
      end
  | _ => True
  end.

(** Every request of [l] is in [l'], but for its flag and descriptors. *)
Definition carried (l l' : list outstanding) : Prop :=
  ∀ o, o ∈ l →
    ∃ o', o' ∈ l' ∧ o_addr o' = o_addr o ∧ o_callback o' = o_callback o ∧
          o_id o' = o_id o ∧ o_userdata o' = o_userdata o.

Lemma fits_carried l l' ev : carried l l' → fits l ev → fits l' ev.
Proof.
  intros Hc. destruct ev; simpl; try done.
  intros [(o & Ho & Ha & Hcb & Hid & Hud) Hsite]. split; [| exact Hsite].
  destruct (Hc o Ho) as (o' & Ho' & Ha' & Hcb' & Hid' & Hud').
  exists o'. repeat split; congruence.
Qed.

Lemma fits_no_callback l evs :
  Forall (λ ev, is_callback ev = false) evs → Forall (fits l) evs.
Proof.
  intros Hno. eapply Forall_impl; [exact Hno |].
  intros ev Hev. destruct ev; done.
Qed.

Lemma call_back_fits l site status o :
  o ∈ l →
  match site with
  | ByCancel => status = CA_ERROR_CANCELED
  | ByDestroy => status = CA_ERROR_DESTROYED
  | ByWorker => True
  end →
  Forall (fits l) (call_back site status o).
Proof.
  intros Ho Hsite. unfold call_back.
  destruct (o_callback o) as [cb|] eqn:Hcb; [| constructor].
  constructor; [| constructor]. split; [| exact Hsite].
  exists o. now repeat split.
Qed.

Lemma mark_effects_fits sel site status l :
  match site with
  | ByCancel => status = CA_ERROR_CANCELED
  | ByDestroy => status = CA_ERROR_DESTROYED
  | ByWorker => True
  end →
  Forall (fits l) (mark_effects sel site status l).
Proof.
  intros Hsite. apply Forall_forall. intros ev Hev.
  unfold mark_effects in Hev.
  apply list_elem_of_bind in Hev as (o & Hev & Ho).
  destruct (sel o); [| now apply elem_of_nil in Hev].
  apply elem_of_app in Hev as [Hev | Hev].
  - pose proof (call_back_fits l site status o Ho Hsite) as Hall.
    rewrite Forall_forall in Hall. now apply Hall.
  - pose proof (fits_no_callback l _ (close_if_open_no_callback
                                        (o_pipe_fd1 o))) as Hall.
    rewrite Forall_forall in Hall. now apply Hall.
Qed.

Lemma step_new_events s l s' :
  basic_inv s → step s l s' →
  ∃ evs, sys_trace s' = sys_trace s ++ evs ∧ Forall (fits (registry s)) evs.
Proof.
  intros [Hflags Hsig Hwake Hdone Hfresh] Hstep.
  step_cases Hstep; (eexists; split; [reflexivity |]).
  - constructor.
  - destruct (c_private (sys_ctx s)) as [p|] eqn:Hp.
    + assert (Hfr : ∀ a o, pe_new e = Some a → o ∈ p_outstanding p →
                             o_addr o ≠ a).
      { intros a o Hnew Ho Heq. destruct Hok as [Hok | Hok]; [congruence |].
        rewrite Hok in Hnew. inversion Hnew; subst a.
        specialize (Hfresh o). rewrite (registry_open _ _ Hp) in Hfresh.
        specialize (Hfresh Ho). lia. }
      destruct (driver_play_open _ _ _ _ _ _ _ _ _ _ _ Hp Hfr Hplay)
        as (Hno & _).
      now apply fits_no_callback.
    + destruct (driver_play_closed _ _ _ _ _ _ _ _ _ _ Hp Hplay)
        as (_ & -> & _).
      constructor.
  - destruct (c_private (sys_ctx s)) as [p|] eqn:Hp.
    + rewrite (driver_cancel_open _ _ _ Hp) in Hcancel.
      inversion Hcancel; subst ret c' evs.
      rewrite (registry_open _ _ Hp). now apply mark_effects_fits.
    + rewrite (driver_cancel_closed _ _ Hp) in Hcancel.
      inversion Hcancel; subst ret c' evs. constructor.
  - destruct (c_private (sys_ctx s)) as [p|] eqn:Hp; [| discriminate].
    destruct (Hflags p eq_refl) as [Hfm Hfa].
    rewrite (driver_destroy_open _ _ Hp Hfm Hfa) in Hdestroy.
    unfold destroy_wait_loop in Hdestroy. simpl in Hdestroy.
    destruct (marked live (p_outstanding p)); [| discriminate].
    inversion Hdestroy; subst ret c' evs.
    rewrite (registry_open _ _ Hp). now apply mark_effects_fits.
  - destruct (c_private (sys_ctx s)) as [p|] eqn:Hp;
      [| unfold driver_destroy in Hdestroy; rewrite Hp in Hdestroy;
         discriminate].
    destruct (Hflags p eq_refl) as [Hfm Hfa].
    rewrite (driver_destroy_open _ _ Hp Hfm Hfa) in Hdestroy.
    unfold destroy_wait_loop in Hdestroy. simpl in Hdestroy.
    destruct (marked live (p_outstanding p)); [discriminate |].
    inversion Hdestroy; subst c' evs.
    rewrite (registry_open _ _ Hp). now apply mark_effects_fits.
  - assert (Hnone : c_private (sys_ctx s) = None) by now apply Hdone.
    unfold driver_destroy in Hdestroy. rewrite Hnone in Hdestroy.
    inversion Hdestroy; subst. constructor.
  - constructor.
  - unfold destroy_wait_loop in Hloop.
    destruct (p_outstanding p); [| discriminate].
    inversion Hloop; subst. constructor.
  - unfold destroy_wait_loop in Hloop.
    destruct (p_outstanding p); [discriminate |].
    inversion Hloop; subst. constructor.
  - constructor.
  - constructor.
  - constructor.
  - apply fits_no_callback.
    pose proof (loop_body_no_callback o ds nb d e) as Hno.
    destruct (loop_body o ds nb d e); exact Hno.
  - constructor.
  - now apply call_back_fits.
  - apply fits_no_callback, thread_unregister_no_callback.
Qed.

Lemma carried_step s l s' :
  basic_inv s → cb_inv s → step s l s' →
  carried (registry s ++ sys_retired s) (registry s' ++ sys_retired s').
Proof.
  intros Hb Hci Hstep o Ho.
  assert (Hsame : ∀ l' : list outstanding,
                    o ∈ l' → ∃ o', o' ∈ l' ∧ o_addr o' = o_addr o ∧
                    o_callback o' = o_callback o ∧ o_id o' = o_id o ∧
                    o_userdata o' = o_userdata o).
  { intros l' Ho'. exists o. now repeat split. }
  destruct (step_classify s l s' Hb Hstep) as
    [ evs Hr Hret _ _ _ _ _
    | o1 evs Hr _ _ _ Hret _ _ _ _
    | sel site status Hr _ _ Hret _ _ _
    | a1 o1 ret called Hr _ _ _ _ _ Hret _ _
    | a1 o1 evs Hr Ho1 Ha1 _ _ Hret _ _ _ ];
    rewrite Hr, Hret.
  - now apply Hsame.
  - apply Hsame. apply elem_of_app in Ho as [Ho | Ho];
      apply elem_of_app; [left; now right | now right].
  - apply elem_of_app in Ho as [Ho | Ho].
    + exists (if sel o then set_dead_closed o else o). split.
      * apply elem_of_app. left. apply elem_of_marked. now exists o.
      * now destruct (sel o).
    + apply Hsame. apply elem_of_app. now right.
  - now apply Hsame.
  - apply Hsame. apply elem_of_app in Ho as [Ho | Ho].
    + destruct (decide (o_addr o = a1)) as [Heq | Hne].
      * assert (o = o1) as ->.
        { apply (NoDup_addr_eq (registry s)); [apply Hci | assumption..|].
          congruence. }
        apply elem_of_app. right. apply elem_of_app. right.
        apply list_elem_of_here.
      * apply elem_of_app. left. now apply elem_of_llist_remove.
    + apply elem_of_app. right. apply elem_of_app. now left.
Qed.

Lemma reachable_fits s :
  reachable s → Forall (fits (registry s ++ sys_retired s)) (sys_trace s).
Proof.
  induction 1 as [c0 e c Hopen | s l s' Hreach IH Hstep]; [constructor |].
  pose proof (reachable_basic_inv s Hreach) as Hb.
  pose proof (carried_step s l s' Hb (reachable_cb_inv s Hreach) Hstep)
    as Hcar.
  destruct (step_new_events s l s' Hb Hstep) as (evs & -> & Hevs).
  apply Forall_app. split.
  - eapply Forall_impl; [exact IH |]. intros ev. now apply fits_carried.
  - eapply Forall_impl; [exact Hevs |]. intros ev Hev.
    apply (fits_carried (registry s ++ sys_retired s)); [exact Hcar |].
    revert Hev. apply fits_carried. intros o Ho. exists o.
    split; [apply elem_of_app; now left | now repeat split].
Qed.

(** X15.  Every callback the driver has made was made for a request it
    had accepted, with the callback function, the id and the userdata of
    that request; a callback made by [driver_cancel] carries
    [CA_ERROR_CANCELED] and one made by [driver_destroy]
    [CA_ERROR_DESTROYED]. *)
Theorem callbacks_carry_request_data s site req cb id status userdata :
  reachable s →
  EvCallback site req cb id status userdata ∈ sys_trace s →
  (∃ o, o ∈ registry s ++ sys_retired s ∧ o_addr o = req ∧
        o_callback o = Some cb ∧ o_id o = id ∧ o_userdata o = userdata) ∧
  (site = ByCancel → status = CA_ERROR_CANCELED) ∧
  (site = ByDestroy → status = CA_ERROR_DESTROYED).
Proof.
  intros Hreach Hin.
  pose proof (reachable_fits s Hreach) as Hall.
  rewrite Forall_forall in Hall. specialize (Hall _ Hin).
  destruct Hall as [Hknown Hsite]. split; [exact Hknown |].
  split; intros ->; exact Hsite.
Qed.

Lemma callbacks_carry_request_data_witness :
  (∃ o, o ∈ registry (final run_destroy) ++ sys_retired (final run_destroy) ∧
        o_addr o = 0%nat ∧ o_callback o = Some 1%nat ∧ o_id o = 11 ∧
        o_userdata o = None) ∧
  (ByDestroy = ByCancel → CA_ERROR_DESTROYED = CA_ERROR_CANCELED) ∧
  (ByDestroy = ByDestroy → CA_ERROR_DESTROYED = CA_ERROR_DESTROYED).
Proof.
  apply (callbacks_carry_request_data (final run_destroy)).
  - apply final_reachable. vm_compute. eexists. reflexivity.
  - vm_compute. repeat first [apply list_elem_of_here | apply list_elem_of_further].
Defined.

(** ** What the driver holds *)

(** The resource an effect releases. *)
Definition closed_res (ev : event) : option resource :=
  match ev with
  | EvClose fd => Some (RFd fd)
  | EvSoundClose f => Some (RSound f)
  | _ => None
  end.

(** The resources held after the effects [evs], starting from [held]; there
    is no result when one of the effects releases what is not held. *)
Fixpoint settle (held : list resource) (evs : list event)
  : option (list resource) :=
  match evs with
  | [] => Some held
  | ev :: evs =>
      match closed_res ev with
      | Some r =>
          if decide (r ∈ held) then settle (release r held) evs else None
      | None => settle (account held ev) evs
      end
  end.

Definition fd_res (fd : Z) : list resource :=
  if 0 <=? fd then [RFd fd] else [].

(** What a request holds: the ends of its pipe, its source, the device. *)
Definition owned (o : outstanding) : list resource :=
  fd_res (o_pipe_fd1 o) ++ fd_res (o_pipe_fd0 o) ++
  match o_file o with Some f => [RSound f] | None => [] end ++
  fd_res (o_pcm o).

(** The effects [evs] lead from [held] to [held'], in whatever order the
    resources are listed. *)
Definition settles (held : list resource) (evs : list event)
    (held' : list resource) : Prop :=
  ∃ h, settle held evs = Some h ∧ h ≡ₚ held'.

Lemma release_elem r held : r ∈ held → held ≡ₚ r :: release r held.
Proof.
  induction held as [|h t IH]; intros Hin; [now apply elem_of_nil in Hin |].
  simpl. destruct (decide (h = r)) as [-> | Hne]; [reflexivity |].
  apply elem_of_cons in Hin as [-> | Hin]; [now destruct Hne |].
  rewrite (IH Hin) at 1. apply Permutation_swap.
Qed.

Lemma release_notin r held : r ∉ held → release r held = held.
Proof.
  induction held as [|h t IH]; intros Hnot; [reflexivity |].
  simpl. destruct (decide (h = r)) as [-> | Hne].
  - destruct Hnot. apply list_elem_of_here.
  - f_equal. apply IH. intros Hin. apply Hnot. now right.
Qed.

Lemma release_perm r h1 h2 : h1 ≡ₚ h2 → release r h1 ≡ₚ release r h2.
Proof.
  intros Hperm. destruct (decide (r ∈ h1)) as [Hin | Hnot].
  - assert (Hin2 : r ∈ h2) by now rewrite <- Hperm.
    apply (inj (cons r)).
    now rewrite <- (release_elem r h1 Hin), <- (release_elem r h2 Hin2).
  - assert (Hnot2 : r ∉ h2) by now rewrite <- Hperm.
    now rewrite (release_notin r h1 Hnot), (release_notin r h2 Hnot2).
Qed.

Lemma account_perm ev h1 h2 :
  closed_res ev = None → h1 ≡ₚ h2 → account h1 ev ≡ₚ account h2 ev.
Proof.
  intros Hev Hperm. destruct ev; simpl; try discriminate; try assumption;
    now rewrite Hperm.
Qed.

Lemma settle_perm evs : ∀ h1 h2 h,
  h1 ≡ₚ h2 → settle h1 evs = Some h →
  ∃ h', settle h2 evs = Some h' ∧ h ≡ₚ h'.
Proof.
  induction evs as [|ev evs IH]; intros h1 h2 h Hperm Hs; simpl in *.
  - inversion Hs; subst. now exists h2.
  - destruct (closed_res ev) as [r|] eqn:Hev.
    + destruct (decide (r ∈ h1)) as [Hin | Hnot]; [| discriminate].
      rewrite decide_True by now rewrite <- Hperm.
      exact (IH _ _ _ (release_perm r h1 h2 Hperm) Hs).
    + exact (IH _ _ _ (account_perm ev h1 h2 Hev Hperm) Hs).
Qed.

Lemma settle_app evs evs' : ∀ held,
  settle held (evs ++ evs')
  = match settle held evs with
    | Some h => settle h evs'
    | None => None
    end.
Proof.
  induction evs as [|ev evs IH]; intros held; [reflexivity |].
  simpl. destruct (closed_res ev) as [r|].
  - destruct (decide (r ∈ held)); [apply IH | reflexivity].
  - apply IH.
Qed.

Lemma settles_perm h1 h2 evs h1' h2' :
  h1 ≡ₚ h2 → h1' ≡ₚ h2' → settles h1 evs h1' → settles h2 evs h2'.
Proof.
  intros Hp Hp' (h & Hs & Hh).
  destruct (settle_perm evs h1 h2 h Hp Hs) as (h' & Hs' & Hh').
  exists h'. split; [exact Hs' |]. now rewrite <- Hh', Hh.
Qed.

Lemma settles_app held evs h1 evs' h2 :
  settles held evs h1 → settles h1 evs' h2 → settles held (evs ++ evs') h2.
Proof.
  intros (h & Hs & Hh) H2.
  destruct (settles_perm h1 h evs' h2 h2 (symmetry Hh) (reflexivity _) H2)
    as (h' & Hs' & Hh').
  exists h'. split; [| exact Hh']. now rewrite settle_app, Hs.
Qed.

Lemma settles_nil held : settles held [] held.
Proof. now exists held. Qed.

(** An effect that neither acquires nor releases. *)
Definition neutral (ev : event) : bool :=
  match ev with
  | EvPipe _ _ | EvSoundOpen _ | EvOpen _ _ | EvClose _ | EvSoundClose _ =>
      false
  | _ => true
  end.

Lemma settles_neutral evs : ∀ held,
  Forall (λ ev, neutral ev = true) evs → settles held evs held.
Proof.
  induction evs as [|ev evs IH]; intros held Hall; [apply settles_nil |].
  apply Forall_cons in Hall as [Hev Hall].
  destruct (IH held Hall) as (h & Hs & Hh).
  exists h. split; [| exact Hh].
  destruct ev; try discriminate; exact Hs.
Qed.

Lemma settles_close_if_open fd rest :
  settles (fd_res fd ++ rest) (close_if_open fd) rest.
Proof.
  unfold fd_res, close_if_open. destruct (0 <=? fd); [| apply settles_nil].
  exists rest. split; [| reflexivity].
  simpl. rewrite decide_True by apply list_elem_of_here.
  now rewrite decide_True.
Qed.

Lemma settles_close_file fo rest :
  settles (match fo with Some f => [RSound f] | None => [] end ++ rest)
          (close_file fo) rest.
Proof.
  destruct fo as [f|]; [| apply settles_nil].
  exists rest. split; [| reflexivity].
  simpl. rewrite decide_True by apply list_elem_of_here.
  now rewrite decide_True.
Qed.

(** [outstanding_free] releases what the request holds, each once. *)
Lemma settles_free o rest :
  settles (owned o ++ rest) (outstanding_free_body o) rest.
Proof.
  unfold owned, outstanding_free_body. rewrite <- !app_assoc.
  eapply settles_app; [apply settles_close_if_open |].
  eapply settles_app; [apply settles_close_if_open |].
  eapply settles_app; [apply settles_close_file |].
  eapply settles_app; [apply settles_close_if_open |].
  apply settles_neutral. repeat constructor.
Qed.

Lemma owned_set_dead_closed o :
  owned o ≡ₚ fd_res (o_pipe_fd1 o) ++ owned (set_dead_closed o).
Proof.
  unfold owned, set_dead_closed, fd_res. simpl.
  destruct (0 <=? o_pipe_fd1 o) eqn:Hfd; simpl; [reflexivity |].
  now rewrite Hfd.
Qed.

Lemma call_back_neutral site status o :
  Forall (λ ev, neutral ev = true) (call_back site status o).
Proof. unfold call_back. destruct (o_callback o); repeat constructor. Qed.

(** A marking loop releases the write ends of the pipes it closes. *)
Lemma settles_mark sel site status l : ∀ rest,
  settles ((l ≫= owned) ++ rest) (mark_effects sel site status l)
          ((marked sel l ≫= owned) ++ rest).
Proof.
  unfold mark_effects, marked.
  induction l as [|o l IH]; intros rest; [apply settles_nil |].
  rewrite fmap_cons, !bind_cons.
  destruct (sel o).
  - eapply settles_app.
    + eapply settles_app.
      * apply settles_neutral, call_back_neutral.
      * eapply (settles_perm
                  (fd_res (o_pipe_fd1 o)
                   ++ (owned (set_dead_closed o) ++ (l ≫= owned) ++ rest)));
          [| reflexivity | apply settles_close_if_open].
        rewrite (owned_set_dead_closed o). solve_Permutation.
    + eapply settles_perm; [| | apply (IH (owned (set_dead_closed o) ++ rest))].
      * solve_Permutation.
      * solve_Permutation.
  - simpl.
    eapply settles_perm; [| | apply (IH (owned o ++ rest))];
      solve_Permutation.
Qed.

Lemma open_oss_settle c out e ret fdo oevs held :
  open_oss c out e = Some (ret, fdo, oevs) →
  settle held oevs
  = Some (match fdo with
          | Some fd => fd_res fd ++ held
          | None => held
          end).
Proof.
  unfold open_oss, fd_res. intros H.
  repeat match type of H with
         | match ?x with _ => _ end = _ => destruct x eqn:?; simpl in H
         | (if ?b then _ else _) = _ => destruct b eqn:?; simpl in H
         end;
    try discriminate; inversion H; subst; clear H; simpl;
    repeat ztest; simpl; try reflexivity; try lia.
Qed.

Lemma settles_pipe_and_source a id cb userdata r w fo held :
  settles held
    ([EvPipe (Z.of_nat r) (Z.of_nat w)]
     ++ match fo with Some f => [EvSoundOpen f] | None => [] end)
    (owned (set_file (set_pipe (new_outstanding a id cb userdata)
                               (Z.of_nat r) (Z.of_nat w)) fo)
     ++ held).
Proof.
  unfold owned, fd_res. simpl.
  assert (Hr : (0 <=? Z.of_nat r) = true) by (apply Z.leb_le; lia).
  assert (Hw : (0 <=? Z.of_nat w) = true) by (apply Z.leb_le; lia).
  rewrite Hr, Hw.
  destruct fo as [f|]; eexists; (split; [reflexivity |]); simpl;
    solve_Permutation.
Qed.

(** What a play call acquires: nothing when it fails, what its request
    holds when it succeeds. *)
Lemma driver_play_settles ctx p id pl cb userdata e ret c' evs thread held :
  c_private ctx = Some p →
  (∀ a o, pe_new e = Some a → o ∈ p_outstanding p → o_addr o ≠ a) →
  driver_play (Some ctx) id pl cb userdata e
  = PlayReturn ret (Some c') evs thread →
  ∃ p', c_private c' = Some p' ∧
    ((p_outstanding p' = p_outstanding p ∧ settles held evs held) ∨
     (∃ o, p_outstanding p' = o :: p_outstanding p ∧
           settles held evs (owned o ++ held))).
Proof.
  intros Hp Hfresh. unfold driver_play, play_finish. cbv zeta.
  destruct (is_null pl).
  { intros H; inversion H; subst. exists p. split; [exact Hp |].
    left. split; [reflexivity | apply settles_nil]. }
  destruct (negb _).
  { intros H; inversion H; subst. exists p. split; [exact Hp |].
    left. split; [reflexivity | apply settles_nil]. }
  rewrite Hp.
  destruct (pe_new e) as [a|] eqn:Hnew; [| simpl; discriminate].
  destruct (pe_pipe e) as [[r w]|].
  2:{ simpl. intros H; inversion H; subst. exists p. split; [exact Hp |].
      left. split; [reflexivity |].
      apply (settles_free (new_outstanding a id cb userdata) held). }
  pose proof (settles_pipe_and_source a id cb userdata r w
                (pe_lookup_file e) held) as Hpre.
  remember ([EvPipe (Z.of_nat r) (Z.of_nat w)] ++
            match pe_lookup_file e with
            | Some f => [EvSoundOpen f] | None => [] end) as pre eqn:Epre.
  remember (set_file (set_pipe (new_outstanding a id cb userdata)
                               (Z.of_nat r) (Z.of_nat w))
                     (pe_lookup_file e)) as o eqn:Eo.
  destruct (is_error (pe_lookup e)) eqn:Hlk.
  { unfold outstanding_free. intros H; inversion H; subst ret c' evs thread.
    eexists. split; [reflexivity |]. left. split; [reflexivity |].
    eapply settles_app; [exact Hpre | apply settles_free]. }
  destruct (open_oss _ _ (pe_oss e)) as [[[oret fdo] oevs]|] eqn:Hoss;
    [| discriminate].
  pose (o' := match fdo with Some fd => set_pcm o fd | None => o end).
  assert (Hdev : settles held (pre ++ oevs) (owned o' ++ held)).
  { eapply settles_app; [exact Hpre |].
    exists (match fdo with
            | Some fd => fd_res fd ++ owned o ++ held
            | None => owned o ++ held
            end).
    split; [exact (open_oss_settle _ _ _ _ _ _ _ Hoss) |].
    subst o'. destruct fdo as [fd|]; [| reflexivity].
    unfold owned. subst o. simpl. unfold fd_res at 5. simpl.
    solve_Permutation. }
  destruct (is_error oret) eqn:Horet.
  { unfold outstanding_free. intros H; inversion H; subst ret c' evs thread.
    eexists. split; [reflexivity |]. left. split; [reflexivity |].
    eapply settles_app; [exact Hdev | apply settles_free]. }
  destruct (open_oss_error_or_success _ _ _ _ _ _ Hoss Horet)
    as (fd & -> & Hfd).
  assert (Ha : o_addr (set_pcm o fd) = a) by (subst o; reflexivity).
  destruct (pe_thread e <? 0).
  { unfold outstanding_free. simpl is_error. cbv iota.
    intros H; inversion H; subst ret c' evs thread.
    eexists. split; [reflexivity |]. left. split.
    - simpl. rewrite <- Ha at 1. rewrite llist_remove_head, Ha.
      apply llist_remove_fresh. intros o1 Ho1. now apply Hfresh.
    - eapply settles_app; [exact Hdev | apply settles_free]. }
  destruct (pe_thread e =? 0); simpl is_error; cbv iota;
    intros H; inversion H; subst ret c' evs thread;
    (eexists; split; [reflexivity |]); right;
    exists (set_pcm o fd); (split; [reflexivity |]).
  - eapply settles_app; [exact Hdev |].
    apply settles_neutral. repeat constructor.
  - exact Hdev.
Qed.

Lemma loop_body_neutral out ds nbytes d e :
  Forall (λ ev, neutral ev = true)
         (after_body (loop_body out ds nbytes d e) ds).2.
Proof.
  unfold loop_body.
  repeat match goal with
         | |- context [if ?b then _ else _] => destruct b; simpl
         end;
    repeat constructor.
Qed.

Lemma registry_split l o :
  NoDup (o_addr <$> l) → o ∈ l → l ≡ₚ o :: llist_remove (o_addr o) l.
Proof.
  induction l as [|x t IH]; intros Hnd Ho; [now apply elem_of_nil in Ho |].
  rewrite fmap_cons in Hnd. apply NoDup_cons in Hnd as [Hx Hnd].
  destruct (decide (o_addr x = o_addr o)) as [Heq | Hne].
  - assert (o = x) as ->.
    { apply elem_of_cons in Ho as [Ho | Ho]; [exact Ho |].
      destruct Hx. rewrite Heq. now apply list_elem_of_fmap_2. }
    rewrite llist_remove_head, llist_remove_fresh; [reflexivity |].
    intros o' Ho' Heq'. apply Hx. rewrite <- Heq'.
    now apply list_elem_of_fmap_2.
  - apply elem_of_cons in Ho as [-> | Ho]; [now destruct Hne |].
    unfold llist_remove. rewrite filter_cons_True by exact Hne.
    rewrite (IH Hnd Ho) at 1. apply Permutation_swap.
Qed.

(** One step keeps the books: its effects lead from what the registered
    requests hold before it to what they hold after it. *)
Lemma settles_step s l s' :
  basic_inv s → cb_inv s → step s l s' →
  ∃ evs, sys_trace s' = sys_trace s ++ evs ∧
         settles (registry s ≫= owned) evs (registry s' ≫= owned).
Proof.
  intros [Hflags Hsig Hwake Hdone Hfresh] Hci Hstep.
  assert (Hmark : ∀ sel site status l,
            settles (l ≫= owned) (mark_effects sel site status l)
                    (marked sel l ≫= owned)).
  { intros sel site status l0.
    eapply settles_perm; [| | apply (settles_mark sel site status l0 [])];
      now rewrite app_nil_r. }
  step_cases Hstep; (eexists; split; [reflexivity |]).
  - destruct (driver_open_cases _ _ _ _ Hdo) as [(-> & Hnone & ->) | (-> & ->)];
      unfold registry; simpl; rewrite ?Hnone; apply settles_nil.
  - destruct (c_private (sys_ctx s)) as [p|] eqn:Hp.
    + assert (Hfr : ∀ a o, pe_new e = Some a → o ∈ p_outstanding p →
                             o_addr o ≠ a).
      { intros a o Hnew Ho Heq. destruct Hok as [Hok | Hok]; [congruence |].
        rewrite Hok in Hnew. inversion Hnew; subst a.
        specialize (Hfresh o). rewrite (registry_open _ _ Hp) in Hfresh.
        specialize (Hfresh Ho). lia. }
      destruct (driver_play_settles _ _ _ _ _ _ _ _ _ _ _
                  (p_outstanding p ≫= owned) Hp Hfr Hplay)
        as (p' & Hp' & [(Hr & Hs) | (o & Hr & Hs)]);
        unfold registry; simpl; rewrite Hp, Hp', Hr; [exact Hs |].
      now rewrite bind_cons.
    + destruct (driver_play_closed _ _ _ _ _ _ _ _ _ _ Hp Hplay)
        as (-> & -> & _).
      apply settles_nil.
  - destruct (c_private (sys_ctx s)) as [p|] eqn:Hp.
    + rewrite (driver_cancel_open _ _ _ Hp) in Hcancel.
      inversion Hcancel; subst ret c' evs.
      unfold registry. simpl. rewrite Hp. apply Hmark.
    + rewrite (driver_cancel_closed _ _ Hp) in Hcancel.
      inversion Hcancel; subst ret c' evs. apply settles_nil.
  - destruct (c_private (sys_ctx s)) as [p|] eqn:Hp; [| discriminate].
    destruct (Hflags p eq_refl) as [Hfm Hfa].
    rewrite (driver_destroy_open _ _ Hp Hfm Hfa) in Hdestroy.
    unfold destroy_wait_loop in Hdestroy. simpl in Hdestroy.
    destruct (marked live (p_outstanding p)) eqn:Hl; [| discriminate].
    inversion Hdestroy; subst ret c' evs.
    apply marked_nil in Hl.
    unfold registry. simpl. rewrite Hp, Hl. apply settles_nil.
  - destruct (c_private (sys_ctx s)) as [p|] eqn:Hp;
      [| unfold driver_destroy in Hdestroy; rewrite Hp in Hdestroy;
         discriminate].
    destruct (Hflags p eq_refl) as [Hfm Hfa].
    rewrite (driver_destroy_open _ _ Hp Hfm Hfa) in Hdestroy.
    unfold destroy_wait_loop in Hdestroy. simpl in Hdestroy.
    destruct (marked live (p_outstanding p)) eqn:Hl; [discriminate |].
    inversion Hdestroy; subst c' evs.
    rewrite <- Hl. unfold registry. simpl. rewrite Hp. apply Hmark.
  - assert (Hnone : c_private (sys_ctx s) = None) by now apply Hdone.
    unfold driver_destroy in Hdestroy. rewrite Hnone in Hdestroy.
    inversion Hdestroy; subst. apply settles_nil.
  - unfold registry. simpl. rewrite Hp. apply settles_nil.
  - unfold destroy_wait_loop in Hloop.
    destruct (p_outstanding p) eqn:Hl; [| discriminate].
    inversion Hloop; subst ret c' evs.
    unfold registry. simpl. rewrite Hp, Hl. apply settles_nil.
  - unfold destroy_wait_loop in Hloop.
    destruct (p_outstanding p) eqn:Hl; [discriminate |].
    inversion Hloop; subst c' evs.
    unfold registry. simpl. rewrite Hp. apply settles_nil.
  - apply settles_nil.
  - apply settles_nil.
  - apply settles_nil.
  - apply settles_neutral, loop_body_neutral.
  - apply settles_nil.
  - apply settles_neutral, call_back_neutral.
  - destruct (thread_unregister_flags p o) as (_ & _ & _ & Hr & _).
    unfold registry. simpl. rewrite Hp, Hr.
    assert (Hnd : NoDup (o_addr <$> p_outstanding p)).
    { rewrite <- (registry_open _ _ Hp). apply Hci. }
    assert (Hfree : settles (p_outstanding p ≫= owned)
                            (outstanding_free_body o)
                            (llist_remove (o_addr o) (p_outstanding p)
                               ≫= owned)).
    { eapply settles_perm; [| reflexivity | apply settles_free].
      rewrite (registry_split _ o Hnd Ho) at 2. now rewrite bind_cons. }
    unfold thread_unregister.
    destruct (llist_remove (o_addr o) (p_outstanding p)); simpl;
      [destruct (p_signal_semaphore p); simpl |]; exact Hfree.
Qed.

Lemma reachable_settles s :
  reachable s → settles [] (sys_trace s) (registry s ≫= owned).
Proof.
  induction 1 as [c0 e c Hopen | s l s' Hreach IH Hstep].
  - simpl. rewrite (driver_open_registry c0 e c Hopen). apply settles_nil.
  - destruct (settles_step s l s' (reachable_basic_inv s Hreach)
                (reachable_cb_inv s Hreach) Hstep) as (evs & -> & Hs).
    exact (settles_app _ _ _ _ _ IH Hs).
Qed.

(** X16.  The driver keeps its books.  In every reachable state, over the
    whole history: nothing has been closed that was not open at that moment
    (no descriptor and no source is closed twice), and what is open now is
    exactly what the requests of the registry hold: both ends of the pipe
    (the write end until the request is cancelled), the source and the
    device.  Nothing else is open: what failed play calls had acquired, and
    what the requests that have left held, has been released.  Once
    [driver_destroy] has returned nothing is open at all. *)
Theorem driver_holds_what_its_requests_hold s :
  reachable s →
  ∃ held, settle [] (sys_trace s) = Some held ∧
          held ≡ₚ registry s ≫= owned ∧
          (sys_destroy s = DDone → held = []).
Proof.
  intros Hreach.
  destruct (reachable_settles s Hreach) as (held & Hs & Hperm).
  exists held. split; [exact Hs |]. split; [exact Hperm |].
  intros Hdone.
  apply (bi_done s (reachable_basic_inv s Hreach)) in Hdone.
  unfold registry in Hperm. rewrite Hdone in Hperm.
  now apply Permutation_nil_r in Hperm.
Qed.

Lemma driver_holds_what_its_requests_hold_witness :
  ∃ held, settle [] (sys_trace (final run_late_cancel)) = Some held ∧
          held ≡ₚ registry (final run_late_cancel) ≫= owned ∧
          (sys_destroy (final run_late_cancel) = DDone → held = []).
Proof.
  apply driver_holds_what_its_requests_hold.
  apply final_reachable. vm_compute. eexists. reflexivity.
Defined.
